(** * MinMap: the pure helpers of the mind-map editor

    A shallow embedding of the data-transformation helpers of the
    single-file mind-map application: the children/roots index and the
    tree layout of a node list, node renaming, the map-name uniqueness
    policy and the immutable updates of the category tree.

    Conventions of the embedding.
    - A JavaScript string is a [string]: a sequence of code units below
      256.  Template literals are written with [+:+].
    - A JavaScript [number] is a [number]: an exact rational or one of
      the three non-finite values.  Arithmetic on finite values is
      exact (rounding and overflow are not represented).
    - An optional field ([parentId?], [children?]) is an [option];
      [None] stands for both [null] and [undefined].
    - A node object is identified by its position in the node array;
      the array is the heap that [autoLayout] mutates.
    - A loop or recursion that the source does not bound runs on fuel
      and yields [None] when the fuel is exhausted. *)

From Stdlib Require Import Ascii QArith Lqa.
From stdpp Require Import gmap strings list pretty.

#[local] Set Warnings "-register-all".

Local Close Scope Q_scope.
Local Open Scope Z_scope.
Local Open Scope nat_scope.

(** ** JavaScript strings *)

Module Js.

Abbreviation chars := String.list_ascii_of_string.
Abbreviation str := String.string_of_list_ascii.

(** The code units below 256 that [String.prototype.trim] removes:
    TAB, LF, VT, FF, CR, SPACE and NO-BREAK SPACE. *)
Definition is_white (c : ascii) : bool :=
  match c with
  | "009" | "010" | "011" | "012" | "013" | " " | "160" => true
  | _ => false
  end%char.

Fixpoint trim_start (l : list ascii) : list ascii :=
  match l with
  | c :: l' => if is_white c then trim_start l' else l
  | [] => []
  end.

Definition trim_chars (l : list ascii) : list ascii :=
  reverse (trim_start (reverse (trim_start l))).

(** [s.trim()] *)
Definition trim (s : string) : string := str (trim_chars (chars s)).

(** [s.length] *)
Definition length (s : string) : nat := List.length (chars s).

Fixpoint starts_with (pat l : list ascii) : bool :=
  match pat, l with
  | [], _ => true
  | p :: pat', c :: l' => if decide (p = c) then starts_with pat' l' else false
  | _ :: _, [] => false
  end.

(** Position of the last occurrence of [pat] in [l], if any. *)
Fixpoint last_index (pat l : list ascii) : option nat :=
  match l with
  | [] => if starts_with pat [] then Some 0 else None
  | _ :: l' =>
      match last_index pat l' with
      | Some k => Some (S k)
      | None => if starts_with pat l then Some 0 else None
      end
  end.

(** [s.lastIndexOf(pat)], with [-1] when there is no occurrence. *)
Definition lastIndexOf (s pat : string) : Z :=
  match last_index (chars pat) (chars s) with
  | Some k => Z.of_nat k
  | None => -1
  end.

(** [s.endsWith(suf)] *)
Definition endsWith (s suf : string) : bool :=
  starts_with (reverse (chars suf)) (reverse (chars s)).

(** A relative index as [slice] resolves it: negative indices count
    from the end, and the result is clamped to [0 .. len]. *)
Definition clamp_index (len : nat) (k : Z) : nat :=
  if (k <? 0)%Z then Z.to_nat (Z.max (Z.of_nat len + k) 0)
  else Nat.min (Z.to_nat k) len.

(** [s.slice(start, end)] *)
Definition slice (s : string) (start end_ : Z) : string :=
  let l := chars s in
  let from := clamp_index (List.length l) start in
  let to := clamp_index (List.length l) end_ in
  str (take (to - from) (drop from l)).

(** [ch >= '0' && ch <= '9'] *)
Definition is_digit (c : ascii) : bool :=
  (48 <=? nat_of_ascii c) && (nat_of_ascii c <=? 57).

(** [Array.from(s).every(p)] *)
Definition every (p : ascii → bool) (s : string) : bool := forallb p (chars s).

End Js.

(** [t] is [s] without its leading and trailing white space. *)
Definition trimmed_of (s t : string) : Prop :=
  ∃ a b, Js.chars s = a ++ Js.chars t ++ b ∧
    forallb Js.is_white a = true ∧ forallb Js.is_white b = true ∧
    (∀ c, head (Js.chars t) = Some c → Js.is_white c = false) ∧
    (∀ c, last (Js.chars t) = Some c → Js.is_white c = false).

(** ** JavaScript numbers *)

Inductive number : Type :=
  | Fin (q : Q)
  | PosInf
  | NegInf
  | NaN.

Module Num.

Definition of_nat (n : nat) : number := Fin (inject_Z (Z.of_nat n)).

(** [Number.isFinite] *)
Definition isFinite (a : number) : bool :=
  match a with Fin _ => true | _ => false end.

Definition opp (a : number) : number :=
  match a with
  | Fin q => Fin (- q)%Q
  | PosInf => NegInf
  | NegInf => PosInf
  | NaN => NaN
  end.

Definition add (a b : number) : number :=
  match a, b with
  | NaN, _ | _, NaN => NaN
  | Fin p, Fin q => Fin (p + q)%Q
  | PosInf, NegInf | NegInf, PosInf => NaN
  | PosInf, _ | _, PosInf => PosInf
  | NegInf, _ | _, NegInf => NegInf
  end.

Definition sub (a b : number) : number := add a (opp b).

(** [a / 2] *)
Definition half (a : number) : number :=
  match a with
  | Fin q => Fin (q / 2)%Q
  | other => other
  end.

(** [Math.min(a, b)] and [Math.max(a, b)]: [NaN] is contagious. *)
Definition min2 (a b : number) : number :=
  match a, b with
  | NaN, _ | _, NaN => NaN
  | NegInf, _ | _, NegInf => NegInf
  | PosInf, c | c, PosInf => c
  | Fin p, Fin q => if Qle_bool p q then a else b
  end.

Definition max2 (a b : number) : number :=
  match a, b with
  | NaN, _ | _, NaN => NaN
  | PosInf, _ | _, PosInf => PosInf
  | NegInf, c | c, NegInf => c
  | Fin p, Fin q => if Qle_bool p q then b else a
  end.

(** [Math.min(...l)] is [Infinity] and [Math.max(...l)] is
    [-Infinity] on the empty list. *)
Definition min (l : list number) : number := foldr min2 PosInf l.
Definition max (l : list number) : number := foldr max2 NegInf l.

(** The number is the finite value zero. *)
Definition is_zero (a : number) : Prop :=
  match a with Fin q => (q == 0)%Q | _ => False end.

(** The same value: the same rational or the same non-finite value. *)
Definition eqb (a b : number) : bool :=
  match a, b with
  | Fin p, Fin q => Qeq_bool p q
  | PosInf, PosInf | NegInf, NegInf | NaN, NaN => true
  | _, _ => false
  end.

End Num.

(** ** The document types *)

Inductive Side : Type := left | right | up | down.

Record NodeT : Type := mkNode {
  node_id : string;
  node_label : string;
  node_x : number;
  node_y : number;
  node_parentId : option string;
  node_color : option string;
  node_side : option Side
}.

Record MindMapDoc : Type := mkDoc {
  doc_id : string;
  doc_name : string;
  doc_nodes : list NodeT;
  doc_updatedAt : number
}.

Inductive Category : Type := mkCategory {
  cat_id : string;
  cat_name : string;
  cat_maps : list MindMapDoc;
  cat_children : option (list Category)
}.

(** ** The map-name uniqueness policy *)

(** [`${root} (${i})`] *)
Definition suffixed (root : string) (i : nat) : string :=
  root +:+ " (" +:+ pretty i +:+ ")".

(** [maps.some((m) => m.name === name)] *)
Definition name_used (maps : list MindMapDoc) (name : string) : bool :=
  existsb (λ m, bool_decide (doc_name m = name)) maps.

(** [base || 'Untitled'] and the like: the empty string is falsy. *)
Definition or_default (s dflt : string) : string :=
  if decide (s = "") then dflt else s.

(** The block that removes a trailing [" (digits)"] from [root]. *)
Definition strip_numeric_suffix (root : string) : string :=
  let sufStart := Js.lastIndexOf root " (" in
  if negb (sufStart =? -1)%Z && Js.endsWith root ")" then
    let num := Js.slice root (sufStart + 2) (-1) in
    let digits := (0 <? Js.length num) && Js.every Js.is_digit num in
    if digits then Js.slice root 0 sufStart else root
  else root.

(** The root name: the trimmed base without a trailing [" (digits)"]. *)
Definition root_name (base : string) : string :=
  strip_numeric_suffix (Js.trim (or_default base "Untitled")).

(** [while (maps.some(...)) i++], run for at most [fuel] tests of the
    loop condition. *)
Fixpoint first_free (maps : list MindMapDoc) (root : string) (fuel i : nat) : option nat :=
  match fuel with
  | 0 => None
  | S fuel' =>
      if name_used maps (suffixed root i) then first_free maps root fuel' (S i)
      else Some i
  end.

Definition uniqueMapName_fuel (fuel : nat) (maps : list MindMapDoc) (base : string)
  : option string :=
  let root := root_name base in
  if negb (name_used maps root) then Some root
  else suffixed root <$> first_free maps root fuel 2.

(** One test more than there are maps always suffices
    ([first_free_total] below), so this is the value the source
    returns; the default is never taken. *)
Definition uniqueMapName (maps : list MindMapDoc) (base : string) : string :=
  default (root_name base)
    (uniqueMapName_fuel (S (List.length maps)) maps base).

(** Maps with the given names, in order. *)
Definition named (names : list string) : list MindMapDoc :=
  imap (λ i nm, mkDoc (pretty (S i)) nm [] (Fin 0)) names.

(** *** What the policy promises, in the words of its description *)

(** [t] is [root] followed by a space and a parenthesized, non-empty
    run of ASCII digits. *)
Definition numeric_suffix (t root : string) : Prop :=
  ∃ d, d ≠ "" ∧ Js.every Js.is_digit d = true ∧ t = root +:+ " (" +:+ d +:+ ")".

(** [root] is [t] without its numeric suffix, or [t] itself when it has
    none. *)
Definition is_root_of (t root : string) : Prop :=
  numeric_suffix t root ∨ (root = t ∧ ∀ r, ¬ numeric_suffix t r).

(** [result] is the root of [t] when that name is free, and otherwise
    the root with the smallest free suffix from 2 on. *)
Definition unique_name_of (maps : list MindMapDoc) (t result : string) : Prop :=
  ∃ root, is_root_of t root ∧
    if name_used maps root then
      ∃ i, 2 ≤ i ∧ result = suffixed root i ∧
           name_used maps (suffixed root i) = false ∧
           ∀ j, 2 ≤ j < i → name_used maps (suffixed root j) = true
    else result = root.


(** ** The children/roots index *)

(** A node object, named by its position in the node array. *)
Abbreviation ref := nat.

(** [!s] on an optional string: [null], [undefined] and the empty
    string are falsy. *)
Definition falsy (o : option string) : bool :=
  match o with
  | Some s => bool_decide (s = "")
  | None => true
  end.

(** [n.parentId || null] *)
Definition parent_key (n : NodeT) : option string :=
  if falsy (node_parentId n) then None else node_parentId n.

(** The array with every object next to its reference. *)
Definition objects (nodes : list NodeT) : list (ref * NodeT) :=
  imap (λ r n, (r, n)) nodes.

(** The first loop of [buildChildrenMap]:
    [if (!byParent.has(key)) byParent.set(key, []); byParent.get(key).push(n)]. *)
Definition push_child (byParent : gmap (option string) (list ref)) (o : ref * NodeT)
  : gmap (option string) (list ref) :=
  let key := parent_key o.2 in
  <[key := default [] (byParent !! key) ++ [o.1]]> byParent.

(** [!n.parentId || !ids.has(n.parentId)] *)
Definition unresolved (ids : gset string) (n : NodeT) : bool :=
  falsy (node_parentId n) ||
  match node_parentId n with
  | Some p => negb (bool_decide (p ∈ ids))
  | None => true
  end.

(** The second loop: [if (...) { if (!roots.includes(n)) roots.push(n); }]. *)
Definition push_root (ids : gset string) (roots : list ref) (o : ref * NodeT) : list ref :=
  if unresolved ids o.2 then
    if bool_decide (o.1 ∈ roots) then roots else roots ++ [o.1]
  else roots.

Record ChildrenMap : Type := mkChildrenMap {
  byParent : gmap (option string) (list ref);
  roots : list ref
}.

(** [!n.parentId] for the object at [r]. *)
Definition no_parent_at (nodes : list NodeT) (r : ref) : bool :=
  match nodes !! r with
  | Some n => falsy (node_parentId n)
  | None => false
  end.

Definition buildChildrenMap (nodes : list NodeT) : ChildrenMap :=
  let byParent := foldl push_child ∅ (objects nodes) in
  let ids : gset string := list_to_set (node_id <$> nodes) in
  let roots0 :=
    filter (λ r, no_parent_at nodes r = true) (default [] (byParent !! None)) in
  let roots := foldl (push_root ids) roots0 (objects nodes) in
  mkChildrenMap byParent roots.

(** The objects whose parent key is [key], in array order. *)
Definition keyed (nodes : list NodeT) (key : option string) : list ref :=
  (filter (λ o, parent_key o.2 = key) (objects nodes)).*1.

(** The objects with a parent link that no id of the array answers. *)
Definition dangling (nodes : list NodeT) : list ref :=
  (filter (λ o, falsy (node_parentId o.2) = false ∧
                unresolved (list_to_set (node_id <$> nodes)) o.2 = true)
          (objects nodes)).*1.

(** ** The layout *)

Definition V : nat := 90.
Definition H : nat := 120.

(** The state of a layout run: the shared leaf counter and the node
    objects. *)
Record Layout : Type := mkLayout {
  cursorX : nat;
  heap : list NodeT
}.

(** [n.x = x; n.y = y] *)
Definition set_xy (x y : number) (n : NodeT) : NodeT :=
  mkNode (node_id n) (node_label n) x y (node_parentId n) (node_color n) (node_side n).

(** [l.map(f)] for an [f] that updates the state and may run out of
    fuel. *)
Fixpoint map_st {A B S : Type} (f : A → S → option (B * S)) (l : list A) (s : S)
  : option (list B * S) :=
  match l with
  | [] => Some ([], s)
  | a :: l' =>
      match f a s with
      | None => None
      | Some (b, s') =>
          match map_st f l' s' with
          | None => None
          | Some (bs, s'') => Some (b :: bs, s'')
          end
      end
  end.

(** [byParent.get(n.id) || []] for the object at [r].  Every reference
    that the index holds points into the array; for any other the list
    is empty. *)
Definition children_of (byParent : gmap (option string) (list ref))
    (heap : list NodeT) (r : ref) : list ref :=
  default [] (n ← heap !! r; byParent !! Some (node_id n)).

Fixpoint place (byParent : gmap (option string) (list ref))
    (fuel : nat) (r : ref) (depth : nat) (st : Layout)
  : option ((number * number) * Layout) :=
  match fuel with
  | 0 => None
  | S fuel' =>
      let ch := children_of byParent (heap st) r in
      match ch with
      | [] =>
          let x := Num.of_nat (cursorX st * H) in
          let y := Num.of_nat (depth * V) in
          Some ((x, y), mkLayout (cursorX st + 1) (alter (set_xy x y) r (heap st)))
      | _ :: _ =>
          match map_st (λ c, place byParent fuel' c (depth + 1)) ch st with
          | None => None
          | Some (childPositions, st') =>
              let minX := Num.min (fst <$> childPositions) in
              let maxX := Num.max (fst <$> childPositions) in
              let x := Num.half (Num.add minX maxX) in
              let y := Num.of_nat (depth * V) in
              Some ((x, y), mkLayout (cursorX st') (alter (set_xy x y) r (heap st')))
          end
      end
  end.

(** The centring pass: [n.x -= midX; n.y -= midY] for every node. *)
Definition centre (nodes : list NodeT) : list NodeT :=
  let xs := node_x <$> nodes in
  let ys := node_y <$> nodes in
  let midX := Num.half (Num.add (Num.min xs) (Num.max xs)) in
  let midY := Num.half (Num.add (Num.min ys) (Num.max ys)) in
  (λ n, set_xy (Num.sub (node_x n) midX) (Num.sub (node_y n) midY) n) <$> nodes.

Definition autoLayout_fuel (fuel : nat) (nodes : list NodeT) : option (list NodeT) :=
  let cm := buildChildrenMap nodes in
  match map_st (λ r, place (byParent cm) fuel r 0) (roots cm) (mkLayout 0 nodes) with
  | None => None
  | Some (_, st) => Some (centre (heap st))
  end.

(** A recursion depth of [length nodes] is enough whenever the ids are
    pairwise distinct ([plan_roots_total] below). *)
Definition autoLayout (nodes : list NodeT) : option (list NodeT) :=
  autoLayout_fuel (List.length nodes) nodes.

(** *** The writes of a layout run *)

(** An assignment [n.x = x; n.y = y] to the object at a reference. *)
Definition write : Type := ref * (number * number).

Definition apply_write (h : list NodeT) (w : write) : list NodeT :=
  alter (set_xy w.2.1 w.2.2) w.1 h.

(** The heap after a sequence of writes, oldest first. *)
Definition apply_writes (ws : list write) (h : list NodeT) : list NodeT :=
  foldl apply_write h ws.

(** The children of the object at [r], read off the ids alone. *)
Definition kids_of (byParent : gmap (option string) (list ref))
    (ids : list string) (r : ref) : list ref :=
  default [] (id ← ids !! r; byParent !! Some id).

(** The children lists that a layout of [nodes] works with. *)
Definition index_kids (nodes : list NodeT) : ref → list ref :=
  kids_of (byParent (buildChildrenMap nodes)) (node_id <$> nodes).

(** [place] with the heap replaced by the log of its writes.  It reads
    nothing but the children lists, so it is the layout as a function
    of the parent links alone; [place_plan] below relates the two. *)
Fixpoint plan (kids : ref → list ref) (fuel : nat) (r : ref) (depth : nat)
    (s : nat * list write) : option ((number * number) * (nat * list write)) :=
  match fuel with
  | 0 => None
  | S fuel' =>
      match kids r with
      | [] =>
          let x := Num.of_nat (s.1 * H) in
          let y := Num.of_nat (depth * V) in
          Some ((x, y), (s.1 + 1, s.2 ++ [(r, (x, y))]))
      | _ :: _ =>
          match map_st (λ c, plan kids fuel' c (depth + 1)) (kids r) s with
          | None => None
          | Some (childPositions, s') =>
              let minX := Num.min (fst <$> childPositions) in
              let maxX := Num.max (fst <$> childPositions) in
              let x := Num.half (Num.add minX maxX) in
              let y := Num.of_nat (depth * V) in
              Some ((x, y), (s'.1, s'.2 ++ [(r, (x, y))]))
          end
      end
  end.

(** The plan of a whole layout: the roots in order, from the empty
    log. *)
Definition plan_roots (nodes : list NodeT) (fuel : nat)
  : option (list (number * number) * (nat * list write)) :=
  map_st (λ r, plan (index_kids nodes) fuel r 0)
         (roots (buildChildrenMap nodes)) (0, []).

(** [c] is [r] or a descendant of [r] along the children lists. *)
Inductive below (kids : ref → list ref) : ref → ref → Prop :=
  | below_refl r : below kids r r
  | below_step r c c' : c ∈ kids r → below kids c c' → below kids r c'.

(** The heap and the log describe the same state of a run that started
    on the heap [h0]. *)
Definition sim (h0 : list NodeT) (st : Layout) (s : nat * list write) : Prop :=
  cursorX st = s.1 ∧ heap st = apply_writes s.2 h0.

(** Two runs fail together or return the same value in related
    states. *)
Definition option_sim {B S1 S2 : Type} (R : S1 → S2 → Prop)
    (o1 : option (B * S1)) (o2 : option (B * S2)) : Prop :=
  match o1, o2 with
  | Some (b1, s1), Some (b2, s2) => b1 = b2 ∧ R s1 s2
  | None, None => True
  | _, _ => False
  end.

(** A node without its position. *)
Definition frame (n : NodeT) : NodeT := set_xy (Fin 0) (Fin 0) n.

Definition finite_pos (p : number * number) : Prop :=
  Num.isFinite p.1 = true ∧ Num.isFinite p.2 = true.

(** *** Parent links *)

(** The first object whose id is [p]. *)
Definition resolve (nodes : list NodeT) (p : string) : option ref :=
  fst <$> list_find (λ n, node_id n = p) nodes.

(** The object that the parent link of [r] points to, if it has one
    that resolves. *)
Definition parent_of (nodes : list NodeT) (r : ref) : option ref :=
  n ← nodes !! r; p ← parent_key n; resolve nodes p.

(** The number of parent links from [r] up to an object without a
    resolving parent, if that is at most [fuel]. *)
Fixpoint root_distance (nodes : list NodeT) (fuel : nat) (r : ref) : option nat :=
  match parent_of nodes r with
  | None => Some 0
  | Some r' =>
      match fuel with
      | 0 => None
      | S fuel' => S <$> root_distance nodes fuel' r'
      end
  end.

(** [r] is [k] parent links away from an object without a resolving
    parent. *)
Inductive level (nodes : list NodeT) : ref → nat → Prop :=
  | level_root r :
      r < List.length nodes → parent_of nodes r = None → level nodes r 0
  | level_child r r' k :
      parent_of nodes r = Some r' → level nodes r' k → level nodes r (S k).

(** Following parent links from any node ends at a root: no node lies
    on or below a parent cycle. *)
Definition is_forest (nodes : list NodeT) : bool :=
  forallb (λ r, bool_decide (is_Some (root_distance nodes (List.length nodes) r)))
          (seq 0 (List.length nodes)).

Definition positions (nodes : list NodeT) : list (number * number) :=
  (λ n, (node_x n, node_y n)) <$> nodes.

Definition all_finite (nodes : list NodeT) : bool :=
  forallb (λ n, Num.isFinite (node_x n) && Num.isFinite (node_y n)) nodes.

(** The midpoint of the bounding box of the positions. *)
Definition bbox_mid (nodes : list NodeT) : number * number :=
  let xs := node_x <$> nodes in
  let ys := node_y <$> nodes in
  (Num.half (Num.add (Num.min xs) (Num.max xs)),
   Num.half (Num.add (Num.min ys) (Num.max ys))).

(** The two sequences give the same position to every node. *)
Definition same_positions (l1 l2 : list NodeT) : bool :=
  bool_decide (List.length l1 = List.length l2) &&
  forallb (λ p, Num.eqb (node_x p.1) (node_x p.2) && Num.eqb (node_y p.1) (node_y p.2))
          (zip l1 l2).

(** The nodes moved to the given positions. *)
Definition at_positions (nodes : list NodeT) (ps : list (number * number)) : list NodeT :=
  zip_with (λ n p, set_xy p.1 p.2 n) nodes ps.

(** ** Renaming a node *)

Definition set_label (label : string) (n : NodeT) : NodeT :=
  mkNode (node_id n) label (node_x n) (node_y n) (node_parentId n) (node_color n) (node_side n).

Definition renameNode (nodes : list NodeT) (id newLabel : string) : list NodeT :=
  let label := Js.trim newLabel in
  let safe := if 0 <? Js.length label then label else "(empty)" in
  (λ n, if decide (node_id n = id) then set_label safe n else n) <$> nodes.

(** ** The category tree *)

(** [c.children || []] *)
Definition children_or_nil (c : Category) : list Category :=
  default [] (cat_children c).

Definition set_children (children : option (list Category)) (c : Category) : Category :=
  mkCategory (cat_id c) (cat_name c) (cat_maps c) children.

Definition set_maps (maps : list MindMapDoc) (c : Category) : Category :=
  mkCategory (cat_id c) (cat_name c) maps (cat_children c).

Definition set_name (name : string) (c : Category) : Category :=
  mkCategory (cat_id c) name (cat_maps c) (cat_children c).

(** The first result that is not [null], in list order. *)
Fixpoint first_some {A B : Type} (f : A → option B) (l : list A) : option B :=
  match l with
  | [] => None
  | a :: l' =>
      match f a with
      | Some b => Some b
      | None => first_some f l'
      end
  end.

(** One turn of the loop of [findCategoryById]. *)
Fixpoint find_in_category (id : string) (c : Category) : option Category :=
  match c with
  | mkCategory cid _ _ children =>
      if decide (cid = id) then Some c
      else match children with
           | Some cs => first_some (find_in_category id) cs
           | None => None
           end
  end.

Definition findCategoryById (cats : list Category) (id : string) : option Category :=
  first_some (find_in_category id) cats.

(** The callback of the [list.map] in [updateCategory]. *)
Fixpoint update_category (id : string) (updater : Category → Category) (c : Category)
  : Category :=
  match c with
  | mkCategory cid name maps children =>
      if decide (cid = id) then
        updater (mkCategory cid name maps
                   (Some (match children with Some cs => cs | None => [] end)))
      else
        mkCategory cid name maps
          (Some (match children with
                 | Some cs => update_category id updater <$> cs
                 | None => []
                 end))
  end.

Definition updateCategory (cats : list Category) (id : string)
    (updater : Category → Category) : list Category :=
  update_category id updater <$> cats.

(** [c.maps.findIndex((m) => m.name === doc.name)], then the
    replacement at that index or the insertion in front. *)
Definition upsert_map (maps : list MindMapDoc) (doc : MindMapDoc) : list MindMapDoc :=
  match list_find (λ m, doc_name m = doc_name doc) maps with
  | Some (i, _) => <[i := doc]> maps
  | None => doc :: maps
  end.

(** The callback of the [list.map] in [walk]. *)
Fixpoint upsert_in_category (catId : string) (doc : MindMapDoc) (c : Category)
  : Category :=
  match c with
  | mkCategory cid name maps children =>
      if decide (cid = catId) then
        mkCategory cid name (upsert_map maps doc) children
      else
        mkCategory cid name maps
          (match children with
           | Some (c0 :: cs) =>
               Some (upsert_in_category catId doc c0
                       :: (upsert_in_category catId doc <$> cs))
           | Some [] => Some []
           | None => None
           end)
  end.

Definition upsertMapInCategories (cats : list Category) (catId : string)
    (doc : MindMapDoc) : list Category :=
  upsert_in_category catId doc <$> cats.

Definition deleteMapFromTree (cats : list Category) (catId mapId : string)
  : list Category :=
  updateCategory cats catId
    (λ c, set_maps (filter (λ m, doc_id m ≠ mapId) (cat_maps c)) c).

(** [uid()] is the argument [fresh]. *)
Definition addSubCategory (fresh : string) (cats : list Category)
    (parentId name : string) : list Category :=
  let child := mkCategory fresh name [] (Some []) in
  updateCategory cats parentId
    (λ c, set_children (Some (children_or_nil c ++ [child])) c).

Definition renameCategoryTree (cats : list Category) (id newName : string)
  : list Category :=
  let name := or_default (Js.trim newName) "(unnamed)" in
  updateCategory cats id (set_name name).

Definition set_doc_name (name : string) (updatedAt : number) (m : MindMapDoc)
  : MindMapDoc :=
  mkDoc (doc_id m) name (doc_nodes m) updatedAt.

(** The updater of [renameMapInTree]; [Date.now()] is the argument [now]. *)
Definition rename_map_in (now : number) (mapId newName : string) (c : Category)
  : Category :=
  let base := or_default (Js.trim newName) "(unnamed map)" in
  let name := uniqueMapName (filter (λ m, doc_id m ≠ mapId) (cat_maps c)) base in
  let maps :=
    (λ m, if decide (doc_id m = mapId) then set_doc_name name now m else m)
      <$> cat_maps c in
  set_maps maps c.

Definition renameMapInTree (now : number) (cats : list Category)
    (catId mapId newName : string) : list Category :=
  updateCategory cats catId (rename_map_in now mapId newName).

(** *** Positions in a category tree *)

(** The category at a path of child positions, top level first. *)
Fixpoint cat_at (path : list nat) (cats : list Category) : option Category :=
  match path with
  | [] => None
  | [i] => cats !! i
  | i :: path' => c ← cats !! i; cat_at path' (children_or_nil c)
  end.

(** The proper ancestors along the path, outermost first. *)
Fixpoint ancestors_at (path : list nat) (cats : list Category) : list Category :=
  match path with
  | [] | [_] => []
  | i :: path' =>
      match cats !! i with
      | Some c => c :: ancestors_at path' (children_or_nil c)
      | None => []
      end
  end.

(** No proper ancestor along the path carries the id. *)
Definition outermost (id : string) (path : list nat) (cats : list Category) : bool :=
  forallb (λ c, negb (bool_decide (cat_id c = id))) (ancestors_at path cats).

(** The tree with every absent [children] field read as the empty
    list. *)
Fixpoint with_children (c : Category) : Category :=
  match c with
  | mkCategory cid name maps children =>
      mkCategory cid name maps
        (Some (match children with
               | Some cs => with_children <$> cs
               | None => []
               end))
  end.

(** Every category of the tree carries a [children] list. *)
Fixpoint children_present (c : Category) : bool :=
  match c with
  | mkCategory _ _ _ children =>
      match children with
      | Some cs => forallb children_present cs
      | None => false
      end
  end.

(** ** More of the category tree *)

(** The body of [walk] in [collectCategoryIds] for one category, with
    the array [ids] that it pushes onto. *)
Fixpoint collect_into (c : Category) (ids : list string) : list string :=
  match c with
  | mkCategory cid _ _ children =>
      let ids := ids ++ [cid] in
      match children with
      | Some (c0 :: cs) =>
          foldl (λ acc c', collect_into c' acc) (collect_into c0 ids) cs
      | Some [] => ids
      | None => ids
      end
  end.

Definition collectCategoryIds (cats : list Category) : list string :=
  foldl (λ acc c, collect_into c acc) [] cats.

(** A category and everything below it, parents before children,
    children in order. *)
Fixpoint subtree (c : Category) : list Category :=
  c :: match c with
       | mkCategory _ _ _ children =>
           match children with
           | Some cs => concat (subtree <$> cs)
           | None => []
           end
       end.

Definition all_categories (cats : list Category) : list Category :=
  concat (subtree <$> cats).

(** [s || dflt] for an optional string. *)
Definition or_else (o : option string) (dflt : string) : string :=
  match o with
  | Some s => or_default s dflt
  | None => dflt
  end.

(** The state change of [saveCurrentAsMap]: [uid()] is [fresh],
    [Date.now()] is [now], [nameOverride ?? prompt(...)] is [name], and
    [targetCategoryId ?? currentCatId] is [catId].  The result is the
    new category tree; it is the old one when the callback returns
    early. *)
Definition saveCurrentAsMap (fresh : string) (now : number) (nodes : list NodeT)
    (categories : list Category) (catId name : option string) : list Category :=
  if falsy catId then categories
  else
    let catId := default "" catId in
    let base := or_else name "Untitled" in
    let cat := findCategoryById categories catId in
    let unique := uniqueMapName (from_option cat_maps [] cat) base in
    let doc := mkDoc fresh unique nodes now in
    upsertMapInCategories categories catId doc.

(** The names of the maps of a category. *)
Definition map_names (c : Category) : list string := doc_name <$> cat_maps c.

Definition INITIAL_NODES : list NodeT :=
  [mkNode "root" "Central Idea" (Fin 0) (Fin 0) None (Some "#fef08a") None].

(** The category tree after [createEmptyMapHere]: [uid()] is [fresh],
    [Date.now()] is [now], and [prompted] is what [prompt] returns.  The
    tree is the old one when the callback returns early. *)
Definition createEmptyMapHere (fresh : string) (now : number)
    (categories : list Category) (catId : string) (prompted : option string)
  : list Category :=
  match findCategoryById categories catId with
  | None => categories
  | Some cat =>
      let suggested := uniqueMapName (cat_maps cat) "Untitled" in
      let name := or_else prompted suggested in
      let doc := mkDoc fresh name INITIAL_NODES now in
      upsertMapInCategories categories catId doc
  end.

(** The node list after [loadMap], [nodes] being the one before. *)
Definition loadMap (categories : list Category) (catId mapId : string)
    (nodes : list NodeT) : list NodeT :=
  match findCategoryById categories catId with
  | None => nodes
  | Some cat =>
      match list_find (λ m, doc_id m = mapId) (cat_maps cat) with
      | None => nodes
      | Some (_, doc) => doc_nodes doc
      end
  end.

(** The table [expanded] after [expandAllCats]:
    [Object.fromEntries(all.map((id) => [id, true]))]. *)
Definition expandAllCats (categories : list Category) : gmap string bool :=
  foldl (λ e id, <[id := true]> e) ∅ (collectCategoryIds categories).

(** ** Deleting a node with everything below it *)

(** The body of the [for] loop in [deleteNode], on the set [toDelete]
    and the flag [changed]. *)
Definition sweep_node (acc : gset string * bool) (n : NodeT) : gset string * bool :=
  match node_parentId n with
  | Some p =>
      if bool_decide (node_id n ∉ acc.1) && negb (bool_decide (p = ""))
         && bool_decide (p ∈ acc.1)
      then ({[node_id n]} ∪ acc.1, true)
      else acc
  | None => acc
  end.

(** [changed = false; for (const n of nodes) ...] *)
Definition sweep (nodes : list NodeT) (toDelete : gset string) : gset string * bool :=
  foldl sweep_node (toDelete, false) nodes.

(** [while (changed) ...], for at most [fuel] runs of the body. *)
Fixpoint cascade (fuel : nat) (nodes : list NodeT) (toDelete : gset string)
  : option (gset string) :=
  match fuel with
  | 0 => None
  | S fuel' =>
      let res := sweep nodes toDelete in
      if res.2 then cascade fuel' nodes res.1 else Some res.1
  end.

(** The node list after [deleteNode]; [selectedNode] is
    [nodes.find((n) => n.id === selectedId) || null]. *)
Definition deleteNode_fuel (fuel : nat) (nodes : list NodeT)
    (selectedId : option string) : option (list NodeT) :=
  match list_find (λ n, Some (node_id n) = selectedId) nodes with
  | None => Some nodes
  | Some (_, selectedNode) =>
      toDelete ← cascade fuel nodes {[node_id selectedNode]};
      Some (filter (λ n, node_id n ∉ toDelete) nodes)
  end.

(** One run of the loop body more than there are nodes always suffices
    ([cascade_total] below). *)
Definition deleteNode (nodes : list NodeT) (selectedId : option string)
  : option (list NodeT) :=
  deleteNode_fuel (S (List.length nodes)) nodes selectedId.

(** [id] is [top], or the id of a node whose parent link is an id that
    hangs below [top]. *)
Inductive hangs_below (nodes : list NodeT) (top : string) : string → Prop :=
  | hangs_top : hangs_below nodes top top
  | hangs_child n p :
      n ∈ nodes → parent_key n = Some p → hangs_below nodes top p →
      hangs_below nodes top (node_id n).

(** ** The edges that are drawn *)

Record Edge : Type := mkEdge {
  edge_id : string;
  edge_from : ref;
  edge_to : ref
}.

(** [new Map(nodes.map((n) => [n.id, n]))]: of two nodes with the same
    id the later one is kept. *)
Definition node_index (nodes : list NodeT) : gmap string ref :=
  foldl (λ m o, <[node_id o.2 := o.1]> m) ∅ (objects nodes).

(** The edge that the loop of [edges] pushes for a node, if it pushes
    one. *)
Definition edge_for (map : gmap string ref) (o : ref * NodeT) : option Edge :=
  match node_parentId o.2 with
  | Some p =>
      if bool_decide (p = "") then None
      else (λ r, mkEdge (p +:+ "_" +:+ node_id o.2) r o.1) <$> map !! p
  | None => None
  end.

Definition push_edge (map : gmap string ref) (out : list Edge) (o : ref * NodeT)
  : list Edge :=
  match edge_for map o with
  | Some e => out ++ [e]
  | None => out
  end.

Definition edges (nodes : list NodeT) : list Edge :=
  foldl (push_edge (node_index nodes)) [] (objects nodes).

(** ** Clamping *)

(** [Math.max(a, Math.min(b, v))] *)
Definition clamp (v a b : number) : number := Num.max2 a (Num.min2 b v).

(** [a <= b] on numbers: false as soon as one side is [NaN]. *)
Definition num_le (a b : number) : Prop :=
  match a, b with
  | NaN, _ | _, NaN => False
  | NegInf, _ | _, PosInf => True
  | Fin p, Fin q => (p <= q)%Q
  | PosInf, _ | _, NegInf => False
  end.

(** ** The placing pass on its own *)


(** ** Sample data

    The inputs of the repository's own checks and of the examples and
    counterexamples below. *)

(** A node whose label is its id, without colour or side. *)
Definition nd (id : string) (parentId : option string) (x y : number) : NodeT :=
  mkNode id id x y parentId None None.

Definition sample : list NodeT :=
  [ nd "A" None (Fin 0) (Fin 0);
    mkNode "B" "B" (Fin 0) (Fin 0) (Some "A") None (Some right);
    nd "C" (Some "A") (Fin 0) (Fin 0) ].

Definition fakeCats : list Category :=
  [ mkCategory "cat1" "C1" [] (Some []);
    mkCategory "cat2" "C2" [mkDoc "m1" "MapA" [] (Fin 1)] (Some []) ].

Definition rootCats : list Category :=
  [ mkCategory "r1" "Root" [] (Some [mkCategory "c1" "Child" [] (Some [])]) ].

Definition catsForRename : list Category :=
  [ mkCategory "cx" "C"
      [mkDoc "m1" "Map" [] (Fin 0); mkDoc "m2" "Map (2)" [] (Fin 0)] (Some []) ].

(** A category with the id "a" inside a category with the id "a". *)
Definition nestedCats : list Category :=
  [ mkCategory "a" "outer" [] (Some [mkCategory "a" "inner" [] (Some [])]) ].

(** One node without a parent, whose id is the empty string, and one
    node whose parent link is that id. *)
Definition emptyIdNodes : list NodeT :=
  [ nd "" None (Fin 0) (Fin 0); nd "B" (Some "") (Fin 0) (Fin 0) ].

(** Two nodes with the id "A", the second a child of "A". *)
Definition dupNodes : list NodeT :=
  [ nd "A" None (Fin 0) (Fin 0); nd "A" (Some "A") (Fin 0) (Fin 0) ].

(** Two nodes that are each other's parent, one of them at infinity. *)
Definition cycleInfNodes : list NodeT :=
  [ nd "A" (Some "B") PosInf (Fin 0); nd "B" (Some "A") (Fin 0) (Fin 0) ].

(** A root, and two nodes that are each other's parent. *)
Definition rootAndCycle : list NodeT :=
  [ nd "R" None (Fin 7) (Fin 7);
    nd "A" (Some "B") (Fin 1000) (Fin 0);
    nd "B" (Some "A") (Fin 1000) (Fin 0) ].

(** ** The repository's own checks of the uniqueness policy *)

Example uniqueMapName_free :
  uniqueMapName [] "My Map" = "My Map".
Proof. by vm_compute. Qed.

Example uniqueMapName_collision :
  uniqueMapName (named ["Untitled"; "Untitled (2)"]) "Untitled" = "Untitled (3)".
Proof. by vm_compute. Qed.

(** ** Lists *)

Section list_facts.

Context {A : Type}.
Implicit Types (l : list A) (P Q : A → Prop).

Lemma filter_ext_in P `{!∀ x, Decision (P x)} Q `{!∀ x, Decision (Q x)} l :
  (∀ x, x ∈ l → P x ↔ Q x) → filter P l = filter Q l.
Proof.
  induction l as [|x l IH]; intros H; [done|].
  rewrite !filter_cons. rewrite IH by (intros y Hy; apply H; by right).
  destruct (decide (P x)) as [HP|HP], (decide (Q x)) as [HQ|HQ]; try done.
  - apply H in HP; [done|by left].
  - apply H in HQ; [done|by left].
Qed.

Lemma filter_all P `{!∀ x, Decision (P x)} l :
  (∀ x, x ∈ l → P x) → filter P l = l.
Proof.
  induction l as [|x l IH]; intros H; [done|].
  rewrite filter_cons, decide_True by (apply H; by left).
  f_equal. apply IH. intros y Hy. apply H. by right.
Qed.

Lemma filter_none P `{!∀ x, Decision (P x)} l :
  (∀ x, x ∈ l → ¬ P x) → filter P l = [].
Proof.
  induction l as [|x l IH]; intros H; [done|].
  rewrite filter_cons, decide_False by (apply H; by left).
  apply IH. intros y Hy. apply H. by right.
Qed.

Lemma filter_fmap_fst {B} (P : A → Prop) `{!∀ x, Decision (P x)} (l : list (A * B)) :
  (filter (λ o, P o.1) l).*1 = filter P l.*1.
Proof.
  induction l as [|o l IH]; [done|].
  rewrite fmap_cons, !filter_cons.
  destruct (decide (P o.1)); simpl; by rewrite <-IH.
Qed.

End list_facts.

Lemma filter_eq_seq (r a n : nat) :
  a ≤ r < a + n → filter (λ x, x = r) (seq a n) = [r].
Proof.
  revert a. induction n as [|n IH]; intros a Hr; [lia|].
  simpl. rewrite filter_cons. destruct (decide (a = r)) as [->|Hne].
  - f_equal. apply filter_none. intros x Hx%elem_of_seq. lia.
  - apply IH. lia.
Qed.

Lemma filter_ne_seq_length (r a n : nat) :
  a ≤ r < a + n → length (filter (λ x, x ≠ r) (seq a n)) = n - 1.
Proof.
  revert a. induction n as [|n IH]; intros a Hr; [lia|].
  simpl. rewrite filter_cons. destruct (decide (a ≠ r)) as [Hne|Heq].
  - simpl. rewrite IH by lia. lia.
  - rewrite filter_all; [rewrite length_seq; lia|].
    intros x Hx%elem_of_seq. lia.
Qed.
(** ** Strings: conversion and search lemmas *)

Section string_facts.

Lemma chars_app (s1 s2 : string) :
  Js.chars (s1 +:+ s2) = Js.chars s1 ++ Js.chars s2.
Proof.
  induction s1 as [|a s1 IH]; [reflexivity|].
  change (String a s1 +:+ s2) with (String a (s1 +:+ s2)).
  simpl. by rewrite IH.
Qed.

Lemma chars_inj (s1 s2 : string) : Js.chars s1 = Js.chars s2 → s1 = s2.
Proof.
  intros H. rewrite <-(String.string_of_list_ascii_of_string s1),
    <-(String.string_of_list_ascii_of_string s2). by rewrite H.
Qed.

Lemma chars_nil (s : string) : Js.chars s = [] → s = "".
Proof. intros H. by apply chars_inj. Qed.

Lemma app_string_inj_r (s1 s2 t : string) : s1 +:+ t = s2 +:+ t → s1 = s2.
Proof.
  intros H. apply chars_inj. apply (f_equal Js.chars) in H.
  rewrite !chars_app in H. by apply app_inv_tail in H.
Qed.

Lemma suffixed_inj (root : string) : Inj (=) (=) (suffixed root).
Proof.
  intros i j H. unfold suffixed in H.
  apply String.app_inj, String.app_inj, app_string_inj_r in H.
  by apply (inj pretty) in H.
Qed.

Lemma starts_with_app (pat l : list ascii) : Js.starts_with pat (pat ++ l) = true.
Proof. induction pat as [|p pat IH]; simpl; [done|]. by rewrite decide_True. Qed.

Lemma starts_with_split (pat l : list ascii) :
  Js.starts_with pat l = true → l = pat ++ drop (List.length pat) l.
Proof.
  revert l. induction pat as [|p pat IH]; intros [|c l] H; simpl in *; try done.
  destruct (decide (p = c)) as [->|]; [|done]. f_equal. by apply IH.
Qed.

Lemma last_index_app (pat l1 l2 : list ascii) (k : nat) :
  Js.last_index pat l2 = Some k →
  Js.last_index pat (l1 ++ l2) = Some (List.length l1 + k).
Proof.
  intros H. induction l1 as [|c l1 IH]; [done|].
  simpl. by rewrite IH.
Qed.

Lemma last_index_absent (p : ascii) (pat l : list ascii) :
  p ∉ l → Js.last_index (p :: pat) l = None.
Proof.
  induction l as [|c l IH]; intros Hp; [done|].
  apply not_elem_of_cons in Hp as [Hpc Hp].
  simpl. rewrite (IH Hp). by rewrite decide_False.
Qed.

Lemma last_index_here (p : ascii) (pat l : list ascii) :
  p ∉ l → Js.starts_with pat l = true →
  Js.last_index (p :: pat) (p :: l) = Some 0.
Proof.
  intros Hp Hs. cbn [Js.last_index]. rewrite (last_index_absent _ _ _ Hp).
  cbn [Js.starts_with]. by rewrite decide_True, Hs.
Qed.

Lemma last_index_occurs (pat l : list ascii) (k : nat) :
  Js.last_index pat l = Some k →
  l = take k l ++ pat ++ drop (k + List.length pat) l.
Proof.
  revert k. induction l as [|c l IH]; intros k H; simpl in H.
  - destruct pat; simplify_eq/=. done.
  - destruct (Js.last_index pat l) as [k'|] eqn:E.
    + simplify_eq/=. f_equal. by apply IH.
    + destruct (Js.starts_with pat (c :: l)) eqn:Es; simplify_eq/=.
      by apply starts_with_split in Es.
Qed.

Lemma digit_not_space (c : ascii) : Js.is_digit c = true → c ≠ " "%char.
Proof. intros H ->. done. Qed.

Lemma digit_not_paren (c : ascii) : Js.is_digit c = true → c ≠ "("%char.
Proof. intros H ->. done. Qed.

End string_facts.

(** ** Trimming *)

Section trim_facts.

Lemma trim_start_split (l : list ascii) :
  ∃ a, l = a ++ Js.trim_start l ∧ forallb Js.is_white a = true ∧
       ∀ c, head (Js.trim_start l) = Some c → Js.is_white c = false.
Proof.
  induction l as [|c l (a & Hl & Ha & Hh)]; simpl.
  - exists []. done.
  - destruct (Js.is_white c) eqn:Ec.
    + exists (c :: a). simpl. rewrite Ec, Ha. split_and!; [congruence|done|exact Hh].
    + exists []. split_and!; [done|done|]. simpl. intros ? [= <-]. exact Ec.
Qed.

Lemma trim_spec (s : string) : trimmed_of s (Js.trim s).
Proof.
  unfold trimmed_of, Js.trim. rewrite String.list_ascii_of_string_of_list_ascii.
  unfold Js.trim_chars.
  destruct (trim_start_split (Js.chars s)) as (a & Hs & Ha & Hh).
  set (m := Js.trim_start (Js.chars s)) in *.
  destruct (trim_start_split (reverse m)) as (b & Hm & Hb & Hl).
  set (k := Js.trim_start (reverse m)) in *.
  apply (f_equal reverse) in Hm. rewrite reverse_involutive, reverse_app in Hm.
  exists a, (reverse b). split_and!.
  - by rewrite <-Hm.
  - done.
  - rewrite forallb_forall in Hb |- *. intros c Hc. apply Hb.
    rewrite <-list_elem_of_In in Hc |- *. by rewrite elem_of_reverse in Hc.
  - intros c Hc. apply Hh. rewrite Hm.
    destruct (reverse k); [done|]. done.
  - intros c Hc. apply Hl. rewrite last_reverse in Hc. done.
Qed.

Lemma trim_blank (s : string) :
  forallb Js.is_white (Js.chars s) = true → Js.trim s = "".
Proof.
  intros H. unfold Js.trim, Js.trim_chars.
  assert (∀ l, forallb Js.is_white l = true → Js.trim_start l = []) as Hall.
  { induction l as [|c l IH]; simpl; [done|].
    intros [-> ?]%andb_prop. auto. }
  by rewrite (Hall _ H).
Qed.

Lemma trim_start_id (l : list ascii) :
  (∀ c, head l = Some c → Js.is_white c = false) → Js.trim_start l = l.
Proof. destruct l as [|c l]; [done|]. intros H. simpl. by rewrite (H c). Qed.

(** A trimmed string is left alone by [trim]. *)
Lemma trim_trimmed (s t : string) : trimmed_of s t → Js.trim t = t.
Proof.
  intros (a & b & _ & _ & _ & Hh & Hl). unfold Js.trim, Js.trim_chars.
  rewrite (trim_start_id _ Hh).
  rewrite trim_start_id; [by rewrite reverse_involutive, String.string_of_list_ascii_of_string|].
  intros c Hc. apply Hl. by rewrite <-head_reverse.
Qed.

Lemma trim_start_white (a l : list ascii) :
  forallb Js.is_white a = true → Js.trim_start (a ++ l) = Js.trim_start l.
Proof.
  induction a as [|c a IH]; [done|]. simpl.
  intros [-> Ha]%andb_prop. by apply IH.
Qed.

(** [trimmed_of] determines the trimmed string: it is what [trim]
    returns. *)
Lemma trimmed_of_unique (s t : string) : trimmed_of s t → t = Js.trim s.
Proof.
  intros (a & b & Hs & Ha & Hb & Hh & Hl). unfold Js.trim, Js.trim_chars.
  rewrite Hs, (trim_start_white _ _ Ha).
  destruct (Js.chars t) as [|c l] eqn:Et.
  - simpl. rewrite <-(app_nil_r b), (trim_start_white _ _ Hb). simpl.
    by apply chars_nil in Et.
  - rewrite (trim_start_id ((c :: l) ++ b)) by (intros c' [= <-]; by apply Hh).
    rewrite reverse_app.
    rewrite trim_start_white.
    2:{ rewrite forallb_forall in Hb |- *. intros x Hx. apply Hb.
        rewrite <-list_elem_of_In in Hx |- *. by rewrite elem_of_reverse in Hx. }
    rewrite trim_start_id by (intros c' Hc'; apply Hl; by rewrite <-head_reverse).
    rewrite reverse_involutive, <-Et.
    by rewrite String.string_of_list_ascii_of_string.
Qed.

End trim_facts.

(** ** The uniqueness policy *)

Section unique_name.

Implicit Types (maps : list MindMapDoc) (root base t : string).

Lemma name_used_true maps name :
  name_used maps name = true ↔ name ∈ doc_name <$> maps.
Proof.
  unfold name_used. rewrite existsb_exists, list_elem_of_fmap. split.
  - intros (m & Hin & Hm). apply bool_decide_eq_true in Hm.
    exists m. split; [done|]. by apply list_elem_of_In.
  - intros (m & -> & Hin). exists m. split; [by apply list_elem_of_In|].
    by apply bool_decide_eq_true.
Qed.

(** The loop stops at the first free suffix, and all the suffixes it
    passed are taken. *)
Lemma first_free_some maps root fuel i0 i :
  first_free maps root fuel i0 = Some i →
  i0 ≤ i ∧ name_used maps (suffixed root i) = false ∧
  ∀ j, i0 ≤ j < i → name_used maps (suffixed root j) = true.
Proof.
  revert i0. induction fuel as [|fuel IH]; intros i0 H; simpl in H; [done|].
  destruct (name_used maps (suffixed root i0)) eqn:E.
  - apply IH in H as (Hle & Hfree & Hused). split_and!; [lia|done|].
    intros j Hj. destruct (decide (j = i0)) as [->|]; [done|].
    apply Hused. lia.
  - simplify_eq. split_and!; [done..|]. intros j Hj. lia.
Qed.

Lemma first_free_none maps root fuel i0 :
  first_free maps root fuel i0 = None →
  ∀ j, i0 ≤ j < i0 + fuel → name_used maps (suffixed root j) = true.
Proof.
  revert i0. induction fuel as [|fuel IH]; intros i0 H j Hj; simpl in H; [lia|].
  destruct (name_used maps (suffixed root i0)) eqn:E; [|done].
  destruct (decide (j = i0)) as [->|]; [done|].
  apply (IH (S i0)); [done|lia].
Qed.

(** More suffixes than maps cannot all be taken. *)
Lemma first_free_total maps root i0 :
  is_Some (first_free maps root (S (List.length maps)) i0).
Proof.
  destruct (first_free maps root (S (List.length maps)) i0) eqn:E; [by eexists|].
  exfalso.
  pose proof (first_free_none _ _ _ _ E) as Hall.
  set (cands := suffixed root <$> seq i0 (S (List.length maps))).
  assert (NoDup cands) as Hnd.
  { apply (@NoDup_fmap_2 _ _ (suffixed root) (suffixed_inj root)), NoDup_seq. }
  assert (cands ⊆+ doc_name <$> maps) as Hsub.
  { apply NoDup_submseteq; [done|].
    intros nm (j & -> & Hj)%list_elem_of_fmap.
    apply elem_of_seq in Hj. apply name_used_true, Hall. lia. }
  apply submseteq_length in Hsub.
  unfold cands in Hsub. rewrite !length_fmap, length_seq in Hsub. lia.
Qed.

Lemma uniqueMapName_fuel_total maps base :
  is_Some (uniqueMapName_fuel (S (length maps)) maps base).
Proof.
  unfold uniqueMapName_fuel.
  destruct (first_free_total maps (root_name base) 2) as [i ->].
  destruct (name_used maps (root_name base)); by eexists.
Qed.

(** The result in terms of the root name. *)
Lemma uniqueMapName_cases maps base :
  if name_used maps (root_name base) then
    ∃ i, 2 ≤ i ∧ uniqueMapName maps base = suffixed (root_name base) i ∧
         name_used maps (suffixed (root_name base) i) = false ∧
         ∀ j, 2 ≤ j < i → name_used maps (suffixed (root_name base) j) = true
  else uniqueMapName maps base = root_name base.
Proof.
  unfold uniqueMapName, uniqueMapName_fuel.
  destruct (first_free_total maps (root_name base) 2) as [i Hi].
  rewrite Hi. destruct (name_used maps (root_name base)) eqn:E; [|done].
  apply first_free_some in Hi as (? & ? & ?). exists i. by split_and!.
Qed.

(** The name that comes back is never one of the existing names. *)
Lemma uniqueMapName_fresh maps base :
  name_used maps (uniqueMapName maps base) = false.
Proof.
  pose proof (uniqueMapName_cases maps base) as H.
  destruct (name_used maps (root_name base)) eqn:E.
  - destruct H as (i & _ & -> & Hfree & _). done.
  - by rewrite H.
Qed.

(** *** The root name *)

Lemma chars_str (l : list ascii) : Js.chars (Js.str l) = l.
Proof. apply String.list_ascii_of_string_of_list_ascii. Qed.

Lemma str_chars (s : string) : Js.str (Js.chars s) = s.
Proof. apply String.string_of_list_ascii_of_string. Qed.

Lemma slice_inner (s : string) (l1 l2 : list ascii) (c : ascii) :
  Js.chars s = l1 ++ l2 ++ [c] →
  Js.slice s (Z.of_nat (length l1)) (-1) = Js.str l2.
Proof.
  intros Hl. unfold Js.slice, Js.clamp_index. rewrite Hl.
  rewrite !length_app. cbn [length].
  destruct (Z.ltb_spec (Z.of_nat (length l1)) 0) as [?|_]; [lia|].
  destruct (Z.ltb_spec (-1)%Z 0) as [_|?]; [|lia].
  rewrite Nat.min_l by lia. rewrite Nat2Z.id.
  rewrite drop_app_length. f_equal.
  replace (Z.to_nat _ - length l1) with (length l2) by lia.
  by rewrite take_app_length.
Qed.

Lemma slice_prefix (s : string) (l1 l2 : list ascii) :
  Js.chars s = l1 ++ l2 →
  Js.slice s 0 (Z.of_nat (length l1)) = Js.str l1.
Proof.
  intros Hl. unfold Js.slice, Js.clamp_index. rewrite Hl.
  rewrite !length_app.
  destruct (Z.ltb_spec (Z.of_nat (length l1)) 0) as [?|_]; [lia|].
  destruct (Z.ltb_spec 0%Z 0) as [?|_]; [lia|].
  rewrite Nat2Z.id, Nat.min_l by lia. simpl.
  rewrite Nat.sub_0_r, drop_0. by rewrite take_app_length.
Qed.

Lemma numeric_suffix_chars t r d :
  t = r +:+ " (" +:+ d +:+ ")" →
  Js.chars t = Js.chars r ++ " "%char :: "("%char :: Js.chars d ++ [")"%char].
Proof. intros ->. by rewrite !chars_app. Qed.

Lemma numeric_suffix_proper t : ¬ numeric_suffix t t.
Proof.
  intros (d & _ & _ & Ht). apply numeric_suffix_chars in Ht.
  apply (f_equal List.length) in Ht. rewrite length_app in Ht. simpl in Ht. lia.
Qed.

(** When the trimmed base has a numeric suffix, the code removes it. *)
Lemma strip_numeric_suffix_strips t r :
  numeric_suffix t r → strip_numeric_suffix t = r.
Proof.
  unfold strip_numeric_suffix.
  intros (d & Hd & Hdig & Ht). pose proof (numeric_suffix_chars _ _ _ Ht) as Hl.
  assert (Js.lastIndexOf t " (" = Z.of_nat (length (Js.chars r))) as ->.
  { unfold Js.lastIndexOf. rewrite Hl.
    erewrite last_index_app; [by rewrite Nat.add_0_r|].
    apply last_index_here; [|done].
    unfold Js.every in Hdig. rewrite forallb_forall in Hdig.
    intros [?|Hin]%elem_of_cons; [done|].
    apply elem_of_app in Hin as [Hin|Hin%list_elem_of_singleton]; [|done].
    by apply list_elem_of_In, Hdig in Hin. }
  assert (Js.endsWith t ")" = true) as ->.
  { unfold Js.endsWith. rewrite Hl. rewrite reverse_app, reverse_cons, reverse_cons.
    by rewrite reverse_app. }
  replace (Z.of_nat (length (Js.chars r)) + 2)%Z
    with (Z.of_nat (length (Js.chars r ++ [" "%char; "("%char])))
    by (rewrite length_app; simpl; lia).
  rewrite (slice_inner t _ (Js.chars d) ")"%char)
    by (rewrite Hl, <-app_assoc; done).
  rewrite (slice_prefix t (Js.chars r) _ Hl), !str_chars, Hdig.
  assert ((0 <? Js.length d) = true) as ->.
  { apply Nat.ltb_lt. unfold Js.length.
    destruct (Js.chars d) eqn:E; [|simpl; lia]. by apply chars_nil in E. }
  destruct (Z.eqb_spec (Z.of_nat (length (Js.chars r))) (-1)); [lia|done].
Qed.

(** When the code removes something, it is a numeric suffix. *)
Lemma strip_numeric_suffix_cases t :
  strip_numeric_suffix t = t ∨ numeric_suffix t (strip_numeric_suffix t).
Proof.
  unfold strip_numeric_suffix. cbv zeta.
  destruct (Js.last_index (Js.chars " (") (Js.chars t)) as [k|] eqn:Ek;
    unfold Js.lastIndexOf; rewrite Ek; [|by left].
  destruct (Z.eqb_spec (Z.of_nat k) (-1)) as [?|_]; [lia|]. cbn [negb andb].
  destruct (Js.endsWith t ")") eqn:Eend; [|by left].
  destruct (0 <? Js.length (Js.slice t (Z.of_nat k + 2) (-1))) eqn:Elen; [|by left].
  destruct (Js.every Js.is_digit (Js.slice t (Z.of_nat k + 2) (-1))) eqn:Edig;
    [|by left].
  right. cbn [andb].
  apply last_index_occurs in Ek. simpl in Ek.
  set (l := Js.chars t) in *.
  unfold Js.endsWith in Eend. fold l in Eend. simpl in Eend.
  destruct (reverse l) as [|c rl] eqn:Erev; [done|]. simpl in Eend.
  destruct (decide (")"%char = c)) as [<-|]; [|done].
  apply (f_equal reverse) in Erev. rewrite reverse_involutive, reverse_cons in Erev.
  assert (k + 2 ≤ length l) as Hk.
  { apply (f_equal length) in Ek. rewrite length_app, length_take in Ek.
    simpl in Ek. lia. }
  assert (length l = S (length rl)) as Hlen.
  { rewrite Erev, length_app, length_reverse. simpl. lia. }
  set (num := Js.slice t (Z.of_nat k + 2) (-1)) in *.
  set (n := length l - 1 - (k + 2)).
  assert (Js.chars num = take n (drop (k + 2) l)) as Hnum.
  { unfold num, Js.slice, Js.clamp_index. fold l. rewrite chars_str.
    destruct (Z.ltb_spec (Z.of_nat k + 2) 0) as [?|_]; [lia|].
    destruct (Z.ltb_spec (-1)%Z 0) as [_|?]; [|lia].
    rewrite Nat.min_l by lia.
    replace (Z.to_nat (Z.of_nat k + 2)) with (k + 2) by lia.
    f_equal. unfold n. lia. }
  assert (0 < n) as Hn.
  { apply Nat.ltb_lt in Elen. unfold Js.length in Elen.
    rewrite Hnum, length_take in Elen. lia. }
  assert (drop (k + 2) l = Js.chars num ++ [")"%char]) as Hrest.
  { rewrite Hnum. rewrite <-(take_drop n (drop (k + 2) l)) at 1. f_equal.
    rewrite drop_drop. rewrite Erev at 1.
    rewrite drop_app_length'; [done|]. rewrite length_reverse. unfold n. lia. }
  exists num. split_and!; [|done|].
  - intros Hempty. rewrite Hempty in Hnum. simpl in Hnum.
    apply (f_equal length) in Hnum. rewrite length_take, length_drop in Hnum.
    simpl in Hnum. lia.
  - apply chars_inj. rewrite !chars_app. fold l.
    replace (Z.of_nat k) with (Z.of_nat (length (take k l)))
      by (rewrite length_take; lia).
    rewrite (slice_prefix t (take k l) (drop k l)) by (fold l; by rewrite take_drop).
    rewrite chars_str. rewrite Ek at 1. by rewrite Hrest.
Qed.

Lemma strip_numeric_suffix_is_root t : is_root_of t (strip_numeric_suffix t).
Proof.
  destruct (strip_numeric_suffix_cases t) as [Heq|Hsuf]; [|by left].
  right. split; [done|]. intros r Hr.
  pose proof (strip_numeric_suffix_strips _ _ Hr) as Hr'. rewrite Heq in Hr'.
  subst r. by apply numeric_suffix_proper in Hr.
Qed.

(** A string has exactly one root, the one the code computes. *)
Lemma is_root_of_unique t r : is_root_of t r → r = strip_numeric_suffix t.
Proof.
  intros [H|[-> H]]; [symmetry; by apply strip_numeric_suffix_strips|].
  destruct (strip_numeric_suffix_cases t) as [Heq|Hsuf]; [done|].
  by apply H in Hsuf.
Qed.

(** The root name is the trimmed base (or trimmed ["Untitled"] for the
    empty base) without its numeric suffix. *)
Lemma root_name_is_root base :
  is_root_of (Js.trim (or_default base "Untitled")) (root_name base).
Proof. apply strip_numeric_suffix_is_root. Qed.

(** The policy, for every list of maps and every base. *)
Lemma uniqueMapName_unique maps base :
  unique_name_of maps (Js.trim (or_default base "Untitled"))
    (uniqueMapName maps base).
Proof.
  exists (root_name base). split; [apply root_name_is_root|].
  apply uniqueMapName_cases.
Qed.

End unique_name.

(** ** The claims on names *)

(** C1 (as stated, refuted).  With no maps and the empty base the name
    that comes back is ["Untitled"], which is not the root of the
    trimmed base. *)
Lemma uniqueMapName_empty_base :
  uniqueMapName [] "" = "Untitled" ∧
  ¬ unique_name_of [] (Js.trim "") (uniqueMapName [] "").
Proof.
  split; [by vm_compute|].
  intros (root & Hroot & H). apply is_root_of_unique in Hroot.
  vm_compute in Hroot. subst root. vm_compute in H. done.
Qed.

(** C1 (amended).  For every list of maps and every base, with the
    empty base read as ["Untitled"]: the root name is the trimmed base
    without a trailing space, parenthesis, non-empty run of ASCII digits,
    parenthesis; [uniqueMapName] returns that root when no map bears it,
    and otherwise the root followed by [" (i)"] for the least [i >= 2]
    whose suffixed name no map bears; the search for [i] ends within one
    test more than there are maps.  With maps ["X"], ["X (2)"] and
    ["X (10)"], the base ["X (10)"] gives ["X (3)"]. *)
Theorem uniqueMapName_policy :
  (∀ maps base,
     unique_name_of maps (Js.trim (or_default base "Untitled"))
       (uniqueMapName maps base) ∧
     uniqueMapName_fuel (S (length maps)) maps base
       = Some (uniqueMapName maps base)) ∧
  uniqueMapName (named ["X"; "X (2)"; "X (10)"]) "X (10)" = "X (3)".
Proof.
  split; [|by vm_compute].
  intros maps base. split; [apply uniqueMapName_unique|].
  unfold uniqueMapName.
  by destruct (uniqueMapName_fuel_total maps base) as [name ->].
Qed.

(** C6.  [renameNode] keeps the length of the sequence; a node with the
    given id gets the trimmed new label, or ["(empty)"] when nothing is
    left after trimming, and keeps its id, position, parent, colour and
    side; every other node is returned as it is. *)
Theorem renameNode_spec (nodes : list NodeT) (id newLabel : string) :
  let out := renameNode nodes id newLabel in
  length out = length nodes ∧
  ∃ t, trimmed_of newLabel t ∧
    ∀ i n, nodes !! i = Some n →
      ∃ n', out !! i = Some n' ∧
        node_id n' = node_id n ∧ node_x n' = node_x n ∧ node_y n' = node_y n ∧
        node_parentId n' = node_parentId n ∧ node_color n' = node_color n ∧
        node_side n' = node_side n ∧
        if decide (node_id n = id)
        then node_label n' = if decide (t = "") then "(empty)" else t
        else n' = n.
Proof.
  unfold renameNode. cbv zeta. split; [by rewrite length_fmap|].
  exists (Js.trim newLabel). split; [apply trim_spec|].
  intros i n Hi. rewrite list_lookup_fmap, Hi. simpl.
  eexists. split; [done|].
  destruct (decide (node_id n = id)); [|done].
  split_and!; try done. simpl.
  unfold Js.length. destruct (decide (Js.trim newLabel = "")) as [->|Hne]; [done|].
  destruct (Js.chars (Js.trim newLabel)) eqn:E; [|done].
  by apply chars_nil in E.
Qed.

Example renameNode_trims :
  node_label <$> renameNode [mkNode "B" "B" (Fin 0) (Fin 0) (Some "A") None (Some right)]
    "B" "  New  " = ["New"].
Proof. by vm_compute. Qed.

Example renameNode_blank :
  node_label <$> renameNode [mkNode "B" "B" (Fin 0) (Fin 0) (Some "A") None (Some right)]
    "B" "   " = ["(empty)"].
Proof. by vm_compute. Qed.

(** ** The category tree *)

Section category_facts.

Implicit Types (c : Category) (cats : list Category) (id : string)
  (path : list nat).

Lemma Category_induction (P : Category → Prop) :
  (∀ cid name maps, P (mkCategory cid name maps None)) →
  (∀ cid name maps cs, Forall P cs → P (mkCategory cid name maps (Some cs))) →
  ∀ c, P c.
Proof.
  intros Hnone Hsome. fix IH 1. intros [cid name maps [cs|]]; [|apply Hnone].
  apply Hsome. induction cs as [|c cs IHcs]; constructor; [apply IH|apply IHcs].
Qed.

(** *** One step of each walk *)

Lemma find_in_category_unfold id c :
  find_in_category id c =
    if decide (cat_id c = id) then Some c
    else findCategoryById (children_or_nil c) id.
Proof. destruct c as [cid name maps [cs|]]; simpl; by destruct (decide _). Qed.

Lemma update_category_unfold id u c :
  update_category id u c =
    if decide (cat_id c = id) then u (set_children (Some (children_or_nil c)) c)
    else set_children (Some (updateCategory (children_or_nil c) id u)) c.
Proof. destruct c as [cid name maps [cs|]]; simpl; by destruct (decide _). Qed.

Lemma upsert_in_category_unfold catId doc c :
  upsert_in_category catId doc c =
    if decide (cat_id c = catId) then set_maps (upsert_map (cat_maps c) doc) c
    else set_children
           ((λ cs, upsertMapInCategories cs catId doc) <$> cat_children c) c.
Proof.
  destruct c as [cid name maps [[|c0 cs]|]]; simpl; by destruct (decide _).
Qed.

(** *** Paths *)

Lemma cat_at_cons i path cats :
  path ≠ [] →
  cat_at (i :: path) cats = c ← cats !! i; cat_at path (children_or_nil c).
Proof. by destruct path. Qed.

Lemma outermost_cons id i path cats c :
  path ≠ [] → cats !! i = Some c →
  outermost id (i :: path) cats =
    negb (bool_decide (cat_id c = id)) && outermost id path (children_or_nil c).
Proof. intros Hp Hc. unfold outermost. destruct path; [done|]. simpl. by rewrite Hc. Qed.

Lemma children_or_nil_set cs c : children_or_nil (set_children (Some cs) c) = cs.
Proof. done. Qed.

(** A category with no ancestor of the given id is handed to the
    callback of the walk. *)
Lemma cat_at_update id u path : ∀ cats c,
  cat_at path cats = Some c → outermost id path cats = true →
  cat_at path (updateCategory cats id u) = Some (update_category id u c).
Proof.
  induction path as [|i path IH]; intros cats c Hat Hout; [done|].
  destruct (decide (path = [])) as [->|Hp].
  - simpl in *. unfold updateCategory. by rewrite list_lookup_fmap, Hat.
  - rewrite cat_at_cons in Hat |- * by done.
    destruct (cats !! i) as [c0|] eqn:Ei; [|done]. simpl in Hat.
    rewrite (outermost_cons _ _ _ _ _ Hp Ei) in Hout.
    apply andb_prop in Hout as [Hc0 Hout].
    apply negb_true_iff, bool_decide_eq_false in Hc0.
    unfold updateCategory at 1. rewrite list_lookup_fmap, Ei. simpl.
    rewrite update_category_unfold, decide_False by done.
    rewrite children_or_nil_set. by apply IH.
Qed.

Lemma children_or_nil_upsert catId doc c :
  cat_id c ≠ catId →
  children_or_nil (upsert_in_category catId doc c) =
    upsertMapInCategories (children_or_nil c) catId doc.
Proof.
  intros Hc. rewrite upsert_in_category_unfold, decide_False by done.
  by destruct c as [? ? ? [cs|]].
Qed.

Lemma cat_at_upsert catId doc path : ∀ cats c,
  cat_at path cats = Some c → outermost catId path cats = true →
  cat_at path (upsertMapInCategories cats catId doc) =
    Some (upsert_in_category catId doc c).
Proof.
  induction path as [|i path IH]; intros cats c Hat Hout; [done|].
  destruct (decide (path = [])) as [->|Hp].
  - simpl in *. unfold upsertMapInCategories. by rewrite list_lookup_fmap, Hat.
  - rewrite cat_at_cons in Hat |- * by done.
    destruct (cats !! i) as [c0|] eqn:Ei; [|done]. simpl in Hat.
    rewrite (outermost_cons _ _ _ _ _ Hp Ei) in Hout.
    apply andb_prop in Hout as [Hc0 Hout].
    apply negb_true_iff, bool_decide_eq_false in Hc0.
    unfold upsertMapInCategories at 1. rewrite list_lookup_fmap, Ei. simpl.
    rewrite children_or_nil_upsert by done. by apply IH.
Qed.

(** Anywhere in the tree, a category comes back either as it was or
    through the callback of the walk. *)
Lemma cat_at_upsert_any catId doc path : ∀ cats c,
  cat_at path cats = Some c →
  ∃ c', cat_at path (upsertMapInCategories cats catId doc) = Some c' ∧
        (c' = c ∨ c' = upsert_in_category catId doc c).
Proof.
  induction path as [|i path IH]; intros cats c Hat; [done|].
  destruct (decide (path = [])) as [->|Hp].
  - simpl in *. unfold upsertMapInCategories. rewrite list_lookup_fmap, Hat.
    eexists. split; [done|]. by right.
  - rewrite cat_at_cons in Hat |- * by done.
    destruct (cats !! i) as [c0|] eqn:Ei; [|done]. simpl in Hat.
    unfold upsertMapInCategories at 1. rewrite list_lookup_fmap, Ei. simpl.
    destruct (decide (cat_id c0 = catId)) as [Hc0|Hc0].
    + rewrite upsert_in_category_unfold, decide_True by done.
      exists c. split; [|by left]. by destruct c0.
    + rewrite children_or_nil_upsert by done. by apply IH.
Qed.

Lemma upsert_in_category_other catId doc c :
  cat_id c ≠ catId →
  cat_id (upsert_in_category catId doc c) = cat_id c ∧
  cat_name (upsert_in_category catId doc c) = cat_name c ∧
  cat_maps (upsert_in_category catId doc c) = cat_maps c.
Proof. intros Hc. by rewrite upsert_in_category_unfold, decide_False. Qed.

(** *** The search *)

Lemma first_some_none {A B} (f : A → option B) (l : list A) :
  first_some f l = None ↔ ∀ a, a ∈ l → f a = None.
Proof.
  induction l as [|a l IH]; simpl.
  - split; [|done]. intros _ a Ha. by apply elem_of_nil in Ha.
  - destruct (f a) eqn:E.
    + split; [done|]. intros H. rewrite <-E. apply H. by left.
    + rewrite IH. split.
      * intros H a' [->|Ha']%elem_of_cons; auto.
      * intros H a' Ha'. apply H. by right.
Qed.

Lemma first_some_some {A B} (f : A → option B) (l : list A) b :
  first_some f l = Some b →
  ∃ i a, l !! i = Some a ∧ f a = Some b ∧ ∀ j a', j < i → l !! j = Some a' → f a' = None.
Proof.
  induction l as [|a l IH]; simpl; [done|].
  destruct (f a) eqn:E.
  - intros [= ->]. exists 0, a. split_and!; [done..|]. intros; lia.
  - intros (i & a' & Hi & Ha' & Hbefore)%IH. exists (S i), a'.
    split_and!; [done..|]. intros [|j] a'' Hj Hl; simpl in Hl; [by simplify_eq|].
    apply (Hbefore j); [lia|done].
Qed.

Lemma findCategoryById_none cats id :
  findCategoryById cats id = None ↔
  ∀ path c, cat_at path cats = Some c → cat_id c ≠ id.
Proof.
  split.
  - intros Hnone path. revert cats Hnone.
    induction path as [|i path IH]; intros cats Hnone c Hat; [done|].
    unfold findCategoryById in Hnone. rewrite first_some_none in Hnone.
    destruct (decide (path = [])) as [->|Hp].
    + simpl in Hat. apply list_elem_of_lookup_2, Hnone in Hat.
      rewrite find_in_category_unfold in Hat. by destruct (decide _).
    + rewrite cat_at_cons in Hat by done.
      destruct (cats !! i) as [c0|] eqn:Ei; [|done]. simpl in Hat.
      apply list_elem_of_lookup_2, Hnone in Ei.
      rewrite find_in_category_unfold in Ei.
      destruct (decide _); [done|]. by eapply IH.
  - intros Habsent.
    assert (∀ cs, (∀ path c', cat_at path cs = Some c' → cat_id c' ≠ id) →
              ∀ i c, cs !! i = Some c →
                cat_id c ≠ id ∧
                ∀ path c', cat_at path (children_or_nil c) = Some c' → cat_id c' ≠ id)
      as Hdown.
    { intros cs Habs i c Hi. split; [exact (Habs [i] _ Hi)|].
      intros path c' Hat. apply (Habs (i :: path)).
      rewrite cat_at_cons by (by destruct path). by rewrite Hi. }
    assert (∀ c, cat_id c ≠ id →
              (∀ path c', cat_at path (children_or_nil c) = Some c' → cat_id c' ≠ id) →
              find_in_category id c = None) as Hcat.
    { induction c as [cid name maps|cid name maps cs IHcs] using Category_induction;
        intros Hc Hbelow; rewrite find_in_category_unfold, decide_False by done;
        [done|].
      apply first_some_none. intros c Hc'.
      apply list_elem_of_lookup in Hc' as [i Hi].
      rewrite Forall_forall in IHcs.
      destruct (Hdown _ Hbelow _ _ Hi) as [? ?].
      apply IHcs; [by eapply list_elem_of_lookup_2|done..]. }
    apply first_some_none. intros c Hc.
    apply list_elem_of_lookup in Hc as [i Hi].
    destruct (Hdown _ Habsent _ _ Hi) as [? ?]. by apply Hcat.
Qed.

Lemma outermost_single id i cats : outermost id [i] cats = true.
Proof. done. Qed.

(** The search finds a category of the tree that carries the id and
    has no ancestor carrying it. *)
Lemma findCategoryById_some cats id c :
  findCategoryById cats id = Some c →
  cat_id c = id ∧
  ∃ path, cat_at path cats = Some c ∧ outermost id path cats = true.
Proof.
  assert (∀ c0, (∀ c, find_in_category id c0 = Some c →
            cat_id c = id ∧
            (c = c0 ∨ cat_id c0 ≠ id ∧
               ∃ path, cat_at path (children_or_nil c0) = Some c ∧
                       outermost id path (children_or_nil c0) = true))) as Hcat.
  { induction c0 as [cid name maps|cid name maps cs IHcs] using Category_induction;
      intros c'; rewrite find_in_category_unfold;
      (destruct (decide _) as [Heq|Hne]; [intros [= <-]; by auto|]);
      [done|].
    change (children_or_nil _) with cs. intros Hfind.
    apply first_some_some in Hfind as (i & c1 & Hi & Hc1 & _).
    rewrite Forall_forall in IHcs.
    destruct (IHcs c1 (list_elem_of_lookup_2 _ _ _ Hi) _ Hc1)
      as [Hid [->|(Hne1 & path & Hat & Hout)]].
    - split; [done|]. right. split; [done|]. exists [i]. done.
    - split; [done|]. right. split; [done|]. exists (i :: path).
      assert (path ≠ []) as Hp by (by destruct path).
      rewrite cat_at_cons by done. rewrite Hi. simpl.
      rewrite (outermost_cons _ _ _ _ _ Hp Hi), Hout.
      by rewrite bool_decide_eq_false_2. }
  intros Hfind. apply first_some_some in Hfind as (i & c1 & Hi & Hc1 & _).
  destruct (Hcat _ _ Hc1) as [Hid [->|(Hne1 & path & Hat & Hout)]].
  - split; [done|]. exists [i]. done.
  - split; [done|]. exists (i :: path).
    assert (path ≠ []) as Hp by (by destruct path).
    rewrite cat_at_cons by done. rewrite Hi. simpl.
    rewrite (outermost_cons _ _ _ _ _ Hp Hi), Hout.
    by rewrite bool_decide_eq_false_2.
Qed.

(** *** A walk that meets no category with the id *)

Lemma update_category_absent id u c :
  find_in_category id c = None → update_category id u c = with_children c.
Proof.
  induction c as [cid name maps|cid name maps cs IHcs] using Category_induction;
    rewrite find_in_category_unfold, update_category_unfold;
    (destruct (decide _); [done|]); [done|].
  change (children_or_nil _) with cs. intros Hnone.
  unfold findCategoryById in Hnone. rewrite first_some_none in Hnone.
  unfold set_children. simpl. do 2 f_equal.
  apply Forall_fmap_ext. rewrite Forall_forall in IHcs |- *.
  intros c Hc. apply IHcs; [done|]. by apply Hnone.
Qed.

Lemma updateCategory_absent id u cats :
  findCategoryById cats id = None →
  updateCategory cats id u = with_children <$> cats.
Proof.
  intros Hnone. unfold findCategoryById in Hnone. rewrite first_some_none in Hnone.
  apply Forall_fmap_ext, Forall_forall. intros c Hc.
  by apply update_category_absent, Hnone.
Qed.

Lemma upsert_in_category_absent catId doc c :
  find_in_category catId c = None → upsert_in_category catId doc c = c.
Proof.
  induction c as [cid name maps|cid name maps cs IHcs] using Category_induction;
    rewrite find_in_category_unfold, upsert_in_category_unfold;
    (destruct (decide _); [done|]); [done|].
  change (children_or_nil _) with cs. intros Hnone.
  unfold findCategoryById in Hnone. rewrite first_some_none in Hnone.
  unfold set_children. simpl. do 2 f_equal.
  rewrite <-(list_fmap_id cs) at 2.
  apply Forall_fmap_ext. rewrite Forall_forall in IHcs |- *.
  intros c Hc. apply IHcs; [done|]. by apply Hnone.
Qed.

Lemma upsertMapInCategories_absent catId doc cats :
  findCategoryById cats catId = None →
  upsertMapInCategories cats catId doc = cats.
Proof.
  intros Hnone. unfold findCategoryById in Hnone. rewrite first_some_none in Hnone.
  unfold upsertMapInCategories. rewrite <-(list_fmap_id cats) at 2.
  apply Forall_fmap_ext, Forall_forall. intros c Hc.
  by apply upsert_in_category_absent, Hnone.
Qed.

Lemma with_children_present c : children_present c = true → with_children c = c.
Proof.
  induction c as [cid name maps|cid name maps cs IHcs] using Category_induction;
    simpl; [done|].
  intros Hall. do 2 f_equal. rewrite <-(list_fmap_id cs) at 2.
  apply Forall_fmap_ext. rewrite Forall_forall in IHcs |- *.
  intros c Hc. apply IHcs; [done|].
  rewrite forallb_forall in Hall. by apply Hall, list_elem_of_In.
Qed.

(** *** The map list of a category after an upsert *)

Lemma upsert_map_replace (maps : list MindMapDoc) doc i m :
  maps !! i = Some m → doc_name m = doc_name doc →
  (∀ j m', j < i → maps !! j = Some m' → doc_name m' ≠ doc_name doc) →
  upsert_map maps doc = <[i := doc]> maps.
Proof.
  intros Hi Hm Hfirst. unfold upsert_map.
  destruct (list_find _ maps) as [[k m']|] eqn:E.
  - apply list_find_Some in E as (Hk & Hm' & Hbefore).
    destruct (Nat.lt_trichotomy i k) as [Hlt|[->|Hgt]]; [|done|].
    + by destruct (Hbefore _ _ Hi Hlt).
    + by destruct (Hfirst _ _ Hgt Hk).
  - apply list_find_None in E. rewrite Forall_forall in E.
    destruct (E m); [by eapply list_elem_of_lookup_2|done].
Qed.

Lemma upsert_map_insert (maps : list MindMapDoc) doc :
  (∀ m, m ∈ maps → doc_name m ≠ doc_name doc) →
  upsert_map maps doc = doc :: maps.
Proof.
  intros Hnone. unfold upsert_map.
  destruct (list_find _ maps) as [[k m']|] eqn:E; [|done].
  apply list_find_Some in E as (Hk & Hm' & _).
  by destruct (Hnone m' (list_elem_of_lookup_2 _ _ _ Hk)).
Qed.

(** Below a category that carries the id nothing is changed. *)
Lemma cat_at_upsert_inner catId doc path : ∀ cats c,
  cat_at path cats = Some c → outermost catId path cats = false →
  cat_at path (upsertMapInCategories cats catId doc) = Some c.
Proof.
  induction path as [|i path IH]; intros cats c Hat Hout; [done|].
  destruct (decide (path = [])) as [->|Hp]; [done|].
  rewrite cat_at_cons in Hat |- * by done.
  destruct (cats !! i) as [c0|] eqn:Ei; [|done]. simpl in Hat.
  rewrite (outermost_cons _ _ _ _ _ Hp Ei) in Hout.
  unfold upsertMapInCategories at 1. rewrite list_lookup_fmap, Ei. simpl.
  destruct (decide (cat_id c0 = catId)) as [Hc0|Hc0].
  - rewrite upsert_in_category_unfold, decide_True by done. by destruct c0.
  - rewrite bool_decide_eq_false_2 in Hout by done. simpl in Hout.
    rewrite children_or_nil_upsert by done. by apply IH.
Qed.

Lemma cat_at_update_inner id u path : ∀ cats c,
  (∀ x, children_or_nil (u x) = children_or_nil x) →
  cat_at path cats = Some c → outermost id path cats = false →
  cat_at path (updateCategory cats id u) = Some c.
Proof.
  induction path as [|i path IH]; intros cats c Hu Hat Hout; [done|].
  destruct (decide (path = [])) as [->|Hp]; [done|].
  rewrite cat_at_cons in Hat |- * by done.
  destruct (cats !! i) as [c0|] eqn:Ei; [|done]. simpl in Hat.
  rewrite (outermost_cons _ _ _ _ _ Hp Ei) in Hout.
  unfold updateCategory at 1. rewrite list_lookup_fmap, Ei. simpl.
  rewrite update_category_unfold.
  destruct (decide (cat_id c0 = id)) as [Hc0|Hc0].
  - by rewrite Hu, children_or_nil_set.
  - rewrite bool_decide_eq_false_2 in Hout by done. simpl in Hout.
    rewrite children_or_nil_set. by apply IH.
Qed.

End category_facts.

(** ** The claims on the category tree *)

(** C3 (as stated, refuted).  Two categories side by side carry the
    id: the doc is stored in both, so whichever of them is taken for
    the target, the map list of another category has changed. *)
Lemma upsertMapInCategories_same_id_siblings :
  let first := mkCategory "a" "A1" [] (Some []) in
  let second := mkCategory "a" "A2" [mkDoc "m1" "Old" [] (Fin 0)] (Some []) in
  let doc := mkDoc "m2" "New" [] (Fin 1) in
  findCategoryById [first; second] "a" = Some first ∧
  cat_maps <$> upsertMapInCategories [first; second] "a" doc
    = [[doc]; [doc; mkDoc "m1" "Old" [] (Fin 0)]] ∧
  cat_maps <$> upsertMapInCategories [first; second] "a" doc
    ≠ [[doc]; cat_maps second] ∧
  cat_maps <$> upsertMapInCategories [first; second] "a" doc
    ≠ [cat_maps first; [doc; mkDoc "m1" "Old" [] (Fin 0)]].
Proof. by vm_compute. Qed.

(** C3 (amended).  [upsertMapInCategories] keeps the place, the id and
    the name of every category.  A category that carries the id and
    has no ancestor carrying it comes back with its map list changed
    and everything else kept: if some map bears the name of [doc], the
    first such map is replaced by [doc] at its index, the length and
    all other positions unchanged; otherwise [doc] is put in front.
    Only names are compared.  A category below one that carries the id
    comes back as it is, and every category with another id keeps its
    map list. *)
Theorem upsertMapInCategories_spec (cats : list Category) (catId : string)
    (doc : MindMapDoc) (path : list nat) (c : Category) :
  cat_at path cats = Some c →
  let maps' := upsert_map (cat_maps c) doc in
  (∃ c',
     cat_at path (upsertMapInCategories cats catId doc) = Some c' ∧
     cat_id c' = cat_id c ∧ cat_name c' = cat_name c ∧
     (cat_id c = catId → outermost catId path cats = true →
        c' = mkCategory (cat_id c) (cat_name c) maps' (cat_children c)) ∧
     (outermost catId path cats = false → c' = c) ∧
     (cat_id c ≠ catId → cat_maps c' = cat_maps c)) ∧
  (∀ m, m ∈ cat_maps c → doc_name m = doc_name doc →
     ∃ i m0, cat_maps c !! i = Some m0 ∧ doc_name m0 = doc_name doc ∧
       (∀ j m', j < i → cat_maps c !! j = Some m' → doc_name m' ≠ doc_name doc) ∧
       length maps' = length (cat_maps c) ∧
       maps' !! i = Some doc ∧
       ∀ j, j ≠ i → maps' !! j = cat_maps c !! j) ∧
  ((∀ m, m ∈ cat_maps c → doc_name m ≠ doc_name doc) → maps' = doc :: cat_maps c).
Proof.
  intros Hat maps'. split_and!.
  - destruct (outermost catId path cats) eqn:Hout.
    + rewrite (cat_at_upsert _ _ _ _ _ Hat Hout). eexists. split; [done|].
      destruct (decide (cat_id c = catId)) as [Hid|Hid].
      * rewrite upsert_in_category_unfold, decide_True by done.
        split_and!; try done.
      * destruct (upsert_in_category_other catId doc c Hid) as (? & ? & ?).
        split_and!; try done.
    + rewrite (cat_at_upsert_inner _ _ _ _ _ Hat Hout). exists c.
      split_and!; try done.
  - intros m Hm Hname. unfold maps', upsert_map.
    destruct (list_find _ (cat_maps c)) as [[i m0]|] eqn:E.
    + apply list_find_Some in E as (Hi & Hm0 & Hbefore).
      exists i, m0. split_and!; [done|done| |by rewrite length_insert| |].
      * intros j m' Hj Hm'. by apply (Hbefore j).
      * apply list_lookup_insert_eq. by eapply lookup_lt_Some.
      * intros j Hj. by apply list_lookup_insert_ne.
    + apply list_find_None in E. rewrite Forall_forall in E. by destruct (E m).
  - apply upsert_map_insert.
Qed.

Lemma upsertMapInCategories_spec_witness :
  let doc := mkDoc "m9" "MapA" [] (Fin 3) in
  let c := mkCategory "cat2" "C2" [mkDoc "m1" "MapA" [] (Fin 1)] (Some []) in
  cat_at [1] fakeCats = Some c ∧
  ∃ c', cat_at [1] (upsertMapInCategories fakeCats "cat2" doc) = Some c' ∧
        c' = mkCategory "cat2" "C2" (upsert_map (cat_maps c) doc) (Some []).
Proof.
  intros doc c. split; [reflexivity|].
  destruct (proj1 (upsertMapInCategories_spec fakeCats "cat2" doc [1] c eq_refl))
    as (c' & Hat & _ & _ & Hc' & _).
  exists c'. split; [exact Hat|]. apply Hc'; reflexivity.
Defined.

Example upsert_replaces_by_name :
  cat_maps <$> upsertMapInCategories fakeCats "cat2" (mkDoc "m9" "MapA" [] (Fin 3))
    = [[]; [mkDoc "m9" "MapA" [] (Fin 3)]].
Proof. reflexivity. Qed.

Example upsert_nested :
  upsertMapInCategories rootCats "c1" (mkDoc "d1" "MapX" [] (Fin 1))
    = [ mkCategory "r1" "Root" []
          (Some [mkCategory "c1" "Child" [mkDoc "d1" "MapX" [] (Fin 1)] (Some [])]) ].
Proof. reflexivity. Qed.

(** C5 (as stated, refuted).  The inner category carries the id and
    holds the map, but lies below another category that carries the
    id: the walk stops at the outer one and the map keeps its name. *)
Lemma renameMapInTree_skips_nested_match :
  let inner := mkCategory "a" "inner" [mkDoc "m1" "Old" [] (Fin 0)] (Some []) in
  let cats := [mkCategory "a" "outer" [] (Some [inner])] in
  cat_at [0; 0] cats = Some inner ∧
  cat_id inner = "a" ∧
  doc_id <$> cat_maps inner = ["m1"] ∧
  cat_at [0; 0] (renameMapInTree (Fin 5) cats "a" "m1" "New") = Some inner ∧
  doc_name <$> cat_maps inner = ["Old"].
Proof. by vm_compute. Qed.

(** C5 (amended).  For every category that carries the id and has no
    ancestor carrying it, [renameMapInTree] trims the requested name,
    takes ["(unnamed map)"] when nothing is left, and gives every map of
    the category with the given map id the name that the uniqueness
    policy produces for that base against the category's maps without
    the renamed one: the root of the base when no sibling bears it, else
    the root with the least free suffix from 2 on.  Such a map comes
    back with that name and the current time, its id and nodes kept;
    the new name is borne by no sibling, and the other maps, the id and
    the name of the category are kept.  A category below one that
    carries the id comes back as it is. *)
Theorem renameMapInTree_spec (now : number) (cats : list Category)
    (catId mapId newName : string) (path : list nat) (c : Category) :
  cat_at path cats = Some c →
  (outermost catId path cats = false →
     cat_at path (renameMapInTree now cats catId mapId newName) = Some c) ∧
  (outermost catId path cats = true → cat_id c = catId →
   ∃ t, trimmed_of newName t ∧
     let base := if decide (t = "") then "(unnamed map)" else t in
     let siblings := filter (λ m, doc_id m ≠ mapId) (cat_maps c) in
     let name := uniqueMapName siblings base in
     unique_name_of siblings base name ∧
     name_used siblings name = false ∧
     ∃ c',
       cat_at path (renameMapInTree now cats catId mapId newName) = Some c' ∧
       cat_id c' = cat_id c ∧ cat_name c' = cat_name c ∧
       cat_children c' = Some (children_or_nil c) ∧
       length (cat_maps c') = length (cat_maps c) ∧
       ∀ i m, cat_maps c !! i = Some m →
         ∃ m', cat_maps c' !! i = Some m' ∧
           if decide (doc_id m = mapId)
           then doc_id m' = doc_id m ∧ doc_name m' = name ∧
                doc_nodes m' = doc_nodes m ∧ doc_updatedAt m' = now
           else m' = m).
Proof.
  intros Hat. split.
  { intros Hout. unfold renameMapInTree. by apply cat_at_update_inner. }
  intros Hout Hid.
  exists (Js.trim newName). split; [apply trim_spec|]. cbv zeta.
  set (base := if decide (Js.trim newName = "") then "(unnamed map)" else Js.trim newName).
  assert (or_default (Js.trim newName) "(unnamed map)" = base) as Hbase by done.
  assert (Js.trim (or_default base "Untitled") = base) as Htrim.
  { unfold base, or_default. destruct (decide (Js.trim newName = "")) as [?|Hne]; [done|].
    rewrite decide_False by done. eapply trim_trimmed, trim_spec. }
  split_and!.
  - rewrite <-Htrim at 1. apply uniqueMapName_unique.
  - apply uniqueMapName_fresh.
  - eexists. split.
    { unfold renameMapInTree. rewrite (cat_at_update _ _ _ _ _ Hat Hout).
      by rewrite update_category_unfold, decide_True. }
    unfold rename_map_in. rewrite Hbase. simpl.
    split_and!; [done|done|done|by rewrite length_fmap|].
    intros i m Hi. rewrite list_lookup_fmap, Hi. simpl. eexists. split; [done|].
    by destruct (decide (doc_id m = mapId)).
Qed.

Lemma renameMapInTree_spec_witness :
  let c := mkCategory "cx" "C"
             [mkDoc "m1" "Map" [] (Fin 0); mkDoc "m2" "Map (2)" [] (Fin 0)] (Some []) in
  cat_at [0] catsForRename = Some c ∧
  ∃ c' m',
    cat_at [0] (renameMapInTree (Fin 5) catsForRename "cx" "m2" " Map ") = Some c' ∧
    cat_maps c' !! 1 = Some m' ∧
    doc_id m' = "m2" ∧ doc_updatedAt m' = Fin 5 ∧
    name_used (filter (λ m, doc_id m ≠ "m2") (cat_maps c)) (doc_name m') = false.
Proof.
  intros c. split; [reflexivity|].
  destruct (proj2 (renameMapInTree_spec (Fin 5) catsForRename "cx" "m2" " Map " [0] c
                     eq_refl) eq_refl eq_refl)
    as (t & _ & _ & Hfree & c' & Hat & _ & _ & _ & _ & Hmaps).
  destruct (Hmaps 1 (mkDoc "m2" "Map (2)" [] (Fin 0)) eq_refl) as (m' & Hm' & Hrest).
  rewrite decide_True in Hrest by reflexivity.
  destruct Hrest as (Hid & Hname & _ & Hnow).
  exists c', m'. split; [exact Hat|]. split; [exact Hm'|].
  split; [exact Hid|]. split; [exact Hnow|]. rewrite Hname. exact Hfree.
Defined.

(** The renamed map is not counted among the maps that bear a name:
    ["Map (2)"] is free once the map of that name is the one renamed. *)
Example renameMapInTree_collision :
  (fmap doc_name ∘ cat_maps) <$>
    renameMapInTree (Fin 5) catsForRename "cx" "m2" " Map "
    = [["Map"; "Map (2)"]].
Proof. by vm_compute. Qed.

Example renameMapInTree_blank :
  (fmap doc_name ∘ cat_maps) <$>
    renameMapInTree (Fin 5) [mkCategory "c" "C" [mkDoc "m" "X" [] (Fin 0)] (Some [])]
      "c" "m" " "
    = [["(unnamed map)"]].
Proof. by vm_compute. Qed.

(** C8 (as stated, refuted).  The inner category carries the target id
    and is not passed through the updater: it comes back under its old
    name. *)
Lemma updateCategory_skips_nested_match :
  let inner := mkCategory "a" "inner" [] (Some []) in
  cat_at [0; 0] nestedCats = Some inner ∧
  cat_id inner = "a" ∧
  cat_at [0; 0] (updateCategory nestedCats "a" (set_name "Z")) = Some inner ∧
  inner ≠ set_name "Z" (set_children (Some (children_or_nil inner)) inner).
Proof. by split_and!. Qed.

(** C8 (amended).  [updateCategory] keeps the number of categories, and
    for every category of the input that has no ancestor with the
    target id: if its id is the target id, the result holds at the same
    place the updater's value for that category, handed over with its
    children list as it is (absent read as empty); otherwise the result
    holds at the same place a category with the same id, name and maps,
    whose children are the images of the input's children, in the same
    number and order. *)
Theorem updateCategory_frame (cats : list Category) (id : string)
    (u : Category → Category) (path : list nat) (c : Category) :
  cat_at path cats = Some c → outermost id path cats = true →
  length (updateCategory cats id u) = length cats ∧
  ∃ c', cat_at path (updateCategory cats id u) = Some c' ∧
    if decide (cat_id c = id)
    then c' = u (set_children (Some (children_or_nil c)) c)
    else cat_id c' = cat_id c ∧ cat_name c' = cat_name c ∧
         cat_maps c' = cat_maps c ∧
         cat_children c' = Some (updateCategory (children_or_nil c) id u) ∧
         length (children_or_nil c') = length (children_or_nil c).
Proof.
  intros Hat Hout. split; [unfold updateCategory; by rewrite length_fmap|].
  eexists. split; [by apply cat_at_update|].
  rewrite update_category_unfold. destruct (decide (cat_id c = id)); [done|].
  split_and!; try done.
  rewrite children_or_nil_set. unfold updateCategory. by rewrite length_fmap.
Qed.

Lemma updateCategory_frame_witness :
  cat_at [0; 0] rootCats = Some (mkCategory "c1" "Child" [] (Some [])) ∧
  outermost "c1" [0; 0] rootCats = true ∧
  ∃ c', cat_at [0; 0] (updateCategory rootCats "c1" (set_name "Renamed")) = Some c' ∧
        c' = mkCategory "c1" "Renamed" [] (Some []).
Proof.
  split; [reflexivity|]. split; [reflexivity|].
  destruct (updateCategory_frame rootCats "c1" (set_name "Renamed") [0; 0]
              (mkCategory "c1" "Child" [] (Some [])) eq_refl eq_refl)
    as (_ & c' & Hat & Hc').
  exists c'. split; [exact Hat|exact Hc'].
Defined.

(** C9 (as stated, refuted).  For an id that no category carries,
    [updateCategory] gives a category without a [children] field an
    empty one: the result differs from the input. *)
Lemma updateCategory_missing_id_fills_children :
  findCategoryById [mkCategory "a" "A" [] None] "zz" = None ∧
  updateCategory [mkCategory "a" "A" [] None] "zz" (set_name "Z")
    = [mkCategory "a" "A" [] (Some [])] ∧
  updateCategory [mkCategory "a" "A" [] None] "zz" (set_name "Z")
    ≠ [mkCategory "a" "A" [] None].
Proof. by split_and!. Qed.

(** C9 (amended).  [findCategoryById] returns no category exactly when
    no category of the tree carries the id.  For such an id
    [updateCategory], [deleteMapFromTree], [renameMapInTree] and
    [addSubCategory] return the input with every absent [children] field
    replaced by the empty list, which is the input itself when every
    category carries a [children] list, and [upsertMapInCategories]
    returns the input itself. *)
Theorem missing_id_noop (cats : list Category) (id : string) :
  (findCategoryById cats id = None ↔
     ∀ path c, cat_at path cats = Some c → cat_id c ≠ id) ∧
  (findCategoryById cats id = None →
     (∀ u, updateCategory cats id u = with_children <$> cats) ∧
     (∀ mapId, deleteMapFromTree cats id mapId = with_children <$> cats) ∧
     (∀ now mapId newName,
        renameMapInTree now cats id mapId newName = with_children <$> cats) ∧
     (∀ fresh name, addSubCategory fresh cats id name = with_children <$> cats) ∧
     (∀ doc, upsertMapInCategories cats id doc = cats) ∧
     (forallb children_present cats = true → with_children <$> cats = cats)).
Proof.
  split; [apply findCategoryById_none|]. intros Hnone.
  split_and!; try (intros; by apply updateCategory_absent).
  - intros doc. by apply upsertMapInCategories_absent.
  - intros Hall. rewrite <-(list_fmap_id cats) at 2.
    apply Forall_fmap_ext, Forall_forall.
    intros c Hc. apply with_children_present.
    rewrite forallb_forall in Hall. by apply Hall, list_elem_of_In.
Qed.

Lemma missing_id_noop_witness :
  findCategoryById rootCats "zz" = None ∧
  updateCategory rootCats "zz" (set_name "Z") = rootCats ∧
  upsertMapInCategories rootCats "zz" (mkDoc "d1" "MapX" [] (Fin 1)) = rootCats.
Proof.
  split; [reflexivity|].
  destruct (missing_id_noop rootCats "zz") as (_ & Hnoop).
  destruct (Hnoop eq_refl) as (Hupd & _ & _ & _ & Hups & Hsame).
  split; [|apply Hups].
  rewrite Hupd. apply Hsame. reflexivity.
Defined.

(** ** The children/roots index *)

Section index_facts.

Implicit Types (nodes : list NodeT) (r : ref) (n : NodeT)
  (key : option string).

Lemma objects_lookup nodes r : objects nodes !! r = (λ n, (r, n)) <$> nodes !! r.
Proof. apply list_lookup_imap. Qed.

Lemma elem_of_objects nodes r n : (r, n) ∈ objects nodes ↔ nodes !! r = Some n.
Proof.
  unfold objects. rewrite elem_of_lookup_imap. split.
  - intros (i & y & [= -> ->] & Hy). done.
  - intros Hn. by exists r, n.
Qed.

Lemma objects_fst nodes : (objects nodes).*1 = seq 0 (length nodes).
Proof.
  unfold objects. rewrite fmap_imap.
  rewrite <-(list_fmap_id (seq 0 (length nodes))).
  rewrite <-(imap_seq_0 nodes id). by apply imap_ext.
Qed.

Lemma objects_NoDup nodes : NoDup (objects nodes).*1.
Proof. rewrite objects_fst. apply NoDup_seq. Qed.

Lemma elem_of_keyed nodes key r :
  r ∈ keyed nodes key ↔ ∃ n, nodes !! r = Some n ∧ parent_key n = key.
Proof.
  unfold keyed. rewrite list_elem_of_fmap. split.
  - intros ([r' n] & -> & [Hk Hin%elem_of_objects]%list_elem_of_filter). eauto.
  - intros (n & Hn & Hk). exists (r, n). split; [done|].
    apply list_elem_of_filter. split; [done|]. by apply elem_of_objects.
Qed.

(** *** The first loop *)

Lemma push_child_lookup (m : gmap (option string) (list ref)) (o : ref * NodeT) key :
  default [] (push_child m o !! key) =
    default [] (m !! key) ++ (if decide (parent_key o.2 = key) then [o.1] else []).
Proof.
  unfold push_child. destruct (decide (parent_key o.2 = key)) as [->|Hne].
  - by rewrite lookup_insert_eq.
  - rewrite lookup_insert_ne by done. by rewrite app_nil_r.
Qed.

Lemma foldl_push_child (os : list (ref * NodeT)) :
  ∀ (m : gmap (option string) (list ref)) key,
    default [] (foldl push_child m os !! key) =
      default [] (m !! key) ++ (filter (λ o, parent_key o.2 = key) os).*1.
Proof.
  induction os as [|o os IH]; intros m key; simpl; [by rewrite app_nil_r|].
  rewrite IH, push_child_lookup, filter_cons.
  destruct (decide (parent_key o.2 = key)); simpl; by rewrite <-app_assoc.
Qed.

(** [byParent.get(key) || []] lists the objects with that parent key
    in array order. *)
Lemma byParent_lookup nodes key :
  default [] (byParent (buildChildrenMap nodes) !! key) = keyed nodes key.
Proof. unfold buildChildrenMap. simpl. by rewrite foldl_push_child, lookup_empty. Qed.

(** A string key is never empty. *)
Lemma keyed_empty_string nodes : keyed nodes (Some "") = [].
Proof.
  destruct (keyed nodes (Some "")) as [|r l] eqn:E; [done|].
  assert (r ∈ keyed nodes (Some "")) as Hr by (rewrite E; by left).
  apply elem_of_keyed in Hr as (n & _ & Hk). unfold parent_key, falsy in Hk.
  destruct (node_parentId n) as [p|]; [|done].
  destruct (bool_decide_reflect (p = "")); by simplify_eq.
Qed.

(** *** The second loop *)

Lemma parent_key_None n : parent_key n = None ↔ falsy (node_parentId n) = true.
Proof.
  unfold parent_key. destruct (falsy (node_parentId n)) eqn:E; [done|].
  split; [|done]. by destruct (node_parentId n).
Qed.

Lemma foldl_push_root (ids : gset string) (os : list (ref * NodeT)) :
  ∀ acc : list ref,
    (∀ o, o ∈ os → falsy (node_parentId o.2) = true → o.1 ∈ acc) →
    (∀ o, o ∈ os → falsy (node_parentId o.2) = false → o.1 ∉ acc) →
    NoDup os.*1 →
    foldl (push_root ids) acc os =
      acc ++ (filter (λ o, falsy (node_parentId o.2) = false ∧
                           unresolved ids o.2 = true) os).*1.
Proof.
  induction os as [|o os IH]; intros acc Hin Hout Hnd; simpl;
    [by rewrite app_nil_r|].
  apply NoDup_cons in Hnd as [Ho Hnd]. rewrite filter_cons.
  assert (∀ acc', (∀ x, x ∈ acc' → x ∈ acc ∨ x = o.1) → acc ⊆ acc' →
            foldl (push_root ids) acc' os =
              acc' ++ (filter (λ o, falsy (node_parentId o.2) = false ∧
                                    unresolved ids o.2 = true) os).*1) as IH'.
  { intros acc' Hsub Hsup. apply IH; [| |done].
    - intros o' Ho' Hf. apply Hsup, Hin; [by right|done].
    - intros o' Ho' Hf Hacc'. apply Hsub in Hacc' as [Hacc|Heq].
      + by apply (Hout o'); [right|..].
      + apply Ho. apply list_elem_of_fmap. by exists o'. }
  unfold push_root at 2.
  destruct (unresolved ids o.2) eqn:Eu.
  - destruct (falsy (node_parentId o.2)) eqn:Ef.
    + rewrite bool_decide_eq_true_2 by (apply Hin; [by left|done]).
      rewrite decide_False by (by intros [? _]). apply IH'; [by left|done].
    + rewrite bool_decide_eq_false_2 by (apply Hout; [by left|done]).
      rewrite decide_True by done. rewrite IH'.
      * by rewrite <-app_assoc.
      * intros x [?|Hx%list_elem_of_singleton]%elem_of_app; [by left|by right].
      * intros x Hx. apply elem_of_app. by left.
  - rewrite decide_False by (intros [_ ?]; congruence). apply IH'; [by left|done].
Qed.

(** The roots: first the objects without a parent, then the objects
    whose parent link dangles, each in array order. *)
Lemma roots_eq nodes :
  roots (buildChildrenMap nodes) = keyed nodes None ++ dangling nodes.
Proof.
  unfold buildChildrenMap. simpl.
  rewrite foldl_push_child, lookup_empty. simpl. fold (keyed nodes None).
  rewrite filter_all.
  2:{ intros r (n & Hn & Hk)%elem_of_keyed. unfold no_parent_at.
      rewrite Hn. by apply parent_key_None. }
  apply foldl_push_root; [| |apply objects_NoDup].
  - intros [r n] Hin%elem_of_objects Hf. apply elem_of_keyed.
    exists n. split; [done|]. by apply parent_key_None.
  - intros [r n] Hin%elem_of_objects Hf (n' & Hn' & Hk)%elem_of_keyed.
    simplify_eq/=. apply parent_key_None in Hk. congruence.
Qed.

Lemma elem_of_dangling nodes r :
  r ∈ dangling nodes ↔
  ∃ n p, nodes !! r = Some n ∧ node_parentId n = Some p ∧ p ≠ "" ∧
         p ∉ node_id <$> nodes.
Proof.
  unfold dangling. rewrite list_elem_of_fmap. split.
  - intros ([r' n] & -> & [[Hf Hu] Hin%elem_of_objects]%list_elem_of_filter).
    simpl in *. unfold unresolved in Hu. rewrite Hf in Hu. simpl in Hu.
    destruct (node_parentId n) as [p|] eqn:Ep; [|done].
    exists n, p. split_and!; [done..| |].
    + simpl in Hf. by apply bool_decide_eq_false in Hf.
    + apply negb_true_iff, bool_decide_eq_false in Hu.
      by rewrite elem_of_list_to_set in Hu.
  - intros (n & p & Hn & Hp & Hne & Hnot). exists (r, n). split; [done|].
    apply list_elem_of_filter. split; [|by apply elem_of_objects].
    simpl. unfold unresolved. rewrite Hp. simpl.
    rewrite bool_decide_eq_false_2 by done. simpl. split; [done|].
    apply negb_true_iff, bool_decide_eq_false. by rewrite elem_of_list_to_set.
Qed.

(** A root is an object whose parent link is absent, empty or
    dangling. *)
Lemma elem_of_roots nodes r :
  r ∈ roots (buildChildrenMap nodes) ↔
  ∃ n, nodes !! r = Some n ∧
    (falsy (node_parentId n) = true ∨
     ∃ p, node_parentId n = Some p ∧ p ∉ node_id <$> nodes).
Proof.
  rewrite roots_eq, elem_of_app, elem_of_keyed, elem_of_dangling. split.
  - intros [(n & Hn & Hk%parent_key_None)|(n & p & Hn & Hp & _ & Hnot)]; eauto 10.
  - intros (n & Hn & [Hf|(p & Hp & Hnot)]).
    + left. exists n. split; [done|]. by apply parent_key_None.
    + destruct (decide (p = "")) as [->|Hne].
      * left. exists n. split; [done|]. apply parent_key_None. by rewrite Hp.
      * right. eauto 10.
Qed.

Lemma roots_NoDup nodes : NoDup (roots (buildChildrenMap nodes)).
Proof.
  rewrite roots_eq. apply NoDup_app. split_and!.
  - eapply sublist_NoDup; [apply objects_NoDup|].
    apply fmap_sublist, sublist_filter.
  - intros r (n & Hn & Hk%parent_key_None)%elem_of_keyed
      (n' & p & Hn' & Hp & Hne & _)%elem_of_dangling.
    simplify_eq. rewrite Hp in Hk. simpl in Hk.
    by apply bool_decide_eq_true in Hk.
  - eapply sublist_NoDup; [apply objects_NoDup|].
    apply fmap_sublist, sublist_filter.
Qed.

End index_facts.

(** ** The claims on the children/roots index *)

(** C4 (as stated, refuted).  The first node is the only one without a
    parent and the other node points at its id, yet both are roots and
    the first has no children: an empty parent id counts as absent. *)
Lemma buildChildrenMap_empty_id :
  Forall (λ o, o.1 = 0 ∧ node_parentId o.2 = None ∨
               o.1 ≠ 0 ∧ node_parentId o.2 = Some "")
         (objects emptyIdNodes) ∧
  roots (buildChildrenMap emptyIdNodes) = [0; 1] ∧
  default [] (byParent (buildChildrenMap emptyIdNodes) !! Some "") = [].
Proof.
  split_and!; [|by vm_compute..].
  apply (bool_decide_unpack _). by vm_compute.
Qed.

(** C4 (amended).  No node is listed as a root twice.  Every node whose
    parent link is absent, and every node whose parent link is the id of
    no node, is a root.  When one node has no parent link and a
    non-empty id, and every other node has that id as its parent link,
    that node is the only root and its children list holds all the other
    nodes in array order: one fewer than there are nodes. *)
Theorem buildChildrenMap_roots (nodes : list NodeT) :
  let cm := buildChildrenMap nodes in
  NoDup (roots cm) ∧
  (∀ r n, nodes !! r = Some n →
     node_parentId n = None ∨
       (∃ p, node_parentId n = Some p ∧ p ∉ node_id <$> nodes) →
     r ∈ roots cm) ∧
  (∀ r0 n0, nodes !! r0 = Some n0 →
     node_parentId n0 = None → node_id n0 ≠ "" →
     Forall (λ o, o.1 = r0 ∨ node_parentId o.2 = Some (node_id n0)) (objects nodes) →
     roots cm = [r0] ∧
     default [] (byParent cm !! Some (node_id n0))
       = filter (λ r, r ≠ r0) (seq 0 (length nodes)) ∧
     length (default [] (byParent cm !! Some (node_id n0))) = length nodes - 1).
Proof.
  intros cm. subst cm. split_and!.
  - apply roots_NoDup.
  - intros r n Hn Hroot. apply elem_of_roots. exists n. split; [done|].
    destruct Hroot as [->|?]; [by left|by right].
  - intros r0 n0 Hn0 Hp0 Hid Hall. rewrite Forall_forall in Hall.
    assert (r0 < length nodes) as Hlt by (by eapply lookup_lt_Some).
    assert (∀ o, o ∈ objects nodes → parent_key o.2 = None ↔ o.1 = r0) as Hnone.
    { intros [r n] Hin. pose proof Hin as Hn%elem_of_objects. simpl.
      rewrite parent_key_None. split.
      - intros Hf. destruct (Hall _ Hin) as [?|Hp]; [done|]. simpl in Hp.
        rewrite Hp in Hf. simpl in Hf. by apply bool_decide_eq_true in Hf.
      - intros ->. simplify_eq. by rewrite Hp0. }
    assert (∀ o, o ∈ objects nodes →
              parent_key o.2 = Some (node_id n0) ↔ o.1 ≠ r0) as Hsome.
    { intros [r n] Hin. pose proof Hin as Hn%elem_of_objects. simpl. split.
      - intros Hk ->. simplify_eq. unfold parent_key in Hk. by rewrite Hp0 in Hk.
      - intros Hne. destruct (Hall _ Hin) as [?|Hp]; [done|]. simpl in Hp.
        unfold parent_key. rewrite Hp. simpl. by rewrite bool_decide_eq_false_2. }
    assert (keyed nodes (Some (node_id n0))
            = filter (λ r, r ≠ r0) (seq 0 (length nodes))) as Hkids.
    { unfold keyed. rewrite <-objects_fst, <-filter_fmap_fst. f_equal.
      by apply filter_ext_in. }
    split_and!.
    + rewrite roots_eq.
      assert (keyed nodes None = [r0]) as ->.
      { unfold keyed. rewrite <-(filter_eq_seq r0 0 (length nodes)) by lia.
        rewrite <-objects_fst, <-filter_fmap_fst. f_equal. by apply filter_ext_in. }
      assert (dangling nodes = []) as ->; [|done].
      destruct (dangling nodes) as [|r l] eqn:E; [done|].
      assert (r ∈ dangling nodes) as Hr by (rewrite E; by left).
      apply elem_of_dangling in Hr as (n & p & Hn & Hp & Hne & Hnot).
      destruct (Hall (r, n)) as [Heq|Heq]; [by apply elem_of_objects|..];
        simpl in Heq; simplify_eq.
      destruct Hnot. apply list_elem_of_fmap. exists n0.
      split; [done|]. by eapply list_elem_of_lookup_2.
    + by rewrite byParent_lookup.
    + rewrite byParent_lookup, Hkids. apply filter_ne_seq_length. lia.
Qed.

Lemma buildChildrenMap_roots_witness :
  sample !! 0 = Some (nd "A" None (Fin 0) (Fin 0)) ∧
  roots (buildChildrenMap sample) = [0] ∧
  length (default [] (byParent (buildChildrenMap sample) !! Some "A")) = 2.
Proof.
  split; [reflexivity|].
  destruct (buildChildrenMap_roots sample) as (_ & _ & Hstar).
  destruct (Hstar 0 (nd "A" None (Fin 0) (Fin 0))) as (Hroots & _ & Hlen).
  - reflexivity.
  - reflexivity.
  - simpl. discriminate.
  - apply (bool_decide_unpack _). vm_compute. exact I.
  - split; [exact Hroots|exact Hlen].
Defined.

(** ** Sequencing with state *)

Section map_st_facts.

Context {A B S : Type}.
Implicit Types (f : A → S → option (B * S)) (l : list A).

Lemma map_st_cons f a l s :
  map_st f (a :: l) s =
    match f a s with
    | None => None
    | Some (b, s') =>
        match map_st f l s' with
        | None => None
        | Some (bs, s'') => Some (b :: bs, s'')
        end
    end.
Proof. done. Qed.

Lemma map_st_length f l : ∀ s bs s',
  map_st f l s = Some (bs, s') → length bs = length l.
Proof.
  induction l as [|a l IH]; intros s bs s' H; simpl in H; [by simplify_eq|].
  destruct (f a s) as [[b s1]|]; [|done].
  destruct (map_st f l s1) as [[bs1 s2]|] eqn:E; [|done].
  simplify_eq. simpl. f_equal. by eapply IH.
Qed.

(** Every step succeeds and keeps the invariant: so does the whole. *)
Lemma map_st_total f (I : S → Prop) l :
  (∀ a s, a ∈ l → I s → ∃ b s', f a s = Some (b, s') ∧ I s') →
  ∀ s, I s → ∃ bs s', map_st f l s = Some (bs, s') ∧ I s'.
Proof.
  induction l as [|a l IH]; intros Hstep s Hs; simpl; [by eauto|].
  destruct (Hstep a s) as (b & s1 & -> & Hs1); [by left|done|].
  destruct (IH (λ a' s' Ha', Hstep a' s' (list_elem_of_further _ _ _ Ha')) s1 Hs1)
    as (bs & s2 & -> & Hs2).
  eauto.
Qed.

(** An invariant over the elements done so far and their results. *)
Lemma map_st_hoare f (I : list A → list B → S → Prop) l :
  (∀ done bs s a b s',
     a ∈ l → I done bs s → f a s = Some (b, s') → I (done ++ [a]) (bs ++ [b]) s') →
  ∀ s bs s', I [] [] s → map_st f l s = Some (bs, s') → I l bs s'.
Proof.
  intros Hstep.
  assert (∀ todo done bs0 s bs s',
            (∀ a, a ∈ todo → a ∈ l) → I done bs0 s →
            map_st f todo s = Some (bs, s') → I (done ++ todo) (bs0 ++ bs) s') as Hgen.
  { induction todo as [|a todo IH]; intros done bs0 s bs s' Hsub HI H; simpl in H.
    - simplify_eq. by rewrite !app_nil_r.
    - destruct (f a s) as [[b s1]|] eqn:Ea; [|done].
      destruct (map_st f todo s1) as [[bs1 s2]|] eqn:E; [|done]. simplify_eq.
      rewrite (cons_middle a), (cons_middle b), !app_assoc.
      eapply IH; [|by eapply Hstep; [apply Hsub; left|..]|done].
      intros a' Ha'. apply Hsub. by right. }
  intros s bs s' HI H. by apply (Hgen l [] [] s bs s').
Qed.

Lemma map_st_sim {S2 : Type} (R : S → S2 → Prop) f (g : A → S2 → option (B * S2)) l :
  (∀ a s1 s2, a ∈ l → R s1 s2 → option_sim R (f a s1) (g a s2)) →
  ∀ s1 s2, R s1 s2 → option_sim R (map_st f l s1) (map_st g l s2).
Proof.
  induction l as [|a l IH]; intros Hstep s1 s2 HR; simpl; [done|].
  pose proof (Hstep a s1 s2 (list_elem_of_here _ _) HR) as Ha.
  destruct (f a s1) as [[b1 t1]|], (g a s2) as [[b2 t2]|]; try done.
  destruct Ha as [<- HR'].
  pose proof (IH (λ a' u1 u2 Ha', Hstep a' u1 u2 (list_elem_of_further _ _ _ Ha'))
                t1 t2 HR') as Hl.
  destruct (map_st f l t1) as [[bs1 u1]|], (map_st g l t2) as [[bs2 u2]|]; try done.
  destruct Hl as [<- ?]. done.
Qed.

Lemma map_st_ext f g l :
  (∀ a s, a ∈ l → f a s = g a s) → ∀ s, map_st f l s = map_st g l s.
Proof.
  induction l as [|a l IH]; intros Hext s; simpl; [done|].
  rewrite (Hext a s) by (by left). destruct (g a s) as [[b s1]|]; [|done].
  rewrite IH; [done|]. intros a' s' Ha'. apply Hext. by right.
Qed.

Lemma map_st_mono f g l :
  (∀ a s res, a ∈ l → f a s = Some res → g a s = Some res) →
  ∀ s res, map_st f l s = Some res → map_st g l s = Some res.
Proof.
  induction l as [|a l IH]; intros Hfg s res H; simpl in *; [done|].
  destruct (f a s) as [[b s1]|] eqn:Ea; [|done].
  rewrite (Hfg a s _ (list_elem_of_here _ _) Ea).
  destruct (map_st f l s1) as [[bs s2]|] eqn:El; [|done].
  by rewrite (IH (λ a' s' res' Ha', Hfg a' s' res' (list_elem_of_further _ _ _ Ha'))
                _ _ El).
Qed.

End map_st_facts.

(** ** The heap and the log *)

Section heap_facts.

Implicit Types (h : list NodeT) (ws : list write) (r c : ref).

Lemma apply_writes_snoc ws w h :
  apply_writes (ws ++ [w]) h = apply_write (apply_writes ws h) w.
Proof. unfold apply_writes. by rewrite foldl_app. Qed.

Lemma frame_set_xy x y n : frame (set_xy x y n) = frame n.
Proof. done. Qed.

Lemma set_xy_frame x y n : set_xy x y (frame n) = set_xy x y n.
Proof. done. Qed.

Lemma frame_alter x y r h : frame <$> alter (set_xy x y) r h = frame <$> h.
Proof.
  apply list_eq. intros i. rewrite !list_lookup_fmap.
  destruct (decide (r = i)) as [->|Hne].
  - rewrite list_lookup_alter_eq. by destruct (h !! i).
  - by rewrite list_lookup_alter_ne.
Qed.

Lemma frame_apply_writes ws h : frame <$> apply_writes ws h = frame <$> h.
Proof.
  induction ws as [|w ws IH] using rev_ind; [done|].
  rewrite apply_writes_snoc. unfold apply_write. by rewrite frame_alter.
Qed.

Lemma frame_ids h1 h2 :
  frame <$> h1 = frame <$> h2 → node_id <$> h1 = node_id <$> h2.
Proof.
  intros H. apply (f_equal (fmap node_id)) in H.
  by rewrite <-!list_fmap_compose in H.
Qed.

Lemma frame_length h1 h2 : frame <$> h1 = frame <$> h2 → length h1 = length h2.
Proof. intros H. apply (f_equal length) in H. by rewrite !length_fmap in H. Qed.

Lemma apply_writes_length ws h : length (apply_writes ws h) = length h.
Proof. apply frame_length, frame_apply_writes. Qed.

Lemma children_of_kids bp h r : children_of bp h r = kids_of bp (node_id <$> h) r.
Proof.
  unfold children_of, kids_of. rewrite list_lookup_fmap.
  by destruct (h !! r).
Qed.


(** A reference in the log holds a position from the log. *)
Lemma apply_writes_lookup_written ws h c n :
  c ∈ ws.*1 → apply_writes ws h !! c = Some n →
  ∃ p, (c, p) ∈ ws ∧ node_x n = p.1 ∧ node_y n = p.2.
Proof.
  revert n. induction ws as [|w ws IH] using rev_ind; intros n Hc Hn.
  - by apply elem_of_nil in Hc.
  - rewrite apply_writes_snoc in Hn. unfold apply_write in Hn.
    destruct (decide (w.1 = c)) as [<-|Hne].
    + rewrite list_lookup_alter_eq in Hn.
      destruct (apply_writes ws h !! w.1) as [n0|]; [|done]. simplify_eq/=.
      exists w.2. split; [|done]. apply elem_of_app. right.
      destruct w. by left.
    + rewrite list_lookup_alter_ne in Hn by done.
      rewrite fmap_app, elem_of_app in Hc.
      destruct Hc as [Hc|Hc%list_elem_of_singleton]; [|done].
      destruct (IH n Hc Hn) as (p & Hp & ?). exists p. split; [|done].
      apply elem_of_app. by left.
Qed.

(** When the log covers the whole heap, the result depends on the
    frames alone. *)
Lemma apply_writes_lookup_frame ws h1 h2 c :
  frame <$> h1 = frame <$> h2 → c ∈ ws.*1 →
  apply_writes ws h1 !! c = apply_writes ws h2 !! c.
Proof.
  intros Hframe. induction ws as [|w ws IH] using rev_ind; intros Hc.
  - by apply elem_of_nil in Hc.
  - rewrite !apply_writes_snoc. unfold apply_write.
    destruct (decide (w.1 = c)) as [<-|Hne].
    + rewrite !list_lookup_alter_eq.
      pose proof (frame_apply_writes ws h1) as F1.
      pose proof (frame_apply_writes ws h2) as F2.
      rewrite Hframe, <-F2 in F1.
      apply (f_equal (λ l, l !! w.1)) in F1. rewrite !list_lookup_fmap in F1.
      destruct (apply_writes ws h1 !! w.1) as [n1|],
               (apply_writes ws h2 !! w.1) as [n2|]; try done.
      apply (inj Some) in F1. simpl. f_equal.
      by rewrite <-(set_xy_frame _ _ n1), F1.
    + rewrite !list_lookup_alter_ne by done.
      rewrite fmap_app, elem_of_app in Hc.
      destruct Hc as [Hc|Hc%list_elem_of_singleton]; [by apply IH|].
      by destruct Hne.
Qed.

Lemma apply_writes_covering ws h1 h2 :
  frame <$> h1 = frame <$> h2 →
  (∀ c, c < length h1 → c ∈ ws.*1) →
  apply_writes ws h1 = apply_writes ws h2.
Proof.
  intros Hframe Hcover. apply list_eq. intros c.
  destruct (decide (c < length h1)) as [Hlt|Hge].
  - by apply apply_writes_lookup_frame, Hcover.
  - rewrite !lookup_ge_None_2; [done|..]; rewrite apply_writes_length.
    + rewrite <-(frame_length _ _ Hframe). lia.
    + lia.
Qed.

End heap_facts.

(** ** Finite numbers *)

Section number_facts.

Lemma min2_finite a b :
  Num.isFinite a = true → Num.isFinite b = true → Num.isFinite (Num.min2 a b) = true.
Proof. destruct a, b; try done. simpl. by destruct (Qle_bool _ _). Qed.

Lemma max2_finite a b :
  Num.isFinite a = true → Num.isFinite b = true → Num.isFinite (Num.max2 a b) = true.
Proof. destruct a, b; try done. simpl. by destruct (Qle_bool _ _). Qed.

Lemma min_finite (l : list number) :
  l ≠ [] → Forall (λ a, Num.isFinite a = true) l → Num.isFinite (Num.min l) = true.
Proof.
  induction l as [|a l IH]; [done|]. intros _ [Ha Hl]%Forall_cons.
  unfold Num.min. simpl. destruct l as [|b l].
  - by destruct a.
  - apply min2_finite; [done|]. by apply IH.
Qed.

Lemma max_finite (l : list number) :
  l ≠ [] → Forall (λ a, Num.isFinite a = true) l → Num.isFinite (Num.max l) = true.
Proof.
  induction l as [|a l IH]; [done|]. intros _ [Ha Hl]%Forall_cons.
  unfold Num.max. simpl. destruct l as [|b l].
  - by destruct a.
  - apply max2_finite; [done|]. by apply IH.
Qed.

Lemma half_add_finite a b :
  Num.isFinite a = true → Num.isFinite b = true →
  Num.isFinite (Num.half (Num.add a b)) = true.
Proof. by destruct a, b. Qed.

Lemma sub_finite a b :
  Num.isFinite a = true → Num.isFinite b = true → Num.isFinite (Num.sub a b) = true.
Proof. by destruct a, b. Qed.

End number_facts.

(** ** The layout as a function of the parent links *)

Section plan_facts.

Variable kids : ref → list ref.

Lemma plan_S fuel r depth s :
  plan kids (S fuel) r depth s =
    match kids r with
    | [] =>
        let x := Num.of_nat (s.1 * H) in
        let y := Num.of_nat (depth * V) in
        Some ((x, y), (s.1 + 1, s.2 ++ [(r, (x, y))]))
    | _ :: _ =>
        match map_st (λ c, plan kids fuel c (depth + 1)) (kids r) s with
        | None => None
        | Some (childPositions, s') =>
            let minX := Num.min (fst <$> childPositions) in
            let maxX := Num.max (fst <$> childPositions) in
            let x := Num.half (Num.add minX maxX) in
            let y := Num.of_nat (depth * V) in
            Some ((x, y), (s'.1, s'.2 ++ [(r, (x, y))]))
        end
    end.
Proof. done. Qed.

Lemma below_leaf r c : kids r = [] → below kids r c → c = r.
Proof.
  intros Hk Hb. destruct Hb as [|r c0 c Hc0 _]; [done|].
  rewrite Hk in Hc0. by apply elem_of_nil in Hc0.
Qed.

Lemma below_snoc r c c' : below kids r c → c' ∈ kids c → below kids r c'.
Proof.
  induction 1 as [r|r c0 c Hc0 _ IH]; intros Hc'.
  - eapply below_step; [done|apply below_refl].
  - eapply below_step; [done|by apply IH].
Qed.

(** A run appends finite positions to the log, one of them for every
    object at or below the one it was started on, and returns a finite
    position. *)
Lemma plan_writes fuel : ∀ r depth s p s',
  plan kids fuel r depth s = Some (p, s') →
  finite_pos p ∧
  ∃ ws, s'.2 = s.2 ++ ws ∧ Forall (λ w, finite_pos w.2) ws ∧
        ∀ c, below kids r c → c ∈ ws.*1.
Proof.
  induction fuel as [|fuel IH]; intros r depth s p s' Hplan; [done|].
  rewrite plan_S in Hplan. destruct (kids r) as [|c0 cs] eqn:Ek.
  - simplify_eq/=. split; [done|]. eexists. split; [done|]. split.
    + by apply Forall_singleton.
    + intros c ->%below_leaf; [|done]. by left.
  - rewrite <-Ek in Hplan.
    destruct (map_st _ (kids r) s) as [[ps s1]|] eqn:Emap; [|done].
    simplify_eq/=.
    pose proof (map_st_length _ _ _ _ _ Emap) as Hlen.
    apply (map_st_hoare _
      (λ done bs t, Forall finite_pos bs ∧
         ∃ ws, t.2 = s.2 ++ ws ∧ Forall (λ w, finite_pos w.2) ws ∧
               ∀ c1 c, c1 ∈ done → below kids c1 c → c ∈ ws.*1)) in Emap.
    + destruct Emap as (Hps & ws & Hws & Hfin & Hcover).
      assert (finite_pos (Num.half (Num.add (Num.min ps.*1) (Num.max ps.*1)),
                          Num.of_nat (depth * V))) as Hp.
      { assert (ps.*1 ≠ []) as Hne.
        { rewrite Ek in Hlen. by destruct ps. }
        assert (Forall (λ a, Num.isFinite a = true) ps.*1) as Hx.
        { apply Forall_fmap. eapply Forall_impl; [done|]. by intros ? [? ?]. }
        split; [|done]. simpl.
        apply half_add_finite; [by apply min_finite|by apply max_finite]. }
      split; [done|]. eexists (ws ++ [_]). split_and!.
      * by rewrite Hws, app_assoc.
      * apply Forall_app. split; [done|]. by apply Forall_singleton.
      * intros c Hc. rewrite fmap_app, elem_of_app.
        destruct Hc as [|r c1 c Hc1 Hc]; [right; by left|].
        left. by eapply Hcover.
    + intros done bs t a b t' Ha (Hbs & ws & Hws & Hfin & Hcover) Hstep.
      apply IH in Hstep as (Hb & ws' & Hws' & Hfin' & Hcover').
      split; [apply Forall_app; split; [done|by apply Forall_singleton]|].
      exists (ws ++ ws'). split_and!.
      * by rewrite Hws', Hws, app_assoc.
      * by apply Forall_app.
      * intros c1 c [Hc1|Hc1%list_elem_of_singleton]%elem_of_app Hc;
          rewrite fmap_app, elem_of_app; [left; by eapply Hcover|].
        subst c1. right; by apply Hcover'.
    + split; [done|]. exists []. split_and!; [by rewrite app_nil_r|done|].
      intros c1 c Hc1. by apply elem_of_nil in Hc1.
Qed.

(** The recursion ends when every object at or below the start is a
    bounded number of parent links away from a root. *)
Lemma plan_total (lev : ref → nat → Prop) (bound : nat) :
  (∀ r k, lev r k → k < bound) →
  (∀ r k c, lev r k → c ∈ kids r → lev c (S k)) →
  ∀ fuel r depth s k,
    lev r k → bound ≤ fuel + k → is_Some (plan kids fuel r depth s).
Proof.
  intros Hbound Hkids.
  induction fuel as [|fuel IH]; intros r depth s k Hr Hfuel.
  - apply Hbound in Hr. lia.
  - rewrite plan_S. destruct (kids r) as [|c0 cs] eqn:Ek; [by eexists|].
    rewrite <-Ek.
    destruct (map_st_total (λ c, plan kids fuel c (depth + 1)) (λ _, True) (kids r))
      with (s := s) as (ps & s1 & -> & _); [|done|by eexists].
    intros c t Hc _.
    destruct (IH c (depth + 1) t (S k)) as [[p t'] ->]; [by eapply Hkids|lia|].
    eauto.
Qed.

(** More fuel does not change a result. *)
Lemma plan_mono fuel : ∀ r depth s res,
  plan kids fuel r depth s = Some res → plan kids (S fuel) r depth s = Some res.
Proof.
  induction fuel as [|fuel IH]; intros r depth s res H; [done|].
  rewrite plan_S in H. rewrite plan_S. destruct (kids r) as [|c0 cs] eqn:Ek; [done|].
  destruct (map_st _ (c0 :: cs) s) as [[ps s1]|] eqn:Emap; [|done].
  by rewrite (map_st_mono _ (λ c, plan kids (S fuel) c (depth + 1)) _
                (λ a t res' _, IH a (depth + 1) t res') _ _ Emap).
Qed.

Lemma plan_mono_le fuel fuel' r depth s res :
  fuel ≤ fuel' →
  plan kids fuel r depth s = Some res → plan kids fuel' r depth s = Some res.
Proof. induction 1; [done|]. intros H. by apply plan_mono, IHle. Qed.

Lemma plan_ext (kids' : ref → list ref) :
  (∀ r, kids r = kids' r) →
  ∀ fuel r depth s, plan kids fuel r depth s = plan kids' fuel r depth s.
Proof.
  intros Hext. induction fuel as [|fuel IH]; intros r depth s; [done|].
  simpl. rewrite <-Hext. destruct (kids r); [done|].
  by rewrite (map_st_ext _ (λ c, plan kids' fuel c (depth + 1))).
Qed.

End plan_facts.

(** ** [place] follows the plan *)

Section place_facts.

Variable bp : gmap (option string) (list ref).
Variable h0 : list NodeT.

Lemma place_S fuel r depth st :
  place bp (S fuel) r depth st =
    match children_of bp (heap st) r with
    | [] =>
        let x := Num.of_nat (cursorX st * H) in
        let y := Num.of_nat (depth * V) in
        Some ((x, y), mkLayout (cursorX st + 1) (alter (set_xy x y) r (heap st)))
    | _ :: _ =>
        match map_st (λ c, place bp fuel c (depth + 1))
                (children_of bp (heap st) r) st with
        | None => None
        | Some (childPositions, st') =>
            let minX := Num.min (fst <$> childPositions) in
            let maxX := Num.max (fst <$> childPositions) in
            let x := Num.half (Num.add minX maxX) in
            let y := Num.of_nat (depth * V) in
            Some ((x, y), mkLayout (cursorX st') (alter (set_xy x y) r (heap st')))
        end
    end.
Proof. done. Qed.

Lemma sim_children st s r :
  sim h0 st s → children_of bp (heap st) r = kids_of bp (node_id <$> h0) r.
Proof.
  intros [_ Hh]. rewrite children_of_kids, Hh.
  by rewrite (frame_ids _ _ (frame_apply_writes _ _)).
Qed.

Lemma sim_write st s r x y c :
  sim h0 st s → cursorX st = c → 
  sim h0 (mkLayout c (alter (set_xy x y) r (heap st))) (c, s.2 ++ [(r, (x, y))]).
Proof.
  intros [Hc Hh] <-. split; [done|]. simpl.
  by rewrite apply_writes_snoc, <-Hh.
Qed.

(** A run of [place] on the heap and a run of [plan] on the log fail
    together or return the same position, the same counter, and a heap
    that is the starting heap with the log applied. *)
Lemma place_plan fuel : ∀ r depth st s,
  sim h0 st s →
  option_sim (sim h0) (place bp fuel r depth st)
    (plan (kids_of bp (node_id <$> h0)) fuel r depth s).
Proof.
  induction fuel as [|fuel IH]; intros r depth st s Hsim; [done|].
  rewrite place_S, plan_S, (sim_children _ _ _ Hsim).
  destruct (kids_of bp (node_id <$> h0) r) as [|c0 cs] eqn:Ek.
  - destruct Hsim as [Hc Hh]. simpl. rewrite Hc. split; [done|].
    split; [done|]. simpl. by rewrite apply_writes_snoc, <-Hh.
  - pose proof (map_st_sim (sim h0) (λ c, place bp fuel c (depth + 1))
                  (λ c, plan (kids_of bp (node_id <$> h0)) fuel c (depth + 1))
                  (c0 :: cs) (λ a s1 s2 _ HR, IH a (depth + 1) s1 s2 HR)
                  st s Hsim) as Hmap.
    destruct (map_st _ (c0 :: cs) st) as [[ps1 st1]|],
             (map_st _ (c0 :: cs) s) as [[ps2 s2]|]; try done.
    destruct Hmap as [<- [Hc Hh]]. simpl. split; [done|].
    split; [done|]. simpl. by rewrite apply_writes_snoc, <-Hh.
Qed.

End place_facts.

(** ** Parent links and children lists *)

Section link_facts.

Variable nodes : list NodeT.


Lemma kids_eq r :
  index_kids nodes r = match nodes !! r with
           | Some n => keyed nodes (Some (node_id n))
           | None => []
           end.
Proof.
  unfold index_kids, kids_of. rewrite list_lookup_fmap.
  destruct (nodes !! r) as [n|]; [|done]. simpl. apply byParent_lookup.
Qed.

Lemma elem_of_kids r c :
  c ∈ index_kids nodes r ↔
  ∃ n nc, nodes !! r = Some n ∧ nodes !! c = Some nc ∧
          parent_key nc = Some (node_id n).
Proof.
  rewrite kids_eq. destruct (nodes !! r) as [n|].
  - rewrite elem_of_keyed. split.
    + intros (nc & ? & ?). by exists n, nc.
    + intros (? & nc & ? & ? & ?). simplify_eq. by exists nc.
  - split; [by intros ?%elem_of_nil|]. by intros (? & ? & ? & _).
Qed.

Lemma resolve_Some p r :
  resolve nodes p = Some r ↔
  ∃ n, nodes !! r = Some n ∧ node_id n = p ∧
       ∀ j m, nodes !! j = Some m → j < r → node_id m ≠ p.
Proof.
  unfold resolve. split.
  - destruct (list_find _ nodes) as [[i n]|] eqn:E; [|done].
    intros [= <-]. apply list_find_Some in E. by exists n.
  - intros (n & Hn & Hid & Hfirst).
    assert (list_find (λ n, node_id n = p) nodes = Some (r, n)) as ->; [|done].
    by apply list_find_Some.
Qed.

Lemma resolve_None p : resolve nodes p = None ↔ p ∉ node_id <$> nodes.
Proof.
  unfold resolve. rewrite fmap_None, list_find_None, Forall_forall.
  rewrite list_elem_of_fmap. split.
  - intros H (n & -> & Hn). by apply (H n).
  - intros H n Hn Hid. apply H. by exists n.
Qed.

Lemma parent_key_Some n p :
  parent_key n = Some p ↔ node_parentId n = Some p ∧ p ≠ "".
Proof.
  unfold parent_key, falsy. destruct (node_parentId n) as [q|]; [|by split; [|intros []]].
  destruct (bool_decide_reflect (q = "")) as [->|Hne].
  - split; [done|]. by intros [[= <-] ?].
  - split; [by intros [= <-]|by intros [? _]].
Qed.

(** An object is among the children of the object its parent link
    resolves to. *)
Lemma parent_of_kids c r : parent_of nodes c = Some r → c ∈ index_kids nodes r.
Proof.
  unfold parent_of. destruct (nodes !! c) as [nc|] eqn:Ec; [|done]. simpl.
  destruct (parent_key nc) as [p|] eqn:Ep; [|done]. simpl.
  intros (n & Hn & Hid & _)%resolve_Some. apply elem_of_kids.
  exists n, nc. by rewrite Hid.
Qed.

(** With distinct ids, the children of an object are exactly the
    objects whose parent link resolves to it. *)
Lemma kids_parent_of c r :
  NoDup (node_id <$> nodes) → c ∈ index_kids nodes r → parent_of nodes c = Some r.
Proof.
  intros Hnd (n & nc & Hn & Hnc & Hk)%elem_of_kids.
  unfold parent_of. rewrite Hnc. simpl. rewrite Hk. simpl.
  apply resolve_Some. exists n. split_and!; [done..|].
  intros j m Hm Hj Hid.
  assert (j = r); [|lia].
  eapply (NoDup_lookup _ j r (node_id n) Hnd); rewrite list_lookup_fmap.
  - by rewrite Hm, <-Hid.
  - by rewrite Hn.
Qed.

Lemma parent_of_lt c r : parent_of nodes c = Some r → c < length nodes ∧ r < length nodes.
Proof.
  unfold parent_of. destruct (nodes !! c) as [nc|] eqn:Ec; [|done]. simpl.
  destruct (parent_key nc) as [p|] eqn:Ep; [|done]. simpl.
  intros (n & Hn & _)%resolve_Some. split; by eapply lookup_lt_Some.
Qed.

(** *** Roots *)

Lemma root_iff r :
  r ∈ roots (buildChildrenMap nodes) ↔ r < length nodes ∧ parent_of nodes r = None.
Proof.
  rewrite elem_of_roots. unfold parent_of. split.
  - intros (n & Hn & Hroot). split; [by eapply lookup_lt_Some|].
    rewrite Hn. simpl. destruct (parent_key n) as [p|] eqn:Ep; [|done]. simpl.
    apply parent_key_Some in Ep as [Hp Hne]. apply resolve_None.
    destruct Hroot as [Hf|(q & Hq & Hnot)]; [|congruence].
    rewrite Hp in Hf. simpl in Hf. by apply bool_decide_eq_true in Hf.
  - intros [Hlt Hnone]. apply lookup_lt_is_Some in Hlt as [n Hn].
    exists n. split; [done|]. rewrite Hn in Hnone. simpl in Hnone.
    destruct (parent_key n) as [p|] eqn:Ep.
    + right. simpl in Hnone. apply parent_key_Some in Ep as [Hp _].
      exists p. split; [done|]. by apply resolve_None.
    + left. by apply parent_key_None.
Qed.

(** *** Levels *)

Lemma level_fun r k k' : level nodes r k → level nodes r k' → k = k'.
Proof.
  intros H. revert k'. induction H as [r Hr Hp|r r' k Hp _ IH]; intros k' H'.
  - destruct H' as [|? ? ? Hp']; [done|congruence].
  - destruct H' as [? ? Hp'|r0 r1 k1 Hp' H']; [congruence|].
    f_equal. apply IH. congruence.
Qed.

Lemma level_lt_length r k : level nodes r k → r < length nodes.
Proof. destruct 1 as [|? ? ? Hp]; [done|]. by apply parent_of_lt in Hp as [? _]. Qed.

(** The objects on the way up from a level-[k] object are [k + 1]
    different objects. *)
Lemma level_chain r k :
  level nodes r k →
  ∃ l : list ref, length l = S k ∧ NoDup l ∧
    ∀ x, x ∈ l → ∃ j, j ≤ k ∧ level nodes x j.
Proof.
  induction 1 as [r Hr Hp|r r' k Hp Hlev (l & Hlen & Hnd & Hl)].
  - exists [r]. split_and!; [done|apply NoDup_singleton|].
    intros x ->%list_elem_of_singleton. exists 0. split; [done|].
    by apply level_root.
  - exists (r :: l). split_and!; [by rewrite <-Hlen|..].
    + apply NoDup_cons. split; [|done]. intros (j & Hj & Hlevj)%Hl.
      assert (level nodes r (S k)) as Hr by (by eapply level_child).
      pose proof (level_fun _ _ _ Hr Hlevj). lia.
    + intros x [->|Hx]%elem_of_cons.
      * exists (S k). split; [done|]. by eapply level_child.
      * destruct (Hl x Hx) as (j & ? & ?). exists j. split; [lia|done].
Qed.

Lemma level_bound r k : level nodes r k → k < length nodes.
Proof.
  intros (l & Hlen & Hnd & Hl)%level_chain.
  assert (l ⊆+ seq 0 (length nodes)) as Hsub.
  { apply NoDup_submseteq; [done|]. intros x (j & _ & Hx%level_lt_length)%Hl.
    apply elem_of_seq. lia. }
  apply submseteq_length in Hsub. rewrite length_seq in Hsub. lia.
Qed.

Lemma level_kids r k c :
  NoDup (node_id <$> nodes) → level nodes r k → c ∈ index_kids nodes r → level nodes c (S k).
Proof. intros Hnd Hr Hc. eapply level_child; [by apply kids_parent_of|done]. Qed.

(** *** Forests *)

Lemma root_distance_below fuel : ∀ r k,
  r < length nodes → root_distance nodes fuel r = Some k →
  ∃ r0, r0 ∈ roots (buildChildrenMap nodes) ∧ below (index_kids nodes) r0 r.
Proof.
  induction fuel as [|fuel IH]; intros r k Hr Hd; simpl in Hd.
  - destruct (parent_of nodes r) eqn:Ep; [done|].
    exists r. split; [by apply root_iff|apply below_refl].
  - destruct (parent_of nodes r) as [r'|] eqn:Ep.
    + destruct (root_distance nodes fuel r') as [k'|] eqn:Ed; [|done].
      destruct (IH r' k') as (r0 & Hr0 & Hb); [by apply parent_of_lt in Ep as [_ ?]|done|].
      exists r0. split; [done|]. eapply below_snoc; [done|by apply parent_of_kids].
    + exists r. split; [by apply root_iff|apply below_refl].
Qed.

Lemma forest_below r :
  is_forest nodes = true → r < length nodes →
  ∃ r0, r0 ∈ roots (buildChildrenMap nodes) ∧ below (index_kids nodes) r0 r.
Proof.
  intros Hforest Hr. unfold is_forest in Hforest. rewrite forallb_forall in Hforest.
  assert (In r (seq 0 (length nodes))) as Hin by (apply in_seq; lia).
  apply Hforest, bool_decide_eq_true in Hin as [k Hk].
  by eapply root_distance_below.
Qed.

End link_facts.

(** ** Centring *)

Section centre_facts.

Local Open Scope Q_scope.

Lemma finite_list (l : list number) :
  Forall (λ a, Num.isFinite a = true) l → ∃ qs, l = Fin <$> qs.
Proof.
  induction 1 as [|a l Ha _ (qs & ->)]; [by exists []|].
  destruct a as [q| | |]; try done. by exists (q :: qs).
Qed.

(** The minimum of finite numbers is the least of them. *)
Lemma min_spec (qs : list Q) :
  qs ≠ [] →
  ∃ a, Num.min (Fin <$> qs) = Fin a ∧ a ∈ qs ∧ ∀ q, q ∈ qs → a <= q.
Proof.
  induction qs as [|q qs IH]; [done|]. intros _.
  destruct qs as [|q' qs].
  - exists q. split_and!; [done|by left|].
    intros x ->%list_elem_of_singleton. apply Qle_refl.
  - destruct IH as (a & Ha & Hin & Hle); [done|].
    change (Num.min (Fin <$> q :: q' :: qs))
      with (Num.min2 (Fin q) (Num.min (Fin <$> q' :: qs))).
    rewrite Ha. simpl. destruct (Qle_bool q a) eqn:E.
    + apply Qle_bool_iff in E. exists q. split_and!; [done|by left|].
      intros x [->|Hx]%elem_of_cons; [apply Qle_refl|].
      eapply Qle_trans; [done|by apply Hle].
    + exists a. split_and!; [done|by right|].
      intros x [->|Hx]%elem_of_cons; [|by apply Hle].
      destruct (Qlt_le_dec a q) as [?%Qlt_le_weak|Hxa]; [done|].
      apply Qle_bool_iff in Hxa. congruence.
Qed.

(** The maximum of finite numbers is the greatest of them. *)
Lemma max_spec (qs : list Q) :
  qs ≠ [] →
  ∃ b, Num.max (Fin <$> qs) = Fin b ∧ b ∈ qs ∧ ∀ q, q ∈ qs → q <= b.
Proof.
  induction qs as [|q qs IH]; [done|]. intros _.
  destruct qs as [|q' qs].
  - exists q. split_and!; [done|by left|].
    intros x ->%list_elem_of_singleton. apply Qle_refl.
  - destruct IH as (b & Hb & Hin & Hle); [done|].
    change (Num.max (Fin <$> q :: q' :: qs))
      with (Num.max2 (Fin q) (Num.max (Fin <$> q' :: qs))).
    rewrite Hb. simpl. destruct (Qle_bool q b) eqn:E.
    + apply Qle_bool_iff in E. exists b. split_and!; [done|by right|].
      intros x [->|Hx]%elem_of_cons; [done|by apply Hle].
    + exists q. split_and!; [done|by left|].
      assert (b <= q) as Hbq.
      { destruct (Qlt_le_dec b q) as [?%Qlt_le_weak|Hqb]; [done|].
        apply Qle_bool_iff in Hqb. congruence. }
      intros x [->|Hx]%elem_of_cons; [apply Qle_refl|].
      eapply Qle_trans; [by apply Hle|done].
Qed.

(** Subtracting the midpoint of the range from every number puts the
    midpoint of the range at zero. *)
Lemma shift_mid (l : list number) :
  l ≠ [] → Forall (λ a, Num.isFinite a = true) l →
  let m := Num.half (Num.add (Num.min l) (Num.max l)) in
  let l' := (λ a, Num.sub a m) <$> l in
  Forall (λ a, Num.isFinite a = true) l' ∧
  Num.is_zero (Num.half (Num.add (Num.min l') (Num.max l'))).
Proof.
  intros Hne (qs & ->)%finite_list. cbv zeta.
  assert (qs ≠ []) as Hqs by (by destruct qs).
  destruct (min_spec qs Hqs) as (a & -> & Ha & Hmin).
  destruct (max_spec qs Hqs) as (b & -> & Hb & Hmax).
  simpl. set (m := (a + b) / 2).
  assert ((λ x, Num.sub x (Fin m)) <$> (Fin <$> qs)
          = Fin <$> ((λ q, q + - m) <$> qs)) as ->.
  { rewrite <-!list_fmap_compose. done. }
  assert ((λ q, q + - m) <$> qs ≠ []) as Hqs' by (by destruct qs).
  split; [apply Forall_fmap, Forall_true; done|].
  destruct (min_spec _ Hqs') as (a' & -> & Ha' & Hmin').
  destruct (max_spec _ Hqs') as (b' & -> & Hb' & Hmax').
  simpl.
  apply list_elem_of_fmap in Ha' as (qa & -> & Hqa).
  apply list_elem_of_fmap in Hb' as (qb & -> & Hqb).
  assert (qa + - m <= a + - m) as H1.
  { apply Hmin'. apply list_elem_of_fmap. by exists a. }
  assert (b + - m <= qb + - m) as H2.
  { apply Hmax'. apply list_elem_of_fmap. by exists b. }
  pose proof (Hmin qa Hqa) as H3. pose proof (Hmax qb Hqb) as H4.
  unfold m in *. clear -H1 H2 H3 H4.
  assert (qa == a) as -> by lra. assert (qb == b) as -> by lra. field.
Qed.

End centre_facts.

Section centre_nodes.

Implicit Types h : list NodeT.

Lemma frame_centre h : frame <$> centre h = frame <$> h.
Proof. unfold centre. by rewrite <-list_fmap_compose. Qed.

Lemma all_finite_Forall h :
  all_finite h = true ↔
  Forall (λ a, Num.isFinite a = true) (node_x <$> h) ∧
  Forall (λ a, Num.isFinite a = true) (node_y <$> h).
Proof.
  unfold all_finite. rewrite forallb_forall, !Forall_fmap, !Forall_forall. split.
  - intros H. split; intros n Hn%list_elem_of_In%H%andb_prop; simpl; tauto.
  - intros [Hx Hy] n Hn%list_elem_of_In. apply andb_true_intro. split; simpl.
    + by apply Hx. 
    + by apply Hy.
Qed.

(** Centring finite positions leaves them finite and puts the
    midpoint of their bounding box at the origin. *)
Lemma centre_centred h :
  h ≠ [] → all_finite h = true →
  all_finite (centre h) = true ∧
  Num.is_zero (bbox_mid (centre h)).1 ∧ Num.is_zero (bbox_mid (centre h)).2.
Proof.
  intros Hne [Hx Hy]%all_finite_Forall.
  assert (node_x <$> h ≠ []) as Hnx by (by destruct h).
  assert (node_y <$> h ≠ []) as Hny by (by destruct h).
  destruct (shift_mid _ Hnx Hx) as [Hx' Hzx].
  destruct (shift_mid _ Hny Hy) as [Hy' Hzy].
  assert (node_x <$> centre h =
          (λ a, Num.sub a (Num.half (Num.add (Num.min (node_x <$> h))
                                        (Num.max (node_x <$> h))))) <$> (node_x <$> h))
    as Ex by (unfold centre; by rewrite <-!list_fmap_compose).
  assert (node_y <$> centre h =
          (λ a, Num.sub a (Num.half (Num.add (Num.min (node_y <$> h))
                                        (Num.max (node_y <$> h))))) <$> (node_y <$> h))
    as Ey by (unfold centre; by rewrite <-!list_fmap_compose).
  unfold bbox_mid. simpl. rewrite all_finite_Forall, Ex, Ey. done.
Qed.

Lemma centre_nil : centre [] = [].
Proof. done. Qed.

End centre_nodes.

(** ** The whole layout *)

Section autoLayout_facts.

Implicit Types (nodes : list NodeT) (fuel : nat).

Lemma foldl_fmap_same {A B C} (f : C → B → C) (g : A → B) (f' : C → A → C) l :
  (∀ c a, f c (g a) = f' c a) → ∀ c, foldl f c (g <$> l) = foldl f' c l.
Proof.
  intros Hfg. induction l as [|a l IH]; intros c; [done|].
  simpl. by rewrite Hfg, IH.
Qed.

Lemma objects_frame nodes :
  objects (frame <$> nodes) = (λ o, (o.1, frame o.2)) <$> objects nodes.
Proof. unfold objects. by rewrite imap_fmap, fmap_imap. Qed.

(** The index reads ids and parent links only. *)
Lemma buildChildrenMap_frame nodes :
  buildChildrenMap (frame <$> nodes) = buildChildrenMap nodes.
Proof.
  unfold buildChildrenMap. cbv zeta. rewrite objects_frame.
  rewrite (foldl_fmap_same push_child _ push_child) by done.
  rewrite (foldl_fmap_same (push_root _) _
             (push_root (list_to_set (node_id <$> nodes)))).
  2:{ intros c a. by rewrite <-list_fmap_compose. }
  f_equal. f_equal. apply list_filter_iff. intros r.
  unfold no_parent_at. rewrite list_lookup_fmap. by destruct (nodes !! r).
Qed.

Lemma plan_roots_frame nodes1 nodes2 fuel :
  frame <$> nodes1 = frame <$> nodes2 →
  plan_roots nodes1 fuel = plan_roots nodes2 fuel.
Proof.
  intros Hframe. unfold plan_roots, index_kids.
  rewrite <-(buildChildrenMap_frame nodes1), <-(buildChildrenMap_frame nodes2).
  by rewrite Hframe, (frame_ids _ _ Hframe).
Qed.

(** [autoLayout] centres the heap that the plan describes. *)
Lemma autoLayout_plan fuel nodes :
  autoLayout_fuel fuel nodes =
    (λ res, centre (apply_writes res.2.2 nodes)) <$> plan_roots nodes fuel.
Proof.
  unfold autoLayout_fuel, plan_roots, index_kids. cbv zeta.
  set (bp := byParent (buildChildrenMap nodes)).
  pose proof (map_st_sim (sim nodes) (λ r, place bp fuel r 0)
                (λ r, plan (kids_of bp (node_id <$> nodes)) fuel r 0)
                (roots (buildChildrenMap nodes))
                (λ a s1 s2 _ HR, place_plan bp nodes fuel a 0 s1 s2 HR)
                (mkLayout 0 nodes) (0, []) (conj eq_refl eq_refl)) as Hsim.
  destruct (map_st _ _ (mkLayout 0 nodes)) as [[ps1 st]|],
           (map_st _ _ (0, [])) as [[ps2 s]|]; try done.
  destruct Hsim as [_ [_ Hh]]. simpl. by rewrite Hh.
Qed.

Lemma plan_roots_total nodes :
  NoDup (node_id <$> nodes) → is_Some (plan_roots nodes (length nodes)).
Proof.
  intros Hnd. unfold plan_roots.
  destruct (map_st_total (λ r, plan (index_kids nodes) (length nodes) r 0)
              (λ _, True) (roots (buildChildrenMap nodes)))
    with (s := (0, @nil write)) as (ps & s & -> & _); [|done|by eexists].
  intros r s Hr%root_iff _.
  destruct (plan_total (index_kids nodes) (level nodes) (length nodes)
              (level_bound nodes)
              (λ r k c, level_kids nodes r k c Hnd)
              (length nodes) r 0 s 0) as [[p s'] ->]; [|lia|by eauto].
  destruct Hr. by apply level_root.
Qed.

Lemma plan_roots_mono nodes fuel fuel' res :
  fuel ≤ fuel' →
  plan_roots nodes fuel = Some res → plan_roots nodes fuel' = Some res.
Proof.
  intros Hle. unfold plan_roots. apply map_st_mono.
  intros a s res' _. by apply plan_mono_le.
Qed.

Lemma plan_roots_writes nodes fuel ps s :
  plan_roots nodes fuel = Some (ps, s) →
  Forall (λ w, finite_pos w.2) s.2 ∧
  ∀ r0 c, r0 ∈ roots (buildChildrenMap nodes) →
    below (index_kids nodes) r0 c → c ∈ s.2.*1.
Proof.
  unfold plan_roots. set (kids := index_kids nodes). intros Hrun.
  apply (map_st_hoare _
    (λ done (_ : list (number * number)) (t : nat * list write),
       Forall (λ w, finite_pos w.2) t.2 ∧
       ∀ r0 c, r0 ∈ done → below kids r0 c → c ∈ t.2.*1)) in Hrun; [done| |].
  - intros done bs t a b t' Ha [Hfin Hcover] Hstep.
    apply plan_writes in Hstep as (_ & ws & -> & Hfin' & Hcover').
    split; [by apply Forall_app|].
    intros r0 c [Hr0|Hr0%list_elem_of_singleton]%elem_of_app Hc;
      rewrite fmap_app, elem_of_app; [left; by eapply Hcover|].
    subst r0. right. by apply Hcover'.
  - split; [done|]. intros r0 c Hr0. by apply elem_of_nil in Hr0.
Qed.

(** In a forest the plan writes every object. *)
Lemma plan_roots_covering nodes fuel ps s :
  is_forest nodes = true → plan_roots nodes fuel = Some (ps, s) →
  ∀ c, c < length nodes → c ∈ s.2.*1.
Proof.
  intros Hforest [_ Hcover]%plan_roots_writes c Hc.
  destruct (forest_below nodes c Hforest Hc) as (r0 & Hr0 & Hb).
  by eapply Hcover.
Qed.

Lemma written_finite ws h :
  Forall (λ w, finite_pos w.2) ws → (∀ c, c < length h → c ∈ ws.*1) →
  all_finite (apply_writes ws h) = true.
Proof.
  intros Hfin Hcover. unfold all_finite. apply forallb_forall.
  intros n Hn%list_elem_of_In. apply list_elem_of_lookup in Hn as [c Hc].
  assert (c < length h) as Hlt.
  { rewrite <-(apply_writes_length ws h). by eapply lookup_lt_Some. }
  destruct (apply_writes_lookup_written ws h c n (Hcover c Hlt) Hc)
    as (p & Hp & -> & ->).
  rewrite Forall_forall in Hfin. destruct (Hfin _ Hp) as [Hx Hy].
  simpl in *. by rewrite Hx, Hy.
Qed.

End autoLayout_facts.

(** ** The claims on the layout *)

(** With the ids of [dupNodes], the second object is its own child. *)
Lemma dupNodes_diverges (fuel : nat) : autoLayout_fuel fuel dupNodes = None.
Proof.
  rewrite autoLayout_plan. unfold plan_roots.
  set (kids := index_kids dupNodes).
  assert (roots (buildChildrenMap dupNodes) = [0]) as -> by (by vm_compute).
  assert (kids 0 = [1]) as Hk0 by (by vm_compute).
  assert (kids 1 = [1]) as Hk1 by (by vm_compute).
  assert (∀ fuel depth s, plan kids fuel 1 depth s = None) as Hloop.
  { clear fuel. induction fuel as [|fuel IH]; intros depth s; [done|].
    rewrite plan_S, Hk1. simpl. by rewrite IH. }
  destruct fuel as [|fuel]; [done|].
  simpl. rewrite Hk0. simpl. by rewrite Hloop.
Qed.

(** C10.  For every node sequence with pairwise distinct ids,
    [autoLayout] returns a sequence of the same length, whatever the
    parent links are, and a larger recursion bound returns the same.
    The distinctness cannot be dropped: on two nodes with the id "A", the
    second a child of "A", the recursion exhausts every bound. *)
Theorem autoLayout_terminates :
  (∀ nodes, NoDup (node_id <$> nodes) →
     ∃ out, autoLayout nodes = Some out ∧ length out = length nodes ∧
            ∀ fuel, length nodes ≤ fuel → autoLayout_fuel fuel nodes = Some out) ∧
  (¬ NoDup (node_id <$> dupNodes) ∧ ∀ fuel, autoLayout_fuel fuel dupNodes = None).
Proof.
  split.
  - intros nodes Hnd. unfold autoLayout.
    destruct (plan_roots_total nodes Hnd) as [[ps s] Hrun].
    exists (centre (apply_writes s.2 nodes)). split_and!.
    + by rewrite autoLayout_plan, Hrun.
    + unfold centre. by rewrite length_fmap, apply_writes_length.
    + intros fuel Hfuel.
      by rewrite autoLayout_plan, (plan_roots_mono _ _ _ _ Hfuel Hrun).
  - split; [|apply dupNodes_diverges].
    intros Hnd. by apply NoDup_cons in Hnd as [Hin _]; apply Hin; left.
Qed.

Lemma autoLayout_terminates_witness :
  NoDup (node_id <$> rootAndCycle) ∧
  ∃ out, autoLayout rootAndCycle = Some out ∧ length out = 3.
Proof.
  assert (NoDup (node_id <$> rootAndCycle)) as Hnd.
  { apply (bool_decide_unpack _). vm_compute. exact I. }
  split; [exact Hnd|].
  destruct (proj1 autoLayout_terminates rootAndCycle Hnd) as (out & Hout & Hlen & _).
  exists out. split; [exact Hout|exact Hlen].
Defined.

(** C2 (as stated, refuted).  Neither node of the cycle is reachable
    from a root, so both keep their coordinates until the centring
    pass, which turns the infinite one into not-a-number. *)
Lemma autoLayout_cycle_not_finite :
  NoDup (node_id <$> cycleInfNodes) ∧
  ∃ out, autoLayout cycleInfNodes = Some out ∧
    node_x <$> out = [NaN; NegInf] ∧
    all_finite out = false ∧
    ¬ Num.is_zero (bbox_mid out).1.
Proof.
  split; [apply (bool_decide_unpack _); by vm_compute|].
  eexists. split; [by vm_compute|]. split_and!; [by vm_compute..|].
  by vm_compute.
Qed.

(** C2 (amended).  For every node sequence with pairwise distinct ids
    in which every node reaches a root along the parent links,
    [autoLayout] returns the same nodes with new positions: every
    coordinate is finite, and when there is a node, the midpoint of the
    bounding box of the positions is the origin. *)
Theorem autoLayout_finite_centred (nodes : list NodeT) :
  NoDup (node_id <$> nodes) → is_forest nodes = true →
  ∃ out, autoLayout nodes = Some out ∧
    frame <$> out = frame <$> nodes ∧
    all_finite out = true ∧
    (nodes ≠ [] →
       Num.is_zero (bbox_mid out).1 ∧ Num.is_zero (bbox_mid out).2).
Proof.
  intros Hnd Hforest. unfold autoLayout.
  destruct (plan_roots_total nodes Hnd) as [[ps s] Hrun].
  exists (centre (apply_writes s.2 nodes)).
  pose proof (plan_roots_writes _ _ _ _ Hrun) as [Hfin _].
  pose proof (plan_roots_covering _ _ _ _ Hforest Hrun) as Hcover.
  pose proof (written_finite _ nodes Hfin Hcover) as Hall.
  split_and!.
  - by rewrite autoLayout_plan, Hrun.
  - by rewrite frame_centre, frame_apply_writes.
  - destruct nodes as [|n nodes]; [by destruct s as [c [|w ws]]|].
    apply centre_centred; [|done].
    intros Hnil. apply (f_equal length) in Hnil.
    by rewrite apply_writes_length in Hnil.
  - intros Hne. apply centre_centred; [|done].
    intros Hnil. apply (f_equal length) in Hnil.
    rewrite apply_writes_length in Hnil. by destruct nodes.
Qed.

Lemma autoLayout_finite_centred_witness :
  NoDup (node_id <$> sample) ∧ is_forest sample = true ∧
  ∃ out, autoLayout sample = Some out ∧ all_finite out = true.
Proof.
  assert (NoDup (node_id <$> sample)) as Hnd.
  { apply (bool_decide_unpack _). vm_compute. exact I. }
  split; [exact Hnd|]. split; [reflexivity|].
  destruct (autoLayout_finite_centred sample Hnd eq_refl) as (out & Hout & _ & Hfin & _).
  exists out. split; [exact Hout|exact Hfin].
Defined.

(** C7 (as stated, refuted).  The cycle keeps its coordinates in the
    placing pass, so the centring pass of a second run meets other
    coordinates than that of the first, and every node moves. *)
Lemma autoLayout_twice_differs :
  NoDup (node_id <$> rootAndCycle) ∧
  ∃ once twice,
    autoLayout rootAndCycle = Some once ∧ autoLayout once = Some twice ∧
    same_positions once
      (at_positions rootAndCycle
         [(Fin (-500), Fin 0); (Fin 500, Fin 0); (Fin 500, Fin 0)]) = true ∧
    same_positions twice
      (at_positions rootAndCycle
         [(Fin (-250), Fin 0); (Fin 250, Fin 0); (Fin 250, Fin 0)]) = true ∧
    same_positions once twice = false.
Proof.
  split; [apply (bool_decide_unpack _); by vm_compute|].
  eexists _, _. split; [by vm_compute|]. split; [by vm_compute|].
  split_and!; by vm_compute.
Qed.

(** C7 (amended).  For every node sequence with pairwise distinct ids
    in which every node reaches a root along the parent links, applying
    [autoLayout] to the output of [autoLayout] returns that output. *)
Theorem autoLayout_idempotent (nodes : list NodeT) :
  NoDup (node_id <$> nodes) → is_forest nodes = true →
  ∃ out, autoLayout nodes = Some out ∧ autoLayout out = Some out.
Proof.
  intros Hnd Hforest. unfold autoLayout.
  destruct (plan_roots_total nodes Hnd) as [[ps s] Hrun].
  set (h := apply_writes s.2 nodes).
  assert (frame <$> centre h = frame <$> nodes) as Hframe
    by (unfold h; by rewrite frame_centre, frame_apply_writes).
  exists (centre h). split; [by rewrite autoLayout_plan, Hrun|].
  rewrite autoLayout_plan, (frame_length _ _ Hframe).
  rewrite (plan_roots_frame _ _ _ Hframe), Hrun. simpl. do 2 f_equal.
  apply apply_writes_covering; [done|].
  rewrite (frame_length _ _ Hframe). by eapply plan_roots_covering.
Qed.

Lemma autoLayout_idempotent_witness :
  NoDup (node_id <$> sample) ∧ is_forest sample = true ∧
  ∃ out, autoLayout sample = Some out ∧ autoLayout out = Some out.
Proof.
  assert (NoDup (node_id <$> sample)) as Hnd.
  { apply (bool_decide_unpack _). vm_compute. exact I. }
  split; [exact Hnd|]. split; [reflexivity|].
  exact (autoLayout_idempotent sample Hnd eq_refl).
Defined.

(** The repository's own checks of the layout and of the index. *)
Example autoLayout_sample_positions :
  ∃ out, autoLayout sample = Some out ∧
    same_positions out
      (at_positions sample [(Fin 0, Fin (-45)); (Fin (-60), Fin 45); (Fin 60, Fin 45)])
    = true.
Proof. eexists. split; by vm_compute. Qed.

Example buildChildrenMap_sample :
  roots (buildChildrenMap sample) = [0] ∧
  byParent (buildChildrenMap sample) !! Some "A" = Some [1; 2].
Proof. split; by vm_compute. Qed.

(** * Further properties of the category tree *)

Section category_walks.

Implicit Types (c : Category) (cats : list Category) (id : string).

Lemma subtree_unfold c :
  subtree c = c :: all_categories (children_or_nil c).
Proof. by destruct c as [cid name maps [cs|]]. Qed.

Lemma all_categories_cons c cats :
  all_categories (c :: cats) = subtree c ++ all_categories cats.
Proof. done. Qed.

Lemma all_categories_app cats1 cats2 :
  all_categories (cats1 ++ cats2) = all_categories cats1 ++ all_categories cats2.
Proof. unfold all_categories. by rewrite fmap_app, concat_app. Qed.

Lemma elem_of_all_categories c cats :
  c ∈ all_categories cats ↔ ∃ c0, c0 ∈ cats ∧ c ∈ subtree c0.
Proof.
  induction cats as [|c1 cats IH].
  - split; [by intros ?%elem_of_nil|]. by intros (c0 & ?%elem_of_nil & _).
  - rewrite all_categories_cons, elem_of_app, IH. split.
    + intros [Hc|(c0 & Hc0 & Hc)].
      * exists c1. split; [apply list_elem_of_here|done].
      * exists c0. split; [by apply list_elem_of_further|done].
    + intros (c0 & [->|Hc0]%elem_of_cons & Hc); [by left|right; eauto].
Qed.

Lemma collect_into_unfold c ids :
  collect_into c ids =
    foldl (λ acc c', collect_into c' acc) (ids ++ [cat_id c]) (children_or_nil c).
Proof. by destruct c as [cid name maps [[|c0 cs]|]]. Qed.

Lemma foldl_collect_into cats : ∀ ids,
  Forall (λ c, ∀ ids, collect_into c ids = ids ++ (cat_id <$> subtree c)) cats →
  foldl (λ acc c, collect_into c acc) ids cats
    = ids ++ (cat_id <$> all_categories cats).
Proof.
  induction cats as [|c cats IH]; intros ids Hall; simpl.
  - by rewrite app_nil_r.
  - apply Forall_cons in Hall as [Hc Hall].
    rewrite IH, Hc, all_categories_cons, fmap_app by done. by rewrite (assoc_L (++)).
Qed.

Lemma collect_into_subtree c : ∀ ids,
  collect_into c ids = ids ++ (cat_id <$> subtree c).
Proof.
  induction c as [cid name maps|cid name maps cs IHcs] using Category_induction;
    intros ids; rewrite collect_into_unfold, subtree_unfold; simpl.
  - done.
  - rewrite foldl_collect_into by done. by rewrite <-(assoc_L (++)).
Qed.

Lemma collectCategoryIds_all cats :
  collectCategoryIds cats = cat_id <$> all_categories cats.
Proof.
  unfold collectCategoryIds. rewrite foldl_collect_into; [done|].
  apply Forall_forall. intros c _. apply collect_into_subtree.
Qed.

Lemma head_filter_app {A} (P : A → Prop) `{!∀ x, Decision (P x)} (l1 l2 : list A) :
  head (filter P (l1 ++ l2)) =
    match head (filter P l1) with
    | Some a => Some a
    | None => head (filter P l2)
    end.
Proof. rewrite filter_app. by destruct (filter P l1). Qed.

Lemma first_some_head id cats :
  Forall (λ c, find_in_category id c
                 = head (filter (λ c', cat_id c' = id) (subtree c))) cats →
  first_some (find_in_category id) cats
    = head (filter (λ c', cat_id c' = id) (all_categories cats)).
Proof.
  induction cats as [|c cats IH]; intros Hall; [done|].
  apply Forall_cons in Hall as [Hc Hall]. simpl.
  rewrite all_categories_cons, head_filter_app, <-Hc.
  destruct (find_in_category id c); [done|]. by apply IH.
Qed.

Lemma find_in_category_head id c :
  find_in_category id c = head (filter (λ c', cat_id c' = id) (subtree c)).
Proof.
  induction c as [cid name maps|cid name maps cs IHcs] using Category_induction;
    rewrite find_in_category_unfold, subtree_unfold; simpl;
    rewrite filter_cons; simpl; destruct (decide _); try done.
  unfold findCategoryById. by apply first_some_head.
Qed.

Lemma findCategoryById_head cats id :
  findCategoryById cats id
    = head (filter (λ c, cat_id c = id) (all_categories cats)).
Proof.
  apply first_some_head, Forall_forall. intros c _. apply find_in_category_head.
Qed.

Lemma findCategoryById_is_Some cats id :
  is_Some (findCategoryById cats id) ↔ id ∈ collectCategoryIds cats.
Proof.
  rewrite findCategoryById_head, collectCategoryIds_all, list_elem_of_fmap. split.
  - intros [c Hc]. apply head_Some_elem_of, list_elem_of_filter in Hc as [Hid Hc].
    eauto.
  - intros (c & -> & Hc).
    destruct (filter (λ c', cat_id c' = cat_id c) (all_categories cats)) as [|c' l] eqn:E.
    + assert (c ∈ filter (λ c', cat_id c' = cat_id c) (all_categories cats)) as Hin
        by by apply list_elem_of_filter.
      rewrite E in Hin. by apply elem_of_nil in Hin.
    + by eexists.
Qed.

End category_walks.

(** X1.  [collectCategoryIds] returns the id of every category of the
    tree, each parent before its children and the children in their
    order, and [findCategoryById] returns the first category in that
    order that carries the id; so an id is listed exactly when the
    search finds a category for it. *)
Theorem collectCategoryIds_preorder (cats : list Category) :
  collectCategoryIds cats = cat_id <$> all_categories cats ∧
  ∀ id,
    findCategoryById cats id
      = head (filter (λ c, cat_id c = id) (all_categories cats)) ∧
    (id ∈ collectCategoryIds cats ↔ is_Some (findCategoryById cats id)).
Proof.
  split; [apply collectCategoryIds_all|]. intros id. split.
  - apply findCategoryById_head.
  - symmetry. apply findCategoryById_is_Some.
Qed.

Section category_updates.

Implicit Types (c : Category) (cats : list Category) (id : string)
  (u : Category → Category).

Lemma elem_of_all_categories_fmap (f : Category → Category) c cats :
  c ∈ all_categories (f <$> cats) ↔ ∃ c0, c0 ∈ cats ∧ c ∈ subtree (f c0).
Proof.
  rewrite elem_of_all_categories. split.
  - intros (c1 & (c0 & -> & Hc0)%list_elem_of_fmap & Hc). eauto.
  - intros (c0 & Hc0 & Hc). exists (f c0). split; [|done].
    apply list_elem_of_fmap. eauto.
Qed.

Lemma all_categories_ids_fmap (f : Category → Category) cats :
  Forall (λ c, cat_id <$> subtree (f c) = cat_id <$> subtree c) cats →
  cat_id <$> all_categories (f <$> cats) = cat_id <$> all_categories cats.
Proof.
  induction cats as [|c cats IH]; intros Hall; [done|].
  apply Forall_cons in Hall as [Hc Hall]. rewrite fmap_cons, !all_categories_cons, !fmap_app.
  by rewrite Hc, IH.
Qed.

(** An updater is only ever applied to categories that carry a
    [children] list. *)
Lemma update_category_ext id u u' c :
  (∀ x, is_Some (cat_children x) → u x = u' x) →
  update_category id u c = update_category id u' c.
Proof.
  intros Hext.
  induction c as [cid name maps|cid name maps cs IHcs] using Category_induction;
    rewrite !update_category_unfold; simpl; destruct (decide _);
    try (by apply Hext); try done.
  do 2 f_equal. unfold updateCategory. apply list_fmap_ext.
  intros i c Hc. by apply (proj1 (Forall_lookup _ _) IHcs i).
Qed.

Lemma updateCategory_ext id u u' cats :
  (∀ x, is_Some (cat_children x) → u x = u' x) →
  updateCategory cats id u = updateCategory cats id u'.
Proof.
  intros Hext. unfold updateCategory. apply list_fmap_ext.
  intros i c _. by apply update_category_ext.
Qed.

(** Two updates of the same id are one update with both updaters, the
    second fed with the first one's value. *)
Lemma update_category_compose id u1 u2 c :
  (∀ x, cat_id (u1 x) = cat_id x) →
  update_category id u2 (update_category id u1 c) =
    update_category id
      (λ x, u2 (set_children (Some (children_or_nil (u1 x))) (u1 x))) c.
Proof.
  intros Hid.
  induction c as [cid name maps|cid name maps cs IHcs] using Category_induction;
    rewrite !(update_category_unfold _ _ (mkCategory _ _ _ _)); simpl;
    destruct (decide _) as [Heq|Hne].
  - rewrite update_category_unfold, Hid. simpl. by rewrite decide_True.
  - rewrite update_category_unfold. simpl. by rewrite decide_False.
  - rewrite update_category_unfold, Hid. simpl. by rewrite decide_True.
  - rewrite update_category_unfold. simpl. rewrite decide_False by done.
    unfold set_children. simpl. do 2 f_equal. unfold updateCategory.
    change (children_or_nil (mkCategory cid name maps (Some ?l))) with l.
    rewrite <-list_fmap_compose. apply list_fmap_ext.
    intros i c Hc. by apply (proj1 (Forall_lookup _ _) IHcs i).
Qed.

Lemma updateCategory_compose id u1 u2 cats :
  (∀ x, cat_id (u1 x) = cat_id x) →
  updateCategory (updateCategory cats id u1) id u2 =
    updateCategory cats id
      (λ x, u2 (set_children (Some (children_or_nil (u1 x))) (u1 x))).
Proof.
  intros Hid. unfold updateCategory. rewrite <-list_fmap_compose.
  apply list_fmap_ext. intros i c _. by apply update_category_compose.
Qed.

(** An updater that keeps the id and the children keeps the ids of the
    whole tree. *)
Lemma update_category_ids id u c :
  (∀ x, cat_id (u x) = cat_id x) →
  (∀ x, children_or_nil (u x) = children_or_nil x) →
  cat_id <$> subtree (update_category id u c) = cat_id <$> subtree c.
Proof.
  intros Hid Hch.
  induction c as [cid name maps|cid name maps cs IHcs] using Category_induction;
    rewrite update_category_unfold, !subtree_unfold; simpl;
    destruct (decide _); rewrite ?subtree_unfold, ?Hch, ?fmap_cons, ?Hid; simpl;
    try done.
  f_equal. by apply all_categories_ids_fmap.
Qed.

Lemma updateCategory_ids id u cats :
  (∀ x, cat_id (u x) = cat_id x) →
  (∀ x, children_or_nil (u x) = children_or_nil x) →
  collectCategoryIds (updateCategory cats id u) = collectCategoryIds cats.
Proof.
  intros Hid Hch. rewrite !collectCategoryIds_all. apply all_categories_ids_fmap.
  apply Forall_forall. intros c _. by apply update_category_ids.
Qed.

Lemma upsert_in_category_ids catId doc c :
  cat_id <$> subtree (upsert_in_category catId doc c) = cat_id <$> subtree c.
Proof.
  induction c as [cid name maps|cid name maps cs IHcs] using Category_induction;
    rewrite upsert_in_category_unfold, !subtree_unfold; simpl;
    destruct (decide _); simpl; try done.
  f_equal. by apply all_categories_ids_fmap.
Qed.

Lemma upsertMapInCategories_ids catId doc cats :
  collectCategoryIds (upsertMapInCategories cats catId doc) = collectCategoryIds cats.
Proof.
  rewrite !collectCategoryIds_all. apply all_categories_ids_fmap.
  apply Forall_forall. intros c _. apply upsert_in_category_ids.
Qed.

End category_updates.

(** X2.  Renaming a category, deleting a map, renaming a map and
    storing a map change no category id: the ids that
    [collectCategoryIds] lists before and after are the same, in the
    same order. *)
Theorem map_edits_keep_category_ids (cats : list Category) (catId : string) :
  (∀ mapId,
     collectCategoryIds (deleteMapFromTree cats catId mapId)
       = collectCategoryIds cats) ∧
  (∀ now mapId newName,
     collectCategoryIds (renameMapInTree now cats catId mapId newName)
       = collectCategoryIds cats) ∧
  (∀ newName,
     collectCategoryIds (renameCategoryTree cats catId newName)
       = collectCategoryIds cats) ∧
  (∀ doc,
     collectCategoryIds (upsertMapInCategories cats catId doc)
       = collectCategoryIds cats).
Proof.
  repeat split; intros.
  - by apply updateCategory_ids.
  - by apply updateCategory_ids.
  - by apply updateCategory_ids.
  - apply upsertMapInCategories_ids.
Qed.

Section sub_categories.

Implicit Types (c : Category) (cats : list Category) (id : string).

Variables (fresh name parentId : string).

Lemma add_child_unfold c :
  subtree (update_category parentId
             (λ x, set_children
                     (Some (children_or_nil x ++ [mkCategory fresh name [] (Some [])])) x)
             c) =
    if decide (cat_id c = parentId) then
      set_children
        (Some (children_or_nil c ++ [mkCategory fresh name [] (Some [])])) c
        :: all_categories (children_or_nil c) ++ [mkCategory fresh name [] (Some [])]
    else
      set_children (Some (addSubCategory fresh (children_or_nil c) parentId name)) c
        :: all_categories (addSubCategory fresh (children_or_nil c) parentId name).
Proof.
  rewrite update_category_unfold. destruct (decide _); rewrite subtree_unfold; [|done].
  rewrite !children_or_nil_set, all_categories_app. done.
Qed.

(** Every category of the result is the new child or carries an id of
    the input. *)
Lemma add_child_old_or_new c :
  ∀ c', c' ∈ subtree (update_category parentId
                        (λ x, set_children
                                (Some (children_or_nil x
                                         ++ [mkCategory fresh name [] (Some [])])) x) c) →
    c' = mkCategory fresh name [] (Some []) ∨ cat_id c' ∈ cat_id <$> subtree c.
Proof.
  induction c as [cid nm maps|cid nm maps cs IHcs] using Category_induction;
    intros c'; rewrite add_child_unfold, subtree_unfold; simpl;
    destruct (decide _); simpl.
  - intros [->|[->|?%elem_of_nil]%elem_of_cons]%elem_of_cons;
      [right; apply list_elem_of_here|by left|done].
  - intros [->|?%elem_of_nil]%elem_of_cons; [|done]. right. apply list_elem_of_here.
  - intros [->|[Hc'| ->%list_elem_of_singleton]%elem_of_app]%elem_of_cons.
    + right. apply list_elem_of_here.
    + right. apply list_elem_of_further, list_elem_of_fmap. eauto.
    + by left.
  - intros [->|Hc']%elem_of_cons; [right; apply list_elem_of_here|].
    apply elem_of_all_categories_fmap in Hc' as (c0 & Hc0 & Hc').
    rewrite Forall_forall in IHcs. destruct (IHcs c0 Hc0 c' Hc') as [->|Hid]; [by left|].
    right. apply list_elem_of_further.
    apply list_elem_of_fmap in Hid as (c1 & -> & Hc1).
    apply list_elem_of_fmap. exists c1. split; [done|].
    apply elem_of_all_categories. eauto.
Qed.

(** Every id of the input is an id of the result. *)
Lemma add_child_keeps_ids c :
  ∀ id, id ∈ cat_id <$> subtree c →
    id ∈ cat_id <$> subtree (update_category parentId
                               (λ x, set_children
                                       (Some (children_or_nil x
                                                ++ [mkCategory fresh name [] (Some [])])) x)
                               c).
Proof.
  induction c as [cid nm maps|cid nm maps cs IHcs] using Category_induction;
    intros id; rewrite add_child_unfold, subtree_unfold; simpl;
    destruct (decide _); simpl; rewrite ?fmap_app; simpl.
  - intros [->|?%elem_of_nil]%elem_of_cons; [apply list_elem_of_here|done].
  - intros [->|?%elem_of_nil]%elem_of_cons; [apply list_elem_of_here|done].
  - intros [->|Hid]%elem_of_cons; [apply list_elem_of_here|].
    apply list_elem_of_further, elem_of_app. by left.
  - intros [->|Hid]%elem_of_cons; [apply list_elem_of_here|].
    apply list_elem_of_further.
    apply list_elem_of_fmap in Hid as (c1 & -> & Hc1).
    apply elem_of_all_categories in Hc1 as (c0 & Hc0 & Hc1).
    rewrite Forall_forall in IHcs.
    assert (cat_id c1 ∈ cat_id <$> subtree c0) as Hin
      by (apply list_elem_of_fmap; eauto).
    apply (IHcs c0 Hc0) in Hin. apply list_elem_of_fmap in Hin as (c2 & Heq & Hc2).
    apply list_elem_of_fmap. exists c2. split; [done|].
    apply elem_of_all_categories_fmap. eauto.
Qed.

(** Where the search finds the parent id, the result holds the new
    child. *)
Lemma add_child_present c :
  find_in_category parentId c ≠ None →
  mkCategory fresh name [] (Some [])
    ∈ subtree (update_category parentId
                 (λ x, set_children
                         (Some (children_or_nil x
                                  ++ [mkCategory fresh name [] (Some [])])) x) c).
Proof.
  induction c as [cid nm maps|cid nm maps cs IHcs] using Category_induction;
    rewrite add_child_unfold, find_in_category_unfold; simpl;
    destruct (decide _); simpl; intros Hfind; try done.
  - apply list_elem_of_further, list_elem_of_here.
  - apply list_elem_of_further, elem_of_app. right. apply list_elem_of_here.
  - apply list_elem_of_further, elem_of_all_categories_fmap.
    destruct (findCategoryById cs parentId) as [p|] eqn:E; [|done].
    apply first_some_some in E as (i & c0 & Hc0 & Hf & _).
    exists c0. split; [by eapply list_elem_of_lookup_2|].
    rewrite Forall_forall in IHcs. apply IHcs; [by eapply list_elem_of_lookup_2|].
    by rewrite Hf.
Qed.

End sub_categories.

(** X3.  When the parent id is found and the new id is not yet in the
    tree, [addSubCategory] appends the new, empty category as the last
    child of the category that [findCategoryById] finds for the parent
    id; looking the new id up in the result yields that child, and the
    ids of the result are the old ids and the new one. *)
Theorem addSubCategory_spec (fresh : string) (cats : list Category)
    (parentId name : string) (p : Category) :
  findCategoryById cats parentId = Some p →
  fresh ∉ collectCategoryIds cats →
  let child := mkCategory fresh name [] (Some []) in
  let cats' := addSubCategory fresh cats parentId name in
  (∃ path,
     cat_at path cats = Some p ∧
     cat_at path cats'
       = Some (mkCategory (cat_id p) (cat_name p) (cat_maps p)
                 (Some (children_or_nil p ++ [child])))) ∧
  findCategoryById cats' fresh = Some child ∧
  (∀ id, id ∈ collectCategoryIds cats' ↔ id = fresh ∨ id ∈ collectCategoryIds cats).
Proof.
  intros Hfind Hfresh child cats'.
  assert (∀ c', c' ∈ all_categories cats' →
            c' = child ∨ cat_id c' ∈ collectCategoryIds cats) as Hold.
  { intros c' (c0 & Hc0 & Hc')%elem_of_all_categories_fmap.
    apply add_child_old_or_new in Hc' as [->|Hid]; [by left|]. right.
    rewrite collectCategoryIds_all.
    apply list_elem_of_fmap in Hid as (c1 & -> & Hc1).
    apply list_elem_of_fmap. exists c1. split; [done|].
    apply elem_of_all_categories. eauto. }
  assert (child ∈ all_categories cats') as Hchild.
  { pose proof Hfind as Hf. apply first_some_some in Hf as (i & c0 & Hc0 & Hf & _).
    apply elem_of_all_categories_fmap. exists c0.
    split; [by eapply list_elem_of_lookup_2|].
    apply add_child_present. by rewrite Hf. }
  split; [|split].
  - destruct (findCategoryById_some _ _ _ Hfind) as (Hid & path & Hat & Hout).
    exists path. split; [done|].
    unfold cats', addSubCategory. rewrite (cat_at_update _ _ _ _ _ Hat Hout).
    rewrite update_category_unfold, decide_True by done. done.
  - rewrite findCategoryById_head.
    destruct (filter (λ c, cat_id c = fresh) (all_categories cats')) as [|c' l] eqn:E.
    + assert (child ∈ filter (λ c, cat_id c = fresh) (all_categories cats')) as Hin
        by by apply list_elem_of_filter.
      rewrite E in Hin. by apply elem_of_nil in Hin.
    + assert (c' ∈ filter (λ c, cat_id c = fresh) (all_categories cats')) as Hin
        by (rewrite E; apply list_elem_of_here).
      apply list_elem_of_filter in Hin as [Hid Hin].
      destruct (Hold c' Hin) as [->|Hin']; [done|]. by rewrite Hid in Hin'.
  - intros id. split.
    + rewrite (collectCategoryIds_all cats').
      intros (c' & -> & Hc')%list_elem_of_fmap.
      destruct (Hold c' Hc') as [->|Hin]; [by left|by right].
    + intros [->|Hid].
      * rewrite collectCategoryIds_all. apply list_elem_of_fmap. by exists child.
      * rewrite collectCategoryIds_all in Hid |- *.
        apply list_elem_of_fmap in Hid as (c1 & -> & Hc1).
        apply elem_of_all_categories in Hc1 as (c0 & Hc0 & Hc1).
        assert (cat_id c1 ∈ cat_id <$> subtree c0) as Hin
          by (apply list_elem_of_fmap; eauto).
        apply (add_child_keeps_ids fresh name parentId) in Hin.
        apply list_elem_of_fmap in Hin as (c2 & Heq & Hc2).
        apply list_elem_of_fmap. exists c2. split; [done|].
        apply elem_of_all_categories_fmap. eauto.
Qed.

Lemma addSubCategory_spec_witness :
  let child := mkCategory "n1" "Sub" [] (Some []) in
  findCategoryById (addSubCategory "n1" rootCats "c1" "Sub") "n1" = Some child.
Proof.
  intros child.
  refine (proj1 (proj2 (addSubCategory_spec "n1" rootCats "c1" "Sub"
                          (mkCategory "c1" "Child" [] (Some [])) _ _))).
  - reflexivity.
  - apply (bool_decide_unpack _). vm_compute. exact I.
Defined.

Section map_lists.

Implicit Types (maps : list MindMapDoc) (doc m : MindMapDoc) (c : Category)
  (cats : list Category).

Lemma upsert_map_cases maps doc :
  (∃ i m, maps !! i = Some m ∧ doc_name m = doc_name doc ∧
          upsert_map maps doc = <[i := doc]> maps ∧
          ∀ j m', j < i → maps !! j = Some m' → doc_name m' ≠ doc_name doc) ∨
  ((doc_name doc ∉ doc_name <$> maps) ∧ upsert_map maps doc = doc :: maps).
Proof.
  unfold upsert_map.
  destruct (list_find (λ m, doc_name m = doc_name doc) maps) as [[i m]|] eqn:E.
  - apply list_find_Some in E as (Hi & Hm & Hbefore). left. exists i, m.
    split_and!; try done. intros j m' Hj Hm'. by apply (Hbefore j).
  - apply list_find_None in E. right. split; [|done].
    intros (m & Hm & Hin)%list_elem_of_fmap.
    rewrite Forall_forall in E. by apply (E m).
Qed.

Lemma upsert_map_elem maps doc : doc ∈ upsert_map maps doc.
Proof.
  destruct (upsert_map_cases maps doc) as [(i & m & Hi & _ & -> & _)|[_ ->]].
  - apply list_elem_of_lookup. exists i. apply list_lookup_insert_eq.
    by eapply lookup_lt_Some.
  - apply list_elem_of_here.
Qed.

Lemma upsert_map_names maps doc :
  doc_name <$> upsert_map maps doc =
    if decide (doc_name doc ∈ doc_name <$> maps) then doc_name <$> maps
    else doc_name doc :: (doc_name <$> maps).
Proof.
  destruct (upsert_map_cases maps doc) as [(i & m & Hi & Hm & -> & _)|[Hnone ->]].
  - rewrite decide_True.
    + rewrite list_fmap_insert. apply list_insert_id.
      by rewrite list_lookup_fmap, Hi, <-Hm.
    + apply list_elem_of_fmap. exists m. split; [done|by eapply list_elem_of_lookup_2].
  - by rewrite decide_False.
Qed.

Lemma upsert_map_idem maps doc :
  upsert_map (upsert_map maps doc) doc = upsert_map maps doc.
Proof.
  destruct (upsert_map_cases maps doc) as [(i & m & Hi & Hm & -> & Hbefore)|[Hnone ->]].
  - rewrite (upsert_map_replace _ doc i doc).
    + apply list_insert_insert_eq.
    + apply list_lookup_insert_eq. by eapply lookup_lt_Some.
    + done.
    + intros j m' Hj. rewrite list_lookup_insert_ne by lia. by apply Hbefore.
  - rewrite (upsert_map_replace _ doc 0 doc); try done. intros j m' Hj. lia.
Qed.

Lemma upsert_in_category_idem catId doc c :
  upsert_in_category catId doc (upsert_in_category catId doc c)
    = upsert_in_category catId doc c.
Proof.
  induction c as [cid name maps|cid name maps cs IHcs] using Category_induction;
    rewrite !(upsert_in_category_unfold _ _ (mkCategory _ _ _ _)); simpl;
    destruct (decide _) as [Heq|Hne];
    rewrite upsert_in_category_unfold; simpl;
    rewrite ?decide_True, ?decide_False by done; try done.
  - unfold set_maps. simpl. by rewrite upsert_map_idem.
  - unfold set_maps. simpl. by rewrite upsert_map_idem.
  - unfold set_children. simpl. do 2 f_equal. unfold upsertMapInCategories.
    rewrite <-list_fmap_compose. apply list_fmap_ext.
    intros i c Hc. by apply (proj1 (Forall_lookup _ _) IHcs i).
Qed.

(** The names after a renaming: the renamed maps bear the new name,
    which no other map bears. *)
Lemma rename_names_NoDup maps mapId name now :
  NoDup (doc_id <$> maps) → NoDup (doc_name <$> maps) →
  name_used (filter (λ m, doc_id m ≠ mapId) maps) name = false →
  NoDup (doc_name <$>
           ((λ m, if decide (doc_id m = mapId) then set_doc_name name now m else m)
              <$> maps)).
Proof.
  intros Hids Hnames Hfree.
  assert (∀ m, m ∈ maps → doc_id m ≠ mapId → doc_name m ≠ name) as Hsib.
  { intros m Hin Hid Hname.
    assert (name_used (filter (λ m, doc_id m ≠ mapId) maps) name = true) as Hused.
    { apply name_used_true, list_elem_of_fmap. exists m. split; [done|].
      by apply list_elem_of_filter. }
    by rewrite Hfree in Hused. }
  apply NoDup_alt. intros i j x. rewrite !list_lookup_fmap.
  destruct (maps !! i) as [mi|] eqn:Ei; [|done].
  destruct (maps !! j) as [mj|] eqn:Ej; [|done]. simpl.
  intros [= Hi] [= Hj].
  destruct (decide (doc_id mi = mapId)) as [Hmi|Hmi],
    (decide (doc_id mj = mapId)) as [Hmj|Hmj]; simpl in *.
  - apply (proj1 (NoDup_alt _) Hids i j mapId);
      rewrite list_lookup_fmap; [by rewrite Ei, <-Hmi|by rewrite Ej, <-Hmj].
  - exfalso. apply (Hsib mj); [by eapply list_elem_of_lookup_2|done|congruence].
  - exfalso. apply (Hsib mi); [by eapply list_elem_of_lookup_2|done|congruence].
  - apply (proj1 (NoDup_alt _) Hnames i j x);
      rewrite list_lookup_fmap; [by rewrite Ei, <-Hi|by rewrite Ej, <-Hj].
Qed.

End map_lists.

(** X4.  For the category that [findCategoryById] finds for the id,
    [deleteMapFromTree] keeps the id, the name and the children and
    keeps exactly the maps whose id is not the given one, in their
    order: no map with that id is left, and no other map is lost. *)
Theorem deleteMapFromTree_spec (cats : list Category) (catId mapId : string)
    (c : Category) :
  findCategoryById cats catId = Some c →
  ∃ path c',
    cat_at path cats = Some c ∧
    cat_at path (deleteMapFromTree cats catId mapId) = Some c' ∧
    cat_id c' = cat_id c ∧ cat_name c' = cat_name c ∧
    cat_children c' = Some (children_or_nil c) ∧
    cat_maps c' = filter (λ m, doc_id m ≠ mapId) (cat_maps c) ∧
    cat_maps c' `sublist_of` cat_maps c ∧
    (∀ m, m ∈ cat_maps c' ↔ m ∈ cat_maps c ∧ doc_id m ≠ mapId).
Proof.
  intros Hfind.
  apply findCategoryById_some in Hfind as (Hid & path & Hat & Hout).
  exists path. eexists. split; [done|]. split.
  { unfold deleteMapFromTree. rewrite (cat_at_update _ _ _ _ _ Hat Hout).
    by rewrite update_category_unfold, decide_True. }
  simpl. split_and!; try done.
  - apply sublist_filter.
  - intros m. rewrite list_elem_of_filter. tauto.
Qed.

Lemma deleteMapFromTree_spec_witness :
  ∃ path c',
    cat_at path fakeCats = Some (mkCategory "cat2" "C2" [mkDoc "m1" "MapA" [] (Fin 1)] (Some [])) ∧
    cat_at path (deleteMapFromTree fakeCats "cat2" "m1") = Some c' ∧
    cat_maps c' = [].
Proof.
  destruct (deleteMapFromTree_spec fakeCats "cat2" "m1"
              (mkCategory "cat2" "C2" [mkDoc "m1" "MapA" [] (Fin 1)] (Some []))
              eq_refl)
    as (path & c' & H1 & H2 & _ & _ & _ & H3 & _).
  exists path, c'. split; [exact H1|]. split; [exact H2|]. exact H3.
Defined.

(** X5.  Deleting the same map twice is deleting it once, and two
    deletions in one category give the same tree in either order. *)
Theorem deleteMapFromTree_idempotent_commutes (cats : list Category)
    (catId m1 m2 : string) :
  deleteMapFromTree (deleteMapFromTree cats catId m1) catId m1
    = deleteMapFromTree cats catId m1 ∧
  deleteMapFromTree (deleteMapFromTree cats catId m1) catId m2
    = deleteMapFromTree (deleteMapFromTree cats catId m2) catId m1.
Proof.
  unfold deleteMapFromTree. rewrite !updateCategory_compose by done. split.
  - apply updateCategory_ext. intros [cid name maps children] [cs Hcs]. simpl in Hcs. subst children. simpl.
    unfold set_maps, set_children. simpl. f_equal.
    apply list_filter_filter_l. done.
  - apply updateCategory_ext. intros [cid name maps children] [cs Hcs]. simpl in Hcs. subst children. simpl.
    unfold set_maps, set_children. simpl. f_equal.
    rewrite !list_filter_filter. apply list_filter_iff. intros m. tauto.
Qed.

(** X6.  For the category that [findCategoryById] finds for the id,
    [renameCategoryTree] sets the name to the trimmed new name, or to
    ["(unnamed)"] when nothing is left of it, and keeps the id, the maps
    and the children.  A second renaming of the same id overrides the
    first. *)
Theorem renameCategoryTree_spec (cats : list Category) (id newName : string)
    (c : Category) :
  findCategoryById cats id = Some c →
  ∃ t, trimmed_of newName t ∧
    (∃ path,
       cat_at path cats = Some c ∧
       cat_at path (renameCategoryTree cats id newName)
         = Some (mkCategory (cat_id c) (if decide (t = "") then "(unnamed)" else t)
                   (cat_maps c) (Some (children_or_nil c)))) ∧
    ∀ other,
      renameCategoryTree (renameCategoryTree cats id other) id newName
        = renameCategoryTree cats id newName.
Proof.
  intros Hfind.
  apply findCategoryById_some in Hfind as (Hid & path & Hat & Hout).
  exists (Js.trim newName). split; [apply trim_spec|]. split.
  - exists path. split; [done|].
    unfold renameCategoryTree. rewrite (cat_at_update _ _ _ _ _ Hat Hout).
    by rewrite update_category_unfold, decide_True.
  - intros other. unfold renameCategoryTree.
    rewrite updateCategory_compose by done.
    apply updateCategory_ext. intros [cid name maps children] [cs Hcs].
    simpl in Hcs. by subst children.
Qed.

Lemma renameCategoryTree_spec_witness :
  ∃ t, trimmed_of "  New  " t ∧
    ∃ path,
      cat_at path rootCats = Some (mkCategory "c1" "Child" [] (Some [])) ∧
      cat_at path (renameCategoryTree rootCats "c1" "  New  ")
        = Some (mkCategory "c1" (if decide (t = "") then "(unnamed)" else t)
                  [] (Some [])).
Proof.
  destruct (renameCategoryTree_spec rootCats "c1" "  New  "
              (mkCategory "c1" "Child" [] (Some [])) eq_refl)
    as (t & Ht & (path & H1 & H2) & _).
  exists t. split; [exact Ht|]. exists path. split; [exact H1|exact H2].
Defined.

(** X7.  For the category that [findCategoryById] finds for the id,
    [upsertMapInCategories] leaves [doc] among the maps; the names of
    the maps are the old names, with the name of [doc] put in front when
    it was not among them; and names that were pairwise distinct stay
    so. *)
Theorem upsertMapInCategories_names (cats : list Category) (catId : string)
    (doc : MindMapDoc) (c : Category) :
  findCategoryById cats catId = Some c →
  ∃ path c',
    cat_at path cats = Some c ∧
    cat_at path (upsertMapInCategories cats catId doc) = Some c' ∧
    doc ∈ cat_maps c' ∧
    map_names c' =
      (if decide (doc_name doc ∈ map_names c) then map_names c
       else doc_name doc :: map_names c) ∧
    (NoDup (map_names c) → NoDup (map_names c')).
Proof.
  intros Hfind.
  apply findCategoryById_some in Hfind as (Hid & path & Hat & Hout).
  exists path. eexists. split; [done|]. split.
  { rewrite (cat_at_upsert _ _ _ _ _ Hat Hout).
    by rewrite upsert_in_category_unfold, decide_True. }
  unfold map_names. simpl. split_and!.
  - apply upsert_map_elem.
  - apply upsert_map_names.
  - intros Hnd. rewrite upsert_map_names. destruct (decide _); [done|].
    by apply NoDup_cons.
Qed.

Lemma upsertMapInCategories_names_witness :
  ∃ path c',
    cat_at path (upsertMapInCategories fakeCats "cat2" (mkDoc "m9" "MapA" [] (Fin 2)))
      = Some c' ∧
    map_names c' = ["MapA"] ∧ NoDup (map_names c').
Proof.
  destruct (upsertMapInCategories_names fakeCats "cat2" (mkDoc "m9" "MapA" [] (Fin 2))
              (mkCategory "cat2" "C2" [mkDoc "m1" "MapA" [] (Fin 1)] (Some []))
              eq_refl)
    as (path & c' & _ & H2 & _ & H3 & H4).
  exists path, c'. split; [exact H2|]. split; [exact H3|]. apply H4.
  apply (bool_decide_unpack _). vm_compute. exact I.
Defined.

(** X8.  Storing the same map a second time changes nothing:
    [upsertMapInCategories] is idempotent. *)
Theorem upsertMapInCategories_idempotent (cats : list Category) (catId : string)
    (doc : MindMapDoc) :
  upsertMapInCategories (upsertMapInCategories cats catId doc) catId doc
    = upsertMapInCategories cats catId doc.
Proof.
  unfold upsertMapInCategories. rewrite <-list_fmap_compose.
  apply list_fmap_ext. intros i c _. apply upsert_in_category_idem.
Qed.

(** X9.  In a category whose maps have pairwise distinct ids and
    pairwise distinct names, [renameMapInTree] keeps both: the ids are
    unchanged and the names are still pairwise distinct, whatever name
    was asked for. *)
Theorem renameMapInTree_keeps_names_distinct (now : number) (cats : list Category)
    (catId mapId newName : string) (c : Category) :
  findCategoryById cats catId = Some c →
  NoDup (doc_id <$> cat_maps c) →
  NoDup (map_names c) →
  ∃ path c',
    cat_at path cats = Some c ∧
    cat_at path (renameMapInTree now cats catId mapId newName) = Some c' ∧
    doc_id <$> cat_maps c' = doc_id <$> cat_maps c ∧
    NoDup (map_names c').
Proof.
  intros Hfind Hids Hnames.
  apply findCategoryById_some in Hfind as (Hid & path & Hat & Hout).
  exists path. eexists. split; [done|]. split.
  { unfold renameMapInTree. rewrite (cat_at_update _ _ _ _ _ Hat Hout).
    by rewrite update_category_unfold, decide_True. }
  unfold map_names, rename_map_in. simpl. split.
  - rewrite <-list_fmap_compose. apply list_fmap_ext. intros i m _. simpl.
    by destruct (decide _).
  - apply rename_names_NoDup; [done|done|]. apply uniqueMapName_fresh.
Qed.

Lemma renameMapInTree_keeps_names_distinct_witness :
  ∃ path c',
    cat_at path (renameMapInTree (Fin 5) catsForRename "cx" "m2" " Map ") = Some c' ∧
    NoDup (map_names c').
Proof.
  destruct (renameMapInTree_keeps_names_distinct (Fin 5) catsForRename "cx" "m2" " Map "
              (mkCategory "cx" "C"
                 [mkDoc "m1" "Map" [] (Fin 0); mkDoc "m2" "Map (2)" [] (Fin 0)]
                 (Some [])))
    as (path & c' & _ & H2 & _ & H3).
  - reflexivity.
  - apply (bool_decide_unpack _). vm_compute. exact I.
  - apply (bool_decide_unpack _). vm_compute. exact I.
  - exists path, c'. split; [exact H2|exact H3].
Defined.



(** * Deleting a node *)

Section delete_facts.

Variable nodes : list NodeT.
Variable top : string.

Implicit Types (acc : gset string * bool) (n : NodeT) (l : list NodeT)
  (D : gset string).

Lemma sweep_node_cases acc n :
  (∃ p, parent_key n = Some p ∧ p ∈ acc.1 ∧ (node_id n ∉ acc.1) ∧
        sweep_node acc n = ({[node_id n]} ∪ acc.1, true)) ∨
  (sweep_node acc n = acc ∧
   ∀ p, parent_key n = Some p → p ∈ acc.1 → node_id n ∈ acc.1).
Proof.
  unfold sweep_node, parent_key, falsy.
  destruct (node_parentId n) as [p|]; [|by right].
  destruct (decide (node_id n ∈ acc.1)) as [Hin|Hin].
  { right. rewrite (bool_decide_eq_false_2 (node_id n ∉ acc.1)) by tauto. done. }
  rewrite (bool_decide_eq_true_2 (node_id n ∉ acc.1)) by done.
  destruct (decide (p = "")) as [->|Hp].
  { right. rewrite !bool_decide_eq_true_2 by done. done. }
  rewrite (bool_decide_eq_false_2 (p = "")) by done.
  destruct (decide (p ∈ acc.1)) as [Hpin|Hpin].
  - left. exists p. by rewrite bool_decide_eq_true_2 by done.
  - right. rewrite bool_decide_eq_false_2 by done. split; [done|].
    by intros ? [= ->].
Qed.

Lemma foldl_sweep_mono l : ∀ acc,
  acc.1 ⊆ (foldl sweep_node acc l).1 ∧
  (acc.2 = true → (foldl sweep_node acc l).2 = true).
Proof.
  induction l as [|n l IH]; intros acc; simpl; [done|].
  destruct (IH (sweep_node acc n)) as [Hsub Hflag].
  destruct (sweep_node_cases acc n) as [(p & _ & _ & _ & E)|[E _]];
    rewrite E in Hsub, Hflag |- *; simpl in *.
  - split; [|intros _; by apply Hflag].
    etrans; [apply union_subseteq_r|exact Hsub].
  - done.
Qed.

Lemma foldl_sweep_sound l : ∀ acc,
  (∀ n, n ∈ l → n ∈ nodes) →
  (∀ id, id ∈ acc.1 → hangs_below nodes top id) →
  ∀ id, id ∈ (foldl sweep_node acc l).1 → hangs_below nodes top id.
Proof.
  induction l as [|n l IH]; intros acc Hl Hacc; simpl; [done|].
  apply IH; [intros n' Hn'; by apply Hl, list_elem_of_further|].
  destruct (sweep_node_cases acc n) as [(p & Hp & Hpin & _ & E)|[E _]];
    rewrite E; simpl; [|done].
  intros id [->%elem_of_singleton|Hid]%elem_of_union; [|by apply Hacc].
  eapply hangs_child; [apply Hl, list_elem_of_here|done|by apply Hacc].
Qed.

Lemma foldl_sweep_bound l : ∀ acc,
  (foldl sweep_node acc l).1 ⊆ acc.1 ∪ list_to_set (node_id <$> l).
Proof.
  induction l as [|n l IH]; intros acc.
  - apply union_subseteq_l.
  - rewrite fmap_cons, list_to_set_cons. simpl.
    pose proof (IH (sweep_node acc n)) as Hsub. clear IH.
    destruct (sweep_node_cases acc n) as [(p & _ & _ & _ & E)|[E _]];
      rewrite E in Hsub |- *; simpl in *;
      intros id Hid; apply Hsub in Hid; revert Hid;
      rewrite !elem_of_union; tauto.
Qed.

(** A sweep that leaves the flag down has changed nothing, and has met
    no node that it would take. *)
Lemma foldl_sweep_unchanged l : ∀ acc,
  (foldl sweep_node acc l).2 = false →
  foldl sweep_node acc l = acc ∧
  ∀ n p, n ∈ l → parent_key n = Some p → p ∈ acc.1 → node_id n ∈ acc.1.
Proof.
  induction l as [|n l IH]; intros acc Hflag; simpl in *.
  - split; [done|]. intros n p Hn. by apply elem_of_nil in Hn.
  - destruct (sweep_node_cases acc n) as [(p & _ & _ & _ & E)|[E Hn]].
    + rewrite E in Hflag.
      destruct (foldl_sweep_mono l ({[node_id n]} ∪ acc.1, true)) as [_ Ht].
      rewrite Ht in Hflag by done. done.
    + rewrite E in Hflag |- *. destruct (IH acc Hflag) as [Heq Hl].
      split; [done|]. intros n' p [->|Hn']%elem_of_cons; [apply Hn|by apply Hl].
Qed.

(** A sweep that raises the flag has taken a node. *)
Lemma foldl_sweep_changed l : ∀ acc,
  (foldl sweep_node acc l).2 = true →
  acc.2 = true ∨ size acc.1 < size (foldl sweep_node acc l).1.
Proof.
  induction l as [|n l IH]; intros acc Hflag; simpl in *; [by left|].
  destruct (sweep_node_cases acc n) as [(p & _ & _ & Hnew & E)|[E _]].
  - right. rewrite E.
    destruct (foldl_sweep_mono l ({[node_id n]} ∪ acc.1, true)) as [Hsub _].
    simpl in Hsub. apply subseteq_size in Hsub.
    rewrite size_union, size_singleton in Hsub; [lia|].
    by apply disjoint_singleton_l.
  - rewrite E in Hflag |- *. by apply IH.
Qed.

Lemma size_list_to_set_le (l : list string) :
  size (list_to_set l : gset string) ≤ length l.
Proof.
  induction l as [|x l IH]; [by rewrite list_to_set_nil, size_empty|].
  rewrite list_to_set_cons, size_union_alt, size_singleton. simpl.
  assert (size (list_to_set l ∖ {[x]} : gset string) ≤ size (list_to_set l : gset string))
    as Hle.
  { apply subseteq_size. intros y Hy. apply elem_of_difference in Hy as [Hy _]. exact Hy. }
  lia.
Qed.

Lemma sweep_within D :
  D ⊆ list_to_set (node_id <$> nodes) →
  (sweep nodes D).1 ⊆ list_to_set (node_id <$> nodes).
Proof.
  intros HD. pose proof (foldl_sweep_bound nodes (D, false)) as Hb.
  unfold sweep. simpl in Hb. etrans; [exact Hb|]. by apply union_least.
Qed.

Lemma cascade_total fuel : ∀ D,
  D ⊆ list_to_set (node_id <$> nodes) →
  size (list_to_set (node_id <$> nodes) : gset string) < fuel + size D →
  is_Some (cascade fuel nodes D).
Proof.
  induction fuel as [|fuel IH]; intros D HD Hsize.
  - apply subseteq_size in HD. lia.
  - simpl. destruct (sweep nodes D).2 eqn:Hflag; [|by eexists].
    apply IH; [by apply sweep_within|].
    apply (foldl_sweep_changed nodes (D, false)) in Hflag as [?|Hlt]; [done|].
    unfold sweep. simpl in Hlt. lia.
Qed.

Lemma cascade_spec fuel : ∀ D D',
  top ∈ D → (∀ id, id ∈ D → hangs_below nodes top id) →
  cascade fuel nodes D = Some D' →
  ∀ id, id ∈ D' ↔ hangs_below nodes top id.
Proof.
  induction fuel as [|fuel IH]; intros D D' Htop Hsound; simpl; [done|].
  assert (∀ id, id ∈ (sweep nodes D).1 → hangs_below nodes top id) as Hsound'
    by by apply (foldl_sweep_sound nodes (D, false)).
  assert (top ∈ (sweep nodes D).1) as Htop'
    by by apply (foldl_sweep_mono nodes (D, false)).
  destruct (sweep nodes D).2 eqn:Hflag.
  - by apply IH.
  - intros [= <-] id. split; [apply Hsound'|].
    apply (foldl_sweep_unchanged nodes (D, false)) in Hflag as [Heq Hclosed].
    unfold sweep. rewrite Heq. simpl in *.
    induction 1 as [|n p Hn Hp _ IHp]; [done|]. by apply (Hclosed n p).
Qed.

End delete_facts.

Section delete_cases.

Variable nodes : list NodeT.

Lemma deleteNode_none : deleteNode nodes None = Some nodes.
Proof.
  unfold deleteNode, deleteNode_fuel.
  destruct (list_find _ nodes) as [[i n]|] eqn:E; [|done].
  by apply list_find_Some in E as (_ & ? & _).
Qed.

Lemma deleteNode_not_found sel :
  sel ∉ node_id <$> nodes → deleteNode nodes (Some sel) = Some nodes.
Proof.
  intros Hnot. unfold deleteNode, deleteNode_fuel.
  destruct (list_find _ nodes) as [[i n]|] eqn:E; [|done].
  apply list_find_Some in E as (Hi & [= Hn] & _). exfalso. apply Hnot.
  apply list_elem_of_fmap. exists n. split; [done|by eapply list_elem_of_lookup_2].
Qed.

Lemma deleteNode_found sel :
  sel ∈ node_id <$> nodes →
  ∃ toDelete : gset string,
    deleteNode nodes (Some sel)
      = Some (filter (λ n, node_id n ∉ toDelete) nodes) ∧
    ∀ id, id ∈ toDelete ↔ hangs_below nodes sel id.
Proof.
  intros Hin. unfold deleteNode, deleteNode_fuel.
  destruct (list_find _ nodes) as [[i n]|] eqn:E.
  - apply list_find_Some in E as (Hi & [= Hn] & _). rewrite Hn.
    destruct (cascade_total nodes (S (length nodes)) {[sel]}) as [D HD].
    { apply singleton_subseteq_l, elem_of_list_to_set. done. }
    { rewrite size_singleton. pose proof (size_list_to_set_le (node_id <$> nodes)) as Hle.
      rewrite length_fmap in Hle. lia. }
    exists D. rewrite HD. simpl. split; [done|].
    apply (cascade_spec nodes sel (S (length nodes)) {[sel]} D);
      [by apply elem_of_singleton| |done].
    intros id ->%elem_of_singleton. constructor.
  - apply list_find_None in E. exfalso.
    apply list_elem_of_fmap in Hin as (n & -> & Hn).
    rewrite Forall_forall in E. by apply (E n).
Qed.

End delete_cases.

(** X11.  [deleteNode] ends for every node list, cyclic parent links
    included.  With a selected id that some node carries it removes
    exactly the nodes whose id is the selected one or hangs below it
    along the parent links, and keeps the others in their order, so no
    node that stays has a parent link to a removed id.  With no
    selection, or a selected id that no node carries, the list is
    unchanged. *)
Theorem deleteNode_spec (nodes : list NodeT) :
  deleteNode nodes None = Some nodes ∧
  ∀ sel,
    if decide (sel ∈ node_id <$> nodes) then
      ∃ toDelete : gset string,
        deleteNode nodes (Some sel)
          = Some (filter (λ n, node_id n ∉ toDelete) nodes) ∧
        (∀ id, id ∈ toDelete ↔ hangs_below nodes sel id) ∧
        (∀ n p, n ∈ filter (λ n, node_id n ∉ toDelete) nodes →
                parent_key n = Some p → p ∉ toDelete)
    else deleteNode nodes (Some sel) = Some nodes.
Proof.
  split; [apply deleteNode_none|]. intros sel.
  destruct (decide (sel ∈ node_id <$> nodes)) as [Hin|Hnot];
    [|by apply deleteNode_not_found].
  destruct (deleteNode_found nodes sel Hin) as (D & Hrun & Hspec).
  exists D. split; [done|]. split; [done|].
  intros n' p [Hkeep Hn']%list_elem_of_filter Hp Hpin. apply Hkeep.
  apply Hspec. eapply hangs_child; [done|done|]. by apply Hspec.
Qed.

(** X12.  [deleteNode] orphans no node: it returns a sublist of the
    nodes in which every parent link that was the id of a node is still
    the id of a node, and in which no node carries the selected id. *)
Theorem deleteNode_no_orphans (nodes : list NodeT) (selectedId : option string) :
  ∃ out,
    deleteNode nodes selectedId = Some out ∧
    out `sublist_of` nodes ∧
    (∀ n p, n ∈ out → parent_key n = Some p →
       p ∈ node_id <$> nodes → p ∈ node_id <$> out) ∧
    (∀ sel, selectedId = Some sel → sel ∉ node_id <$> out).
Proof.
  destruct selectedId as [sel|].
  2:{ exists nodes. by rewrite deleteNode_none. }
  destruct (decide (sel ∈ node_id <$> nodes)) as [Hin|Hnot].
  2:{ exists nodes. rewrite deleteNode_not_found by done.
      split_and!; try done. by intros ? [= <-]. }
  destruct (deleteNode_found nodes sel Hin) as (D & Hrun & Hspec).
  eexists. split; [exact Hrun|]. split_and!.
  - apply sublist_filter.
  - intros n p [Hkeep Hn]%list_elem_of_filter Hp (m & -> & Hm)%list_elem_of_fmap.
    apply list_elem_of_fmap. exists m. split; [done|].
    apply list_elem_of_filter. split; [|done].
    intros Hdel. apply Hkeep, Hspec.
    eapply hangs_child; [done|done|]. by apply Hspec.
  - intros s [= <-] (m & Hs & [Hkeep _]%list_elem_of_filter)%list_elem_of_fmap.
    apply Hkeep, Hspec. rewrite <-Hs. constructor.
Qed.

(** Deleting "A" from the sample leaves nothing, deleting "B" leaves
    the other two nodes, and deleting one node of a parent cycle removes
    the cycle and leaves the root. *)
Example deleteNode_samples :
  deleteNode sample (Some "A") = Some [] ∧
  node_id <$> default [] (deleteNode sample (Some "B")) = ["A"; "C"] ∧
  node_id <$> default [] (deleteNode rootAndCycle (Some "A")) = ["R"].
Proof. by vm_compute. Qed.

(** * The index and the edges *)

Section edge_facts.

Implicit Types (nodes : list NodeT) (os : list (ref * NodeT))
  (m : gmap string ref) (p : string) (r : ref).

Lemma foldl_node_index_Some os : ∀ m p r,
  foldl (λ m o, <[node_id o.2 := o.1]> m) m os !! p = Some r →
  m !! p = Some r ∨ ∃ o, o ∈ os ∧ o.1 = r ∧ node_id o.2 = p.
Proof.
  induction os as [|o os IH]; intros m p r; simpl; [by left|].
  intros [Hm|(o' & Ho' & Hr & Hp)]%IH.
  - apply lookup_insert_Some in Hm as [[Hp Hr]|[_ Hm]]; [|by left].
    right. exists o. split; [apply list_elem_of_here|done].
  - right. exists o'. split; [by apply list_elem_of_further|done].
Qed.

Lemma foldl_node_index_is_Some os : ∀ m p,
  is_Some (m !! p) ∨ (∃ o, o ∈ os ∧ node_id o.2 = p) →
  is_Some (foldl (λ m o, <[node_id o.2 := o.1]> m) m os !! p).
Proof.
  induction os as [|o os IH]; intros m p; simpl.
  - intros [Hm|(o & Ho & _)]; [done|by apply elem_of_nil in Ho].
  - intros [Hm|(o' & [->|Ho']%elem_of_cons & Hp)]; apply IH.
    + left. destruct (decide (node_id o.2 = p)) as [<-|Hne].
      * rewrite lookup_insert_eq. by eexists.
      * by rewrite lookup_insert_ne.
    + left. rewrite <-Hp, lookup_insert_eq. by eexists.
    + right. eauto.
Qed.

Lemma node_index_Some nodes p r :
  node_index nodes !! p = Some r →
  ∃ n, nodes !! r = Some n ∧ node_id n = p.
Proof.
  intros [Hm|([r' n] & Ho & Hr & Hp)]%foldl_node_index_Some; [done|].
  simpl in *. subst. exists n. split; [|done]. by apply elem_of_objects.
Qed.

Lemma node_index_is_Some nodes p :
  is_Some (node_index nodes !! p) ↔ p ∈ node_id <$> nodes.
Proof.
  split.
  - intros [r (n & Hn & <-)%node_index_Some].
    apply list_elem_of_fmap. exists n. split; [done|by eapply list_elem_of_lookup_2].
  - intros (n & -> & Hn)%list_elem_of_fmap.
    apply list_elem_of_lookup in Hn as [r Hr].
    apply foldl_node_index_is_Some. right. exists (r, n).
    split; [by apply elem_of_objects|done].
Qed.

Lemma foldl_push_edge m os : ∀ out,
  foldl (push_edge m) out os = out ++ omap (edge_for m) os.
Proof.
  induction os as [|o os IH]; intros out; simpl; [by rewrite app_nil_r|].
  rewrite IH. unfold push_edge. destruct (edge_for m o); [|done].
  by rewrite <-(assoc_L (++)).
Qed.

Lemma edge_for_Some m o e :
  edge_for m o = Some e →
  ∃ p, node_parentId o.2 = Some p ∧ p ≠ "" ∧ m !! p = Some (edge_from e) ∧
       edge_to e = o.1 ∧ edge_id e = p +:+ "_" +:+ node_id o.2.
Proof.
  unfold edge_for. destruct (node_parentId o.2) as [p|]; [|done].
  destruct (decide (p = "")) as [->|Hp]; [by rewrite bool_decide_eq_true_2|].
  rewrite bool_decide_eq_false_2 by done.
  destruct (m !! p) as [r|] eqn:Em; [|done]. intros [= <-]. exists p.
  simpl. by rewrite Em.
Qed.

Lemma edge_to_omap m os :
  edge_to <$> omap (edge_for m) os
    = (filter (λ o, is_Some (edge_for m o)) os).*1.
Proof.
  induction os as [|o os IH]; [done|]. simpl. rewrite filter_cons.
  destruct (edge_for m o) as [e|] eqn:E.
  - rewrite decide_True by by eexists. simpl. f_equal; [|exact IH].
    by apply edge_for_Some in E as (p & _ & _ & _ & -> & _).
  - rewrite decide_False by by intros [? ?]. done.
Qed.

Lemma edge_for_iff_not_root nodes r n :
  nodes !! r = Some n →
  is_Some (edge_for (node_index nodes) (r, n)) ↔
  r ∉ roots (buildChildrenMap nodes).
Proof.
  intros Hr. rewrite elem_of_roots. unfold edge_for, falsy. simpl. split.
  - intros Hsome (n' & Hr' & Hroot). assert (n' = n) as -> by congruence.
    destruct (node_parentId n) as [p|]; [|by destruct Hsome].
    destruct (decide (p = "")) as [->|Hp].
    { rewrite bool_decide_eq_true_2 in Hsome by done. by destruct Hsome. }
    rewrite bool_decide_eq_false_2 in Hsome, Hroot by done.
    destruct Hroot as [?|(p' & [= <-] & Hnone)]; [done|].
    apply Hnone, node_index_is_Some. by apply fmap_is_Some in Hsome.
  - intros Hnot. destruct (node_parentId n) as [p|] eqn:Ep.
    + destruct (decide (p = "")) as [->|Hp].
      { exfalso. apply Hnot. exists n. split; [done|]. left.
        rewrite Ep. by rewrite bool_decide_eq_true_2. }
      rewrite bool_decide_eq_false_2 by done. apply fmap_is_Some.
      apply node_index_is_Some. destruct (decide (p ∈ node_id <$> nodes)); [done|].
      exfalso. apply Hnot. exists n. split; [done|]. right. rewrite Ep. eauto.
    + exfalso. apply Hnot. exists n. split; [done|]. left. by rewrite Ep.
Qed.

Lemma length_filter_split {A} (P : A → Prop) `{!∀ x, Decision (P x)} (l : list A) :
  length (filter P l) + length (filter (λ x, ¬ P x) l) = length l.
Proof.
  induction l as [|x l IH]; [done|]. rewrite !filter_cons.
  destruct (decide (P x)); simpl.
  - rewrite decide_False by tauto. lia.
  - rewrite decide_True by done. simpl. lia.
Qed.

Lemma edge_targets nodes :
  edge_to <$> edges nodes
    = filter (λ r, r ∉ roots (buildChildrenMap nodes)) (seq 0 (length nodes)).
Proof.
  unfold edges. rewrite foldl_push_edge. simpl. rewrite edge_to_omap.
  rewrite <-objects_fst, <-filter_fmap_fst. f_equal.
  apply filter_ext_in. intros [r n] Ho. simpl.
  apply edge_for_iff_not_root. by apply elem_of_objects.
Qed.

Lemma roots_length nodes :
  length (roots (buildChildrenMap nodes))
    = length (filter (λ r, r ∈ roots (buildChildrenMap nodes)) (seq 0 (length nodes))).
Proof.
  apply Permutation_length, NoDup_Permutation.
  - apply roots_NoDup.
  - apply NoDup_filter, NoDup_seq.
  - intros r. rewrite list_elem_of_filter, elem_of_seq. split; [|tauto].
    intros Hr. split; [done|].
    apply elem_of_roots in Hr as (n & Hn & _). apply lookup_lt_Some in Hn. lia.
Qed.

Lemma resolve_unique nodes p r n :
  NoDup (node_id <$> nodes) → nodes !! r = Some n → node_id n = p →
  resolve nodes p = Some r.
Proof.
  intros Hnd Hr Hp. apply resolve_Some. exists n. split; [done|]. split; [done|].
  intros j m' Hj Hlt Hm'.
  assert (j = r); [|lia].
  apply (proj1 (NoDup_alt _) Hnd j r p); rewrite list_lookup_fmap.
  - by rewrite Hj, <-Hm'.
  - by rewrite Hr, <-Hp.
Qed.

End edge_facts.

(** X13.  The children lists of [buildChildrenMap] sort the nodes by
    their parent link: the list under a key holds exactly the nodes
    with that parent link (an absent or empty link is the key [null]),
    in array order.  The roots are the nodes without a parent link in
    array order, followed by the nodes whose parent link is the id of no
    node, in array order; no other node is a root. *)
Theorem buildChildrenMap_index (nodes : list NodeT) :
  let cm := buildChildrenMap nodes in
  (∀ key,
     default [] (byParent cm !! key)
       = (filter (λ o, parent_key o.2 = key) (objects nodes)).*1) ∧
  (∀ key r,
     r ∈ default [] (byParent cm !! key) ↔
     ∃ n, nodes !! r = Some n ∧ parent_key n = key) ∧
  roots cm = keyed nodes None ++ dangling nodes ∧
  (∀ r,
     r ∈ roots cm ↔
     ∃ n, nodes !! r = Some n ∧
       (falsy (node_parentId n) = true ∨
        ∃ p, node_parentId n = Some p ∧ p ∉ node_id <$> nodes)).
Proof.
  intros cm. split_and!.
  - intros key. apply byParent_lookup.
  - intros key r. unfold cm. rewrite byParent_lookup. apply elem_of_keyed.
  - apply roots_eq.
  - intros r. apply elem_of_roots.
Qed.

(** X14.  The edges that are drawn are one for every node that is not
    a root of [buildChildrenMap], in array order, and none for a root:
    edges and roots together are as many as the nodes.  Every edge
    leads from a node whose id is the parent link of the node it leads
    to, and is named by these two ids joined with an underscore; with
    pairwise distinct ids that node is the parent that the layout
    uses. *)
Theorem edges_spec (nodes : list NodeT) :
  edge_to <$> edges nodes
    = filter (λ r, r ∉ roots (buildChildrenMap nodes)) (seq 0 (length nodes)) ∧
  length (edges nodes) + length (roots (buildChildrenMap nodes)) = length nodes ∧
  (∀ e, e ∈ edges nodes →
     ∃ nf nt,
       nodes !! edge_from e = Some nf ∧ nodes !! edge_to e = Some nt ∧
       node_parentId nt = Some (node_id nf) ∧ node_id nf ≠ "" ∧
       edge_id e = node_id nf +:+ "_" +:+ node_id nt) ∧
  (NoDup (node_id <$> nodes) →
   ∀ e, e ∈ edges nodes → parent_of nodes (edge_to e) = Some (edge_from e)).
Proof.
  assert (∀ e, e ∈ edges nodes →
     ∃ nf nt,
       nodes !! edge_from e = Some nf ∧ nodes !! edge_to e = Some nt ∧
       node_parentId nt = Some (node_id nf) ∧ node_id nf ≠ "" ∧
       edge_id e = node_id nf +:+ "_" +:+ node_id nt) as Hedge.
  { intros e. unfold edges. rewrite foldl_push_edge. simpl.
    intros ([r n] & Ho & He)%list_elem_of_omap.
    apply elem_of_objects in Ho.
    apply edge_for_Some in He as (p & Hp & Hne & Hm & Hto & Hid). simpl in *.
    apply node_index_Some in Hm as (nf & Hnf & <-).
    exists nf, n. rewrite Hto. done. }
  split_and!.
  - apply edge_targets.
  - pose proof (length_filter_split (λ r, r ∈ roots (buildChildrenMap nodes))
                  (seq 0 (length nodes))) as Hs.
    rewrite length_seq, <-roots_length in Hs.
    assert (length (edges nodes)
            = length (filter (λ r, r ∉ roots (buildChildrenMap nodes))
                        (seq 0 (length nodes)))) as ->
      by (rewrite <-edge_targets; by rewrite length_fmap).
    lia.
  - done.
  - intros Hnd e (nf & nt & Hnf & Hnt & Hp & Hne & _)%Hedge.
    unfold parent_of. rewrite Hnt. simpl.
    assert (parent_key nt = Some (node_id nf)) as -> by by apply parent_key_Some.
    simpl. by eapply resolve_unique.
Qed.

(** The sample has the two edges from "A". *)
Example edges_sample :
  edges sample = [mkEdge "A_B" 0 1; mkEdge "A_C" 0 2].
Proof. by vm_compute. Qed.

(** * The grid of the layout *)

Section grid_facts.

Variable kids : ref → list ref.
Variable lev : ref → nat → Prop.
Hypothesis lev_kids : ∀ r k c, lev r k → c ∈ kids r → lev c (S k).

(** The log of a run: every write is at the row of the written node's
    level, and the leaves are written at consecutive columns, counted
    by the cursor. *)
Lemma plan_grid fuel : ∀ r depth s p s',
  lev r depth →
  plan kids fuel r depth s = Some (p, s') →
  s.1 ≤ s'.1 ∧
  ∃ ws, s'.2 = s.2 ++ ws ∧
    Forall (λ w, ∃ k, lev w.1 k ∧ w.2.2 = Num.of_nat (k * V)) ws ∧
    (filter (λ w, kids w.1 = []) ws).*2.*1
      = (λ i, Num.of_nat (i * H)) <$> seq s.1 (s'.1 - s.1).
Proof.
  induction fuel as [|fuel IH]; intros r depth s p s' Hlev Hplan; [done|].
  rewrite plan_S in Hplan. destruct (kids r) as [|c0 cs] eqn:Ek.
  - simplify_eq/=. split; [lia|]. eexists. split; [done|]. split.
    + apply Forall_singleton. simpl. eauto.
    + rewrite filter_cons, decide_True by done.
      replace (s.1 + 1 - s.1) with 1 by lia. done.
  - rewrite <-Ek in Hplan.
    destruct (map_st _ (kids r) s) as [[ps s1]|] eqn:Emap; [|done].
    simplify_eq/=.
    apply (map_st_hoare _
      (λ (done : list ref) (bs : list (number * number)) (t : nat * list write),
         s.1 ≤ t.1 ∧
         ∃ ws, t.2 = s.2 ++ ws ∧
           Forall (λ w, ∃ k, lev w.1 k ∧ w.2.2 = Num.of_nat (k * V)) ws ∧
           (filter (λ w, kids w.1 = []) ws).*2.*1
             = (λ i, Num.of_nat (i * H)) <$> seq s.1 (t.1 - s.1))) in Emap.
    + destruct Emap as (Hle & ws & Hws & Hrows & Hcols).
      split; [done|]. eexists (ws ++ [_]). split_and!.
      * by rewrite Hws, app_assoc.
      * apply Forall_app. split; [done|]. apply Forall_singleton. simpl. eauto.
      * rewrite filter_app, filter_cons, decide_False by (simpl; by rewrite Ek).
        by rewrite filter_nil, app_nil_r.
    + intros done bs t a b t' Ha (Hle & ws & Hws & Hrows & Hcols) Hstep.
      apply IH in Hstep as (Hle' & ws' & Hws' & Hrows' & Hcols');
        [|rewrite Nat.add_1_r; by eapply lev_kids].
      split; [lia|]. exists (ws ++ ws'). split_and!.
      * by rewrite Hws', Hws, app_assoc.
      * by apply Forall_app.
      * rewrite filter_app, !fmap_app.
        etrans; [exact (f_equal2 app Hcols Hcols')|]. rewrite <-fmap_app. f_equal.
        replace (t'.1 - s.1) with ((t.1 - s.1) + (t'.1 - t.1)) by lia.
        rewrite seq_app. do 2 f_equal. lia.
    + split; [done|]. exists []. split_and!; [by rewrite app_nil_r|done|].
      by rewrite Nat.sub_diag.
Qed.

End grid_facts.

Section grid_of_nodes.

Variable nodes : list NodeT.
Hypothesis ids_distinct : NoDup (node_id <$> nodes).

Lemma plan_roots_grid fuel ps s :
  plan_roots nodes fuel = Some (ps, s) →
  Forall (λ w, ∃ k, level nodes w.1 k ∧ w.2.2 = Num.of_nat (k * V)) s.2 ∧
  (filter (λ w, index_kids nodes w.1 = []) s.2).*2.*1
    = (λ i, Num.of_nat (i * H)) <$> seq 0 s.1.
Proof.
  unfold plan_roots. intros Hrun.
  apply (map_st_hoare _
    (λ (done : list ref) (_ : list (number * number)) (t : nat * list write),
       Forall (λ w, ∃ k, level nodes w.1 k ∧ w.2.2 = Num.of_nat (k * V)) t.2 ∧
       (filter (λ w, index_kids nodes w.1 = []) t.2).*2.*1
         = (λ i, Num.of_nat (i * H)) <$> seq 0 t.1)) in Hrun; [done| |done].
  intros done bs t a b t' Ha [Hrows Hcols] Hstep.
  apply (plan_grid _ (level nodes)) in Hstep as (Hle & ws & -> & Hrows' & Hcols').
  - split; [by apply Forall_app|].
    rewrite filter_app, !fmap_app.
    etrans; [exact (f_equal2 app Hcols Hcols')|]. rewrite <-fmap_app. f_equal.
    trans (seq 0 (t.1 + (t'.1 - t.1))); [by rewrite seq_app|f_equal; lia].
  - intros r k c. by apply level_kids.
  - apply root_iff in Ha as [Hlt Hroot]. by apply level_root.
Qed.

Lemma root_distance_level fuel : ∀ r k,
  r < length nodes → root_distance nodes fuel r = Some k → level nodes r k.
Proof.
  induction fuel as [|fuel IH]; intros r k Hr Hd; simpl in Hd;
    destruct (parent_of nodes r) as [r'|] eqn:Ep; try done.
  - injection Hd as <-. by apply level_root.
  - destruct (root_distance nodes fuel r') as [k'|] eqn:Ed; [|done].
    injection Hd as <-. eapply level_child; [done|]. apply IH; [|done].
    by apply parent_of_lt in Ep as [_ ?].
  - injection Hd as <-. by apply level_root.
Qed.

Lemma forest_level r :
  is_forest nodes = true → r < length nodes → ∃ k, level nodes r k.
Proof.
  unfold is_forest. rewrite forallb_forall. intros Hall Hr.
  specialize (Hall r). rewrite <-list_elem_of_In, elem_of_seq in Hall.
  apply bool_decide_eq_true in Hall as [k Hk]; [|lia].
  exists k. by eapply root_distance_level.
Qed.

(** What the centring pass leaves of a written position. *)
Lemma centre_lookup h r n :
  centre h !! r = Some n →
  ∃ n0, h !! r = Some n0 ∧
    node_x n = Num.sub (node_x n0) (bbox_mid h).1 ∧
    node_y n = Num.sub (node_y n0) (bbox_mid h).2.
Proof.
  unfold centre. rewrite list_lookup_fmap.
  destruct (h !! r) as [n0|]; [|done]. intros [= <-]. by exists n0.
Qed.

End grid_of_nodes.

(** X15.  For nodes with pairwise distinct ids in which every node
    reaches a root along the parent links, [autoLayout] puts every node
    on the row of its depth: a node that is [k] parent links away from
    its root gets the vertical coordinate [90 k], less one offset that
    is the same for all nodes.  A child is thus 90 below its parent. *)
Theorem autoLayout_rows (nodes : list NodeT) :
  NoDup (node_id <$> nodes) → is_forest nodes = true →
  ∃ out midY,
    autoLayout nodes = Some out ∧
    ∀ r, r < length nodes →
      ∃ k n, level nodes r k ∧ out !! r = Some n ∧
             node_y n = Num.sub (Num.of_nat (k * V)) midY.
Proof.
  intros Hnd Hforest. unfold autoLayout.
  destruct (plan_roots_total nodes Hnd) as [[ps s] Hrun].
  exists (centre (apply_writes s.2 nodes)), (bbox_mid (apply_writes s.2 nodes)).2.
  split; [by rewrite autoLayout_plan, Hrun|].
  intros r Hr.
  destruct (forest_level nodes r Hforest Hr) as [k Hk]. exists k.
  destruct (centre (apply_writes s.2 nodes) !! r) as [n|] eqn:En.
  2:{ apply lookup_ge_None in En. unfold centre in En.
      rewrite length_fmap, apply_writes_length in En. lia. }
  exists n. split; [done|]. split; [done|].
  apply centre_lookup in En as (n0 & Hn0 & _ & ->). f_equal.
  pose proof (plan_roots_covering _ _ _ _ Hforest Hrun r Hr) as Hin.
  destruct (apply_writes_lookup_written _ _ _ _ Hin Hn0) as (p & Hp & _ & ->).
  destruct (plan_roots_grid nodes Hnd _ _ _ Hrun) as [Hrows _].
  rewrite Forall_forall in Hrows.
  destruct (Hrows _ Hp) as (k' & Hk' & Hy). simpl in Hk', Hy.
  by rewrite Hy, (level_fun nodes r k k' Hk Hk').
Qed.

Lemma autoLayout_rows_witness :
  ∃ out midY,
    autoLayout sample = Some out ∧
    ∃ k n, level sample 1 k ∧ out !! 1 = Some n ∧
           node_y n = Num.sub (Num.of_nat (k * V)) midY.
Proof.
  assert (NoDup (node_id <$> sample)) as Hnd.
  { apply (bool_decide_unpack _). vm_compute. exact I. }
  destruct (autoLayout_rows sample Hnd eq_refl) as (out & midY & Hout & Hrows).
  exists out, midY. split; [exact Hout|]. apply Hrows. simpl. lia.
Defined.

(** X16.  For nodes with pairwise distinct ids in which every node
    reaches a root along the parent links, [autoLayout] puts every node
    without children on a column of its own: its horizontal coordinate
    is [120 i] for a column number [i], less one offset that is the same
    for all nodes, and two such nodes have different column numbers. *)
Theorem autoLayout_columns (nodes : list NodeT) :
  NoDup (node_id <$> nodes) → is_forest nodes = true →
  ∃ out midX,
    autoLayout nodes = Some out ∧
    ∀ r1 r2 n1 n2,
      out !! r1 = Some n1 → out !! r2 = Some n2 →
      index_kids nodes r1 = [] → index_kids nodes r2 = [] →
      ∃ i1 i2,
        node_x n1 = Num.sub (Num.of_nat (i1 * H)) midX ∧
        node_x n2 = Num.sub (Num.of_nat (i2 * H)) midX ∧
        (r1 ≠ r2 → i1 ≠ i2).
Proof.
  intros Hnd Hforest. unfold autoLayout.
  destruct (plan_roots_total nodes Hnd) as [[ps s] Hrun].
  exists (centre (apply_writes s.2 nodes)), (bbox_mid (apply_writes s.2 nodes)).1.
  split; [by rewrite autoLayout_plan, Hrun|].
  destruct (plan_roots_grid nodes Hnd _ _ _ Hrun) as [_ Hcols].
  assert (∀ r n, centre (apply_writes s.2 nodes) !! r = Some n →
            index_kids nodes r = [] →
            ∃ i p, filter (λ w, index_kids nodes w.1 = []) s.2 !! i = Some (r, p) ∧
                   node_x n = Num.sub (Num.of_nat (i * H))
                                (bbox_mid (apply_writes s.2 nodes)).1) as Hcol.
  { intros r n Hn Hleaf.
    assert (r < length nodes) as Hr.
    { apply lookup_lt_Some in Hn. unfold centre in Hn.
      by rewrite length_fmap, apply_writes_length in Hn. }
    apply centre_lookup in Hn as (n0 & Hn0 & -> & _).
    pose proof (plan_roots_covering _ _ _ _ Hforest Hrun r Hr) as Hin.
    destruct (apply_writes_lookup_written _ _ _ _ Hin Hn0) as (p & Hp & -> & _).
    assert ((r, p) ∈ filter (λ w, index_kids nodes w.1 = []) s.2) as Hf
      by by apply list_elem_of_filter.
    apply list_elem_of_lookup in Hf as [i Hi]. exists i, p. split; [done|].
    f_equal.
    assert ((filter (λ w, index_kids nodes w.1 = []) s.2).*2.*1 !! i = Some p.1) as Hx
      by by rewrite !list_lookup_fmap, Hi.
    rewrite Hcols, list_lookup_fmap in Hx.
    destruct (seq 0 s.1 !! i) as [j|] eqn:Ej; [|done].
    apply lookup_seq in Ej as [-> _]. by injection Hx as <-. }
  intros r1 r2 n1 n2 Hn1 Hn2 Hl1 Hl2.
  destruct (Hcol r1 n1 Hn1 Hl1) as (i1 & p1 & Hi1 & Hx1).
  destruct (Hcol r2 n2 Hn2 Hl2) as (i2 & p2 & Hi2 & Hx2).
  exists i1, i2. split; [done|]. split; [done|].
  intros Hne ->. rewrite Hi1 in Hi2. by injection Hi2.
Qed.

Lemma autoLayout_columns_witness :
  ∃ out midX,
    autoLayout sample = Some out ∧
    ∀ n1 n2, out !! 1 = Some n1 → out !! 2 = Some n2 →
      ∃ i1 i2,
        node_x n1 = Num.sub (Num.of_nat (i1 * H)) midX ∧
        node_x n2 = Num.sub (Num.of_nat (i2 * H)) midX ∧
        i1 ≠ i2.
Proof.
  assert (NoDup (node_id <$> sample)) as Hnd.
  { apply (bool_decide_unpack _). vm_compute. exact I. }
  destruct (autoLayout_columns sample Hnd eq_refl) as (out & midX & Hout & Hcols).
  exists out, midX. split; [exact Hout|]. intros n1 n2 H1 H2.
  destruct (Hcols 1 2 n1 n2 H1 H2 eq_refl eq_refl) as (i1 & i2 & Hx1 & Hx2 & Hne).
  exists i1, i2. split; [exact Hx1|]. split; [exact Hx2|]. apply Hne. lia.
Defined.

(** * Storing and loading maps *)

Section store_facts.

Implicit Types (c : Category) (cats : list Category) (id : string).

Lemma first_some_fmap {A B} (f : A → option B) (g : A → A) (h : B → B) (l : list A) :
  Forall (λ a, f (g a) = h <$> f a) l →
  first_some f (g <$> l) = h <$> first_some f l.
Proof.
  induction l as [|a l IH]; intros Hall; [done|].
  apply Forall_cons in Hall as [Ha Hall]. simpl. rewrite Ha.
  destruct (f a); [done|]. by apply IH.
Qed.

(** The search commutes with the storing of a map. *)
Lemma find_in_category_upsert id doc c :
  find_in_category id (upsert_in_category id doc c)
    = upsert_in_category id doc <$> find_in_category id c.
Proof.
  assert (∀ c, Forall (λ c', find_in_category id (upsert_in_category id doc c')
                               = upsert_in_category id doc <$> find_in_category id c')
                 (children_or_nil c) →
               find_in_category id (upsert_in_category id doc c)
                 = upsert_in_category id doc <$> find_in_category id c) as Hstep.
  { clear c. intros c IH. destruct (decide (cat_id c = id)) as [Heq|Hne].
    - rewrite (find_in_category_unfold id c), decide_True by done.
      rewrite upsert_in_category_unfold, decide_True by done.
      rewrite find_in_category_unfold. simpl. rewrite decide_True by done.
      by rewrite upsert_in_category_unfold, decide_True.
    - rewrite (find_in_category_unfold id c), decide_False by done.
      rewrite find_in_category_unfold, decide_False
        by by rewrite (proj1 (upsert_in_category_other _ doc _ Hne)).
      rewrite children_or_nil_upsert by done.
      by apply first_some_fmap. }
  induction c as [cid name maps|cid name maps cs IHcs] using Category_induction;
    apply Hstep; [apply Forall_nil_2|exact IHcs].
Qed.

Lemma findCategoryById_upsert cats id doc :
  findCategoryById (upsertMapInCategories cats id doc) id
    = upsert_in_category id doc <$> findCategoryById cats id.
Proof.
  unfold findCategoryById, upsertMapInCategories. apply first_some_fmap.
  apply Forall_forall. intros c _. apply find_in_category_upsert.
Qed.

Lemma foldl_expand (ids : list string) : ∀ (e : gmap string bool) id,
  foldl (λ e id, <[id := true]> e) e ids !! id
    = if decide (id ∈ ids) then Some true else e !! id.
Proof.
  induction ids as [|i ids IH]; intros e id.
  - destruct (decide (id ∈ [])) as [Hin|_]; [by apply elem_of_nil in Hin|done].
  - change (foldl (λ e id, <[id := true]> e) e (i :: ids))
      with (foldl (λ e id, <[id := true]> e) (<[i := true]> e) ids).
    rewrite IH.
    destruct (decide (id ∈ ids)) as [Hin|Hnot],
      (decide (id ∈ i :: ids)) as [Hin'|Hnot']; try done.
    + exfalso. apply Hnot'. by apply list_elem_of_further.
    + apply elem_of_cons in Hin' as [->|?]; [|done]. by rewrite lookup_insert_eq.
    + rewrite lookup_insert_ne; [done|]. intros ->. apply Hnot', list_elem_of_here.
Qed.

End store_facts.

(** X17.  Saving the current nodes into a category that is found and
    then loading the map of the new id from that category gives back
    the saved nodes, whatever name was asked for and whatever maps the
    category holds. *)
Theorem save_then_load (fresh : string) (now : number) (nodes other : list NodeT)
    (categories : list Category) (catId : string) (name : option string) :
  catId ≠ "" → is_Some (findCategoryById categories catId) →
  loadMap (saveCurrentAsMap fresh now nodes categories (Some catId) name)
    catId fresh other = nodes.
Proof.
  intros Hne [c Hfind]. unfold loadMap, saveCurrentAsMap. simpl.
  rewrite bool_decide_eq_false_2 by done.
  rewrite findCategoryById_upsert, Hfind. simpl.
  pose proof (findCategoryById_some _ _ _ Hfind) as [Hid _].
  rewrite upsert_in_category_unfold, decide_True by done. simpl.
  rewrite upsert_map_insert.
  - simpl. by rewrite decide_True.
  - intros m Hm Hname. simpl in Hname.
    pose proof (uniqueMapName_fresh (cat_maps c) (or_else name "Untitled")) as Hfree.
    assert (name_used (cat_maps c) (uniqueMapName (cat_maps c) (or_else name "Untitled"))
            = true) as Hused.
    { apply name_used_true, list_elem_of_fmap. eauto. }
    by rewrite Hfree in Hused.
Qed.

Lemma save_then_load_witness :
  loadMap (saveCurrentAsMap "m9" (Fin 2) sample fakeCats (Some "cat2") (Some "MapA"))
    "cat2" "m9" [] = sample.
Proof.
  apply save_then_load; [done|]. by eexists.
Defined.

(** X18.  [createEmptyMapHere] takes the name that was typed as it is:
    when a map of the category already bears it, the first such map is
    replaced by the new, empty map and the number of maps stays the
    same.  When nothing was typed, the suggested name is used, which no
    map bears, and the new map is put in front. *)
Theorem createEmptyMapHere_spec (fresh : string) (now : number)
    (categories : list Category) (catId : string) (prompted : option string)
    (c : Category) :
  findCategoryById categories catId = Some c →
  let name := or_else prompted (uniqueMapName (cat_maps c) "Untitled") in
  let doc := mkDoc fresh name INITIAL_NODES now in
  ∃ path c',
    cat_at path categories = Some c ∧
    cat_at path (createEmptyMapHere fresh now categories catId prompted) = Some c' ∧
    (falsy prompted = true → cat_maps c' = doc :: cat_maps c) ∧
    (∀ i m, cat_maps c !! i = Some m → doc_name m = name →
       (∀ j m', j < i → cat_maps c !! j = Some m' → doc_name m' ≠ name) →
       cat_maps c' = <[i := doc]> (cat_maps c) ∧
       length (cat_maps c') = length (cat_maps c) ∧
       cat_maps c' !! i = Some doc).
Proof.
  intros Hfind. cbv zeta. unfold createEmptyMapHere. rewrite Hfind.
  apply findCategoryById_some in Hfind as (Hid & path & Hat & Hout).
  exists path. eexists. split; [done|]. split.
  { rewrite (cat_at_upsert _ _ _ _ _ Hat Hout).
    by rewrite upsert_in_category_unfold, decide_True. }
  simpl. split.
  - intros Hf. apply upsert_map_insert. intros m Hm Hname. simpl in Hname.
    assert (or_else prompted (uniqueMapName (cat_maps c) "Untitled")
            = uniqueMapName (cat_maps c) "Untitled") as Hor.
    { destruct prompted as [s|]; [|done]. simpl in *.
      apply bool_decide_eq_true in Hf as ->. done. }
    rewrite Hor in Hname.
    pose proof (uniqueMapName_fresh (cat_maps c) "Untitled") as Hfree.
    assert (name_used (cat_maps c) (uniqueMapName (cat_maps c) "Untitled") = true)
      as Hused by (apply name_used_true, list_elem_of_fmap; eauto).
    by rewrite Hfree in Hused.
  - intros i m Hi Hname Hfirst.
    rewrite (upsert_map_replace (cat_maps c)
               (mkDoc fresh (or_else prompted (uniqueMapName (cat_maps c) "Untitled"))
                  INITIAL_NODES now) i m Hi Hname Hfirst).
    split; [done|]. split; [by rewrite length_insert|].
    apply list_lookup_insert_eq. by eapply lookup_lt_Some.
Qed.

Lemma createEmptyMapHere_spec_witness :
  ∃ path c',
    cat_at path (createEmptyMapHere "m9" (Fin 2) fakeCats "cat2" (Some "MapA")) = Some c' ∧
    cat_maps c' = [mkDoc "m9" "MapA" INITIAL_NODES (Fin 2)].
Proof.
  destruct (createEmptyMapHere_spec "m9" (Fin 2) fakeCats "cat2" (Some "MapA")
              (mkCategory "cat2" "C2" [mkDoc "m1" "MapA" [] (Fin 1)] (Some []))
              eq_refl)
    as (path & c' & _ & H2 & _ & H3).
  exists path, c'. split; [exact H2|].
  destruct (H3 0 (mkDoc "m1" "MapA" [] (Fin 1)) eq_refl eq_refl) as (H4 & _).
  - intros j m' Hj. lia.
  - exact H4.
Defined.

(** X19.  [expandAllCats] marks every category of the tree as expanded
    and nothing else: the table holds [true] under an id exactly when
    [findCategoryById] finds a category for it, and no other entry. *)
Theorem expandAllCats_spec (categories : list Category) (id : string) :
  expandAllCats categories !! id
    = if decide (is_Some (findCategoryById categories id)) then Some true else None.
Proof.
  unfold expandAllCats. rewrite foldl_expand, lookup_empty.
  destruct (decide (id ∈ collectCategoryIds categories)) as [Hin|Hnot].
  - rewrite decide_True; [done|]. by apply findCategoryById_is_Some.
  - rewrite decide_False; [done|]. by rewrite findCategoryById_is_Some.
Qed.

(** * Clamping *)

(** X20.  For bounds [a <= b], [clamp v a b] lies between [a] and [b]
    for every [v] that is a number, infinite ones included, and is [v]
    itself when [v] lies between the bounds; not-a-number passes
    through. *)
Theorem clamp_spec (v a b : number) :
  num_le a b →
  (v ≠ NaN → num_le a (clamp v a b) ∧ num_le (clamp v a b) b) ∧
  (num_le a v → num_le v b → Num.eqb (clamp v a b) v = true) ∧
  clamp NaN a b = NaN.
Proof.
  intros Hab. split_and!.
  - intros Hv. unfold clamp.
    destruct a as [a| | |], b as [b| | |], v as [v| | |]; simpl in *; try done;
      repeat match goal with
             | |- context [Qle_bool ?x ?y] =>
                 let E := fresh "E" in
                 destruct (Qle_bool x y) eqn:E; simpl;
                 [apply Qle_bool_iff in E
                 |apply not_true_iff_false in E; rewrite Qle_bool_iff in E;
                  apply Qnot_le_lt in E]
             end; try done; try lra.
  - intros Hav Hvb. unfold clamp.
    destruct a as [a| | |], b as [b| | |], v as [v| | |]; simpl in *; try done;
      repeat match goal with
             | |- context [Qle_bool ?x ?y] =>
                 let E := fresh "E" in
                 destruct (Qle_bool x y) eqn:E; simpl;
                 [apply Qle_bool_iff in E
                 |apply not_true_iff_false in E; rewrite Qle_bool_iff in E;
                  apply Qnot_le_lt in E]
             end; try done; try (apply Qeq_bool_iff; lra); try lra.
  - unfold clamp. by destruct a, b.
Qed.

Lemma clamp_spec_witness :
  num_le (Fin (1 # 4)) (clamp (Fin 5) (Fin (1 # 4)) (Fin 3)) ∧
  num_le (clamp (Fin 5) (Fin (1 # 4)) (Fin 3)) (Fin 3).
Proof.
  assert (num_le (Fin (1 # 4)) (Fin 3)) as Hab by (unfold num_le, Qle; simpl; lia).
  apply (proj1 (clamp_spec (Fin 5) (Fin (1 # 4)) (Fin 3) Hab)). done.
Defined.

(** * The layout and the other fields of a node *)

Section layout_reads.

Variable f : NodeT → NodeT.
Hypothesis f_id : ∀ n, node_id (f n) = node_id n.
Hypothesis f_parent : ∀ n, node_parentId (f n) = node_parentId n.
Hypothesis f_x : ∀ n, node_x (f n) = node_x n.
Hypothesis f_y : ∀ n, node_y (f n) = node_y n.
Hypothesis f_set_xy : ∀ x y n, f (set_xy x y n) = set_xy x y (f n).

Implicit Types (nodes h : list NodeT).

Lemma objects_fmap nodes :
  objects (f <$> nodes) = (λ o, (o.1, f o.2)) <$> objects nodes.
Proof. unfold objects. by rewrite imap_fmap, fmap_imap. Qed.

Lemma ids_fmap nodes : node_id <$> (f <$> nodes) = node_id <$> nodes.
Proof. rewrite <-list_fmap_compose. apply list_fmap_ext. intros i n _. apply f_id. Qed.

Lemma buildChildrenMap_fmap nodes :
  buildChildrenMap (f <$> nodes) = buildChildrenMap nodes.
Proof.
  unfold buildChildrenMap. cbv zeta. rewrite objects_fmap, ids_fmap.
  rewrite (foldl_fmap_same push_child _ push_child).
  2:{ intros c o. unfold push_child, parent_key. simpl. by rewrite f_parent. }
  rewrite (foldl_fmap_same (push_root _) _
             (push_root (list_to_set (node_id <$> nodes)))).
  2:{ intros c o. unfold push_root, unresolved. simpl. by rewrite f_parent. }
  f_equal. f_equal. apply list_filter_iff. intros r.
  unfold no_parent_at. rewrite list_lookup_fmap.
  destruct (nodes !! r); [|done]. simpl. by rewrite f_parent.
Qed.

Lemma plan_roots_fmap nodes fuel :
  plan_roots (f <$> nodes) fuel = plan_roots nodes fuel.
Proof.
  unfold plan_roots, index_kids. by rewrite buildChildrenMap_fmap, ids_fmap.
Qed.

Lemma apply_writes_fmap ws : ∀ h,
  apply_writes ws (f <$> h) = f <$> apply_writes ws h.
Proof.
  unfold apply_writes. induction ws as [|w ws IH]; intros h; [done|]. simpl.
  rewrite <-IH. f_equal. unfold apply_write. symmetry.
  apply list_fmap_alter, Forall_forall. intros n _. apply f_set_xy.
Qed.

Lemma centre_fmap h : centre (f <$> h) = f <$> centre h.
Proof.
  unfold centre. cbv zeta.
  assert (node_x <$> (f <$> h) = node_x <$> h) as ->.
  { rewrite <-list_fmap_compose. apply list_fmap_ext. intros i n _. apply f_x. }
  assert (node_y <$> (f <$> h) = node_y <$> h) as ->.
  { rewrite <-list_fmap_compose. apply list_fmap_ext. intros i n _. apply f_y. }
  rewrite <-!list_fmap_compose.
  apply list_fmap_ext. intros i n _. simpl. by rewrite f_x, f_y, f_set_xy.
Qed.

Lemma autoLayout_fmap nodes :
  autoLayout (f <$> nodes) = (λ out : list NodeT, f <$> out) <$> autoLayout nodes.
Proof.
  unfold autoLayout. rewrite length_fmap, !autoLayout_plan, plan_roots_fmap.
  destruct (plan_roots nodes (length nodes)) as [res|]; [|done]. simpl.
  by rewrite apply_writes_fmap, centre_fmap.
Qed.

End layout_reads.

(** X21.  The layout reads ids and parent links only: renaming a node
    and then laying out gives the same nodes as laying out and then
    renaming, and the layout of the renamed nodes ends exactly when
    that of the old ones does. *)
Theorem autoLayout_renameNode (nodes : list NodeT) (id newLabel : string) :
  autoLayout (renameNode nodes id newLabel)
    = (λ out, renameNode out id newLabel) <$> autoLayout nodes.
Proof.
  unfold renameNode. cbv zeta. apply autoLayout_fmap.
  - intros n. by destruct (decide _).
  - intros n. by destruct (decide _).
  - intros n. by destruct (decide _).
  - intros n. by destruct (decide _).
  - intros x y n. simpl. by destruct (decide _).
Qed.

(** * The nodes that the layout does not reach *)

Section reach_facts.

Variable kids : ref → list ref.


End reach_facts.

Section reach_of_nodes.

Variable nodes : list NodeT.




End reach_of_nodes.



(** * Looking up what was updated *)

Section lookup_facts.

Implicit Types (c : Category) (cats : list Category) (id : string)
  (u : Category → Category).

Lemma find_in_category_update id u c :
  (∀ x, cat_id (u x) = cat_id x) →
  find_in_category id (update_category id u c)
    = (λ c', u (set_children (Some (children_or_nil c')) c')) <$> find_in_category id c.
Proof.
  intros Hid.
  induction c as [cid name maps|cid name maps cs IHcs] using Category_induction;
    rewrite update_category_unfold, (find_in_category_unfold _ (mkCategory _ _ _ _));
    simpl; destruct (decide (cid = id)) as [Heq|Hne].
  - rewrite find_in_category_unfold, Hid. simpl. by rewrite decide_True.
  - rewrite find_in_category_unfold. simpl. by rewrite decide_False.
  - rewrite find_in_category_unfold, Hid. simpl. by rewrite decide_True.
  - rewrite find_in_category_unfold. simpl. rewrite decide_False by done.
    unfold findCategoryById, updateCategory. by apply first_some_fmap.
Qed.

End lookup_facts.

(** X23.  What is stored is what is found: after [updateCategory] with
    an updater that keeps the id, [findCategoryById] for that id
    returns the updater's value for the category that it returned
    before, handed over with its children list as it is (absent read as
    empty), and nothing when it returned nothing before.  After
    [upsertMapInCategories] it returns the category found before, with
    the map stored. *)
Theorem findCategoryById_after_update (cats : list Category) (id : string)
    (u : Category → Category) :
  (∀ x, cat_id (u x) = cat_id x) →
  findCategoryById (updateCategory cats id u) id
    = (λ c, u (mkCategory (cat_id c) (cat_name c) (cat_maps c)
                 (Some (children_or_nil c))))
        <$> findCategoryById cats id ∧
  ∀ doc,
    findCategoryById (upsertMapInCategories cats id doc) id
      = (λ c, mkCategory (cat_id c) (cat_name c) (upsert_map (cat_maps c) doc)
                (cat_children c))
          <$> findCategoryById cats id.
Proof.
  intros Hid. split.
  - unfold findCategoryById, updateCategory.
    apply (first_some_fmap (find_in_category id) (update_category id u)).
    apply Forall_forall. intros c _. by apply find_in_category_update.
  - intros doc. rewrite findCategoryById_upsert.
    destruct (findCategoryById cats id) as [c|] eqn:Hfind; [|done]. simpl.
    apply findCategoryById_some in Hfind as [Hc _].
    by rewrite upsert_in_category_unfold, decide_True.
Qed.

Lemma findCategoryById_after_update_witness :
  findCategoryById (renameCategoryTree rootCats "c1" " New ") "c1"
    = Some (mkCategory "c1" "New" [] (Some [])).
Proof.
  assert (∀ x, cat_id (set_name "New" x) = cat_id x) as Hid by reflexivity.
  exact (proj1 (findCategoryById_after_update rootCats "c1" (set_name "New") Hid)).
Defined.
